(** * btrfs-progs-ng: the logical-volume mapping engine and the rebuilt trees

    A shallow embedding of
    - [lib/btrfs/btrfsvol]: [chunkMapping], [devextMapping] and
      [LogicalVolume] (lvm.go, chunk.go, devext.go);
    - [lib/btrfsprogs/btrfsinspect/rebuildnodes/btrees]: [RebuiltTree]
      (tree.go);
    - [lib/btrfsutil]: [oldRebuiltTree.TreeCheckOwner]
      (old_rebuilt_forrest.go),
    followed by the properties of the specification that concern them. *)

From Stdlib Require Import ZArith List Lia Bool.
From Stdlib.Strings Require Import Byte.
From stdpp Require Import base decidable option list gmap sorting.

Local Open Scope Z_scope.

(** ** Primitive types (package btrfsprim, btrfsvol)

    [LogicalAddr], [PhysicalAddr] and [AddrDelta] are Go [int64];
    [DeviceID], [ObjID] and [Generation] are [uint64].  They are embedded
    as [Z]; where the source computes, the two's-complement wrap-around
    of [int64] is written out by [wrap64]. *)

Definition LogicalAddr := Z.
Definition PhysicalAddr := Z.
Definition AddrDelta := Z.
Definition DeviceID := Z.
Definition ObjID := Z.
Definition Generation := Z.
Definition BlockGroupFlags := Z.

Definition MinInt64 : Z := - 2 ^ 63.
Definition MaxInt64 : Z := 2 ^ 63 - 1.

Definition wrap64 (z : Z) : Z := (z + 2 ^ 63) mod 2 ^ 64 - 2 ^ 63.

Definition is_int64 (z : Z) : Prop := MinInt64 <= z <= MaxInt64.

(** [func (a LogicalAddr) Add(b AddrDelta) LogicalAddr] and its
    siblings on [PhysicalAddr]: [a + b] and [a - b] on [int64]. *)
Definition Add (a : Z) (b : AddrDelta) : Z := wrap64 (a + b).
Definition Sub (a b : Z) : AddrDelta := wrap64 (a - b).

Record QualifiedPhysicalAddr := mkQPA { Dev : DeviceID; Addr : PhysicalAddr }.

#[global] Instance QualifiedPhysicalAddr_eq_dec : EqDecision QualifiedPhysicalAddr.
Proof. solve_decision. Defined.

#[global] Instance QualifiedPhysicalAddr_countable : Countable QualifiedPhysicalAddr.
Proof.
  refine (inj_countable' (fun a => (Dev a, Addr a))
                         (fun p => {| Dev := fst p; Addr := snd p |}) _).
  by intros [].
Defined.

(** [func (a QualifiedPhysicalAddr) Add(b AddrDelta)] *)
Definition QAdd (a : QualifiedPhysicalAddr) (b : AddrDelta) : QualifiedPhysicalAddr :=
  {| Dev := Dev a; Addr := Add (Addr a) b |}.

(** [func (a QualifiedPhysicalAddr) Cmp(b QualifiedPhysicalAddr) int]:
    by device first, then by address. *)
Definition QCmp (a b : QualifiedPhysicalAddr) : Z :=
  if Dev a <? Dev b then -1
  else if Dev b <? Dev a then 1
  else if Addr a <? Addr b then -1
  else if Addr b <? Addr a then 1
  else 0.

(** ** Errors and results

    A Go function returning [(T, error)] is embedded as [result T]; a
    Go [panic] is its own outcome, since no state survives it. *)

Inductive error :=
| ErrNoPhysicalVolume      (* "do not have a physical volume with id=%v" *)
| ErrAlreadyHaveVolume     (* "cannot add physical volume ...: already have ..." *)
| ErrDontOverlap           (* "chunks don't overlap" / "devexts don't overlap" *)
| ErrSizeLockedConflict    (* "member ... has locked size=%v, but union would have size=%v" *)
| ErrFlagsConflict         (* "mismatch flags: %v != %v" *)
| ErrDevExtConflict        (* "devexts don't agree on laddr: %v != %v" *)
| ErrMultipleStripes       (* "multiple stripes but flags=%v does not allow multiple stripes" *)
| ErrFsckNoVolume          (* "chunk references physical volume %v which does not exist" *)
| ErrFsckSkew              (* "skew between chunk tree and devext tree" *)
| ErrCouldNotMap           (* ErrCouldNotMap *)
| ErrNoDevice              (* "device=%v does not exist" *)
| ErrIO                    (* an error of the device's ReadAt *)
| ErrInconsistentStripes   (* "inconsistent stripes at laddr=%v len=%v" *)
| ErrOwnerNotAcceptable    (* "owner=%v is not acceptable in this tree" *)
| ErrOwnerGeneration       (* "claimed owner=%v might be acceptable in this tree (if generation<=%v) ..." *)
| ErrOwnerUndetermined.    (* "unable to determine whether owner=%v generation=%v is acceptable" *)

#[global] Instance error_eq_dec : EqDecision error.
Proof. solve_decision. Defined.

Inductive result (A : Type) :=
| Ok (a : A)
| Err (e : error)
| Panic.
Arguments Ok {A} a.
Arguments Err {A} e.
Arguments Panic {A}.

(** The three mapping conflicts of the specification. *)
Definition is_conflict (e : error) : bool :=
  match e with
  | ErrSizeLockedConflict | ErrFlagsConflict | ErrDevExtConflict => true
  | _ => false
  end.

(** ** The ordered-range container (package containers, [RBTree])

    Modelled from the spec: the file rbtree.go is missing; section 4.1
    describes the container by its in-order contents.  A tree is the
    list of its values in ascending order of the intrinsic order
    [Compare]; [Search p] returns the value where [p v = 0], [Subrange p]
    visits every value where [p v = 0] in ascending order, [Insert] and
    [Delete] are keyed by the intrinsic order and an insert of a key
    that is already present is rejected. *)

Module RBTree.
Section RBTree.
Context {T : Type} (Compare : T -> T -> Z).

Definition Search (fn : T -> Z) (t : list T) : option T :=
find (fun v => fn v =? 0) t.

Definition Subrange (fn : T -> Z) (t : list T) : list T :=
filter (fun v => fn v = 0) t.

Fixpoint insertOrdered (val : T) (t : list T) : list T :=
match t with
| [] => [val]
| v :: t' => if Compare val v <? 0 then val :: v :: t'
           else v :: insertOrdered val t'
end.

Definition Insert (val : T) (t : list T) : list T :=
match Search (Compare val) t with
| Some _ => t
| None => insertOrdered val t
end.

(** [Delete(node)]: the node is named by its value, [nil] deletes
nothing; the first value with that key goes. *)
Fixpoint deleteKey (val : T) (t : list T) : list T :=
match t with
| [] => []
| v :: t' => if Compare val v =? 0 then t' else v :: deleteKey val t'
end.

Definition Delete (node : option T) (t : list T) : list T :=
match node with
| None => t
| Some val => deleteKey val t
end.

(** [Range] visits the values in order; [Max] is the last one. *)
Definition Range (t : list T) : list T := t.
Definition Max (t : list T) : option T := last t.
End RBTree.
End RBTree.

(** [util.Min], [util.Max] *)
Definition Min (a b : Z) : Z := if a <? b then a else b.
Definition Max (a b : Z) : Z := if a >? b then a else b.

(** The keys of a Go [map[QualifiedPhysicalAddr]struct{}] sorted with
    [sort.Slice] by [Cmp < 0]: the ascending list without duplicates.
    [paddrsInsert] is the assignment [paddrs[k] = struct{}{}] on that
    representation. *)
Fixpoint paddrsInsert (k : QualifiedPhysicalAddr) (s : list QualifiedPhysicalAddr)
  : list QualifiedPhysicalAddr :=
  match s with
  | [] => [k]
  | x :: s' =>
      if QCmp k x <? 0 then k :: x :: s'
      else if QCmp k x =? 0 then x :: s'
      else x :: paddrsInsert k s'
  end.

(** ** [chunkMapping]: logical => []physical (chunk.go) *)

Module chunkMapping.

Record t := mk {
  LAddr : LogicalAddr;
  PAddrs : list QualifiedPhysicalAddr;
  Size : AddrDelta;
  SizeLocked : bool;
  Flags : option BlockGroupFlags
}.

#[global] Instance eq_dec : EqDecision t.
Proof. solve_decision. Defined.

(** Modelled from the spec: the method [Compare] of the intrinsic
    order is missing from chunk.go; the index is keyed by the logical
    address. *)
Definition Compare (a b : t) : Z :=
  if LAddr a <? LAddr b then -1 else if LAddr b <? LAddr a then 1 else 0.

(** return -1 if 'a' is wholly to the left of 'b',
    0 if there is some overlap between 'a' and 'b',
    1 if 'a' is wholly to the right of 'b'
    (lvm.go calls it [compareRange]). *)
Definition cmpRange (a b : t) : Z :=
  if Add (LAddr a) (Size a) <=? LAddr b then -1
  else if Add (LAddr b) (Size b) <=? LAddr a then 1
  else 0.

(** figure out the logical range (.LAddr and .Size) *)
Definition rangeLoop (chunks : list t) (beg_end : Z * Z) : Z * Z :=
  fold_left (fun '(beg, end_) chunk =>
               (Min beg (LAddr chunk), Max end_ (Add (LAddr chunk) (Size chunk))))
            chunks beg_end.

(** the loop over [.SizeLocked]: the locked flag of the union, or the
    error of the first locked member of another size *)
Fixpoint lockedLoop (retSize : AddrDelta) (locked : bool) (chunks : list t)
  : result bool :=
  match chunks with
  | [] => Ok locked
  | chunk :: chunks' =>
      if SizeLocked chunk then
        if negb (retSize =? Size chunk) then Err ErrSizeLockedConflict
        else lockedLoop retSize true chunks'
      else lockedLoop retSize locked chunks'
  end.

(** figure out the physical stripes (.PAddrs) *)
Definition stripesOf (retLAddr : LogicalAddr) (chunk : t)
  (paddrs : list QualifiedPhysicalAddr) : list QualifiedPhysicalAddr :=
  let offsetWithinRet := Sub (LAddr chunk) retLAddr in
  fold_left (fun paddrs stripe =>
               paddrsInsert {| Dev := Dev stripe;
                               Addr := Add (Addr stripe) (wrap64 (- offsetWithinRet)) |}
                            paddrs)
            (PAddrs chunk) paddrs.

Definition stripesLoop (retLAddr : LogicalAddr) (chunks : list t)
  : list QualifiedPhysicalAddr :=
  fold_left (fun paddrs chunk => stripesOf retLAddr chunk paddrs) chunks [].

(** figure out the flags (.Flags) *)
Fixpoint flagsLoop (retFlags : option BlockGroupFlags) (chunks : list t)
  : result (option BlockGroupFlags) :=
  match chunks with
  | [] => Ok retFlags
  | chunk :: chunks' =>
      match Flags chunk with
      | None => flagsLoop retFlags chunks'
      | Some f =>
          let retFlags' := match retFlags with None => Some f | Some _ => retFlags end in
          if negb (bool_decide (retFlags' = Some f)) then Err ErrFlagsConflict
          else flagsLoop retFlags' chunks'
      end
  end.

Definition union (a : t) (rest : list t) : result t :=
  (* sanity check *)
  if negb (forallb (fun chunk => cmpRange a chunk =? 0) rest) then Err ErrDontOverlap
  else
    let chunks := a :: rest in
    let '(beg, end_) := rangeLoop chunks (LAddr a, Add (LAddr a) (Size a)) in
    let retLAddr := beg in
    let retSize := Sub end_ beg in
    match lockedLoop retSize false chunks with
    | Err e => Err e
    | Panic => Panic
    | Ok locked =>
        let paddrs := stripesLoop retLAddr chunks in
        match flagsLoop None chunks with
        | Err e => Err e
        | Panic => Panic
        | Ok flags =>
            Ok {| LAddr := retLAddr; PAddrs := paddrs; Size := retSize;
                  SizeLocked := locked; Flags := flags |}
        end
    end.

End chunkMapping.

(** ** [devextMapping]: physical => logical (devext.go) *)

Module devextMapping.

Record t := mk {
  PAddr : PhysicalAddr;
  LAddr : LogicalAddr;
  Size : AddrDelta;
  SizeLocked : bool;
  Flags : option BlockGroupFlags
}.

#[global] Instance eq_dec : EqDecision t.
Proof. solve_decision. Defined.

(** Modelled from the spec: the method [Compare] of the intrinsic
    order is missing from devext.go; the index is keyed by the
    physical address. *)
Definition Compare (a b : t) : Z :=
  if PAddr a <? PAddr b then -1 else if PAddr b <? PAddr a then 1 else 0.

Definition cmpRange (a b : t) : Z :=
  if Add (PAddr a) (Size a) <=? PAddr b then -1
  else if Add (PAddr b) (Size b) <=? PAddr a then 1
  else 0.

(** figure out the physical range (.PAddr and .Size) *)
Definition rangeLoop (exts : list t) (beg_end : Z * Z) : Z * Z :=
  fold_left (fun '(beg, end_) ext =>
               (Min beg (PAddr ext), Max end_ (Add (PAddr ext) (Size ext))))
            exts beg_end.

Fixpoint lockedLoop (retSize : AddrDelta) (locked : bool) (exts : list t)
  : result bool :=
  match exts with
  | [] => Ok locked
  | ext :: exts' =>
      if SizeLocked ext then
        if negb (retSize =? Size ext) then Err ErrSizeLockedConflict
        else lockedLoop retSize true exts'
      else lockedLoop retSize locked exts'
  end.

(** figure out the logical range (.LAddr).  The variable [first] is
    threaded through the loop as the source has it: it is initialised
    to [true] and no statement of the loop assigns it. *)
Fixpoint laddrLoop (first : bool) (retPAddr : PhysicalAddr) (retLAddr : LogicalAddr)
  (exts : list t) : result LogicalAddr :=
  match exts with
  | [] => Ok retLAddr
  | ext :: exts' =>
      let offsetWithinRet := Sub (PAddr ext) retPAddr in
      let laddr := Add (LAddr ext) (wrap64 (- offsetWithinRet)) in
      if first then laddrLoop first retPAddr laddr exts'
      else if negb (laddr =? retLAddr) then Err ErrDevExtConflict
      else laddrLoop first retPAddr retLAddr exts'
  end.

Fixpoint flagsLoop (retFlags : option BlockGroupFlags) (exts : list t)
  : result (option BlockGroupFlags) :=
  match exts with
  | [] => Ok retFlags
  | ext :: exts' =>
      match Flags ext with
      | None => flagsLoop retFlags exts'
      | Some f =>
          let retFlags' := match retFlags with None => Some f | Some _ => retFlags end in
          if negb (bool_decide (retFlags' = Some f)) then Err ErrFlagsConflict
          else flagsLoop retFlags' exts'
      end
  end.

Definition union (a : t) (rest : list t) : result t :=
  (* sanity check *)
  if negb (forallb (fun ext => cmpRange a ext =? 0) rest) then Err ErrDontOverlap
  else
    let exts := a :: rest in
    let '(beg, end_) := rangeLoop exts (PAddr a, Add (PAddr a) (Size a)) in
    let retPAddr := beg in
    let retSize := Sub end_ beg in
    match lockedLoop retSize false exts with
    | Err e => Err e
    | Panic => Panic
    | Ok locked =>
        match laddrLoop true retPAddr 0 exts with
        | Err e => Err e
        | Panic => Panic
        | Ok retLAddr =>
            match flagsLoop None exts with
            | Err e => Err e
            | Panic => Panic
            | Ok flags =>
                Ok {| PAddr := retPAddr; LAddr := retLAddr; Size := retSize;
                      SizeLocked := locked; Flags := flags |}
            end
        end
    end.

End devextMapping.

(** ** [LogicalVolume] (lvm.go) *)

(** A physical volume is a [diskio.File[PhysicalAddr]], an external
    collaborator: [pvReadAt len off] is the outcome of
    [dev.ReadAt(buf, off)] with [len(buf) = len], the bytes read or
    [None] for an error. *)
Record PhysicalVolume := {
  pvReadAt : nat -> PhysicalAddr -> option (list byte)
}.

Record Mapping := {
  mLAddr : LogicalAddr;
  mPAddr : QualifiedPhysicalAddr;
  mSize : AddrDelta;
  mSizeLocked : bool;
  mFlags : option BlockGroupFlags
}.

(** The two trees are Go pointers and maps: [None] is [nil]. *)
Record LogicalVolume := {
  id2pv : gmap DeviceID PhysicalVolume;
  logical2physical : option (list chunkMapping.t);
  physical2logical : option (gmap DeviceID (list devextMapping.t))
}.

(** The zero value [LogicalVolume{}]. *)
Definition newLogicalVolume : LogicalVolume :=
  {| id2pv := ∅; logical2physical := None; physical2logical := None |}.

(** The contents of the two indexes, [nil] read as empty. *)
Definition chunks (lv : LogicalVolume) : list chunkMapping.t :=
  default [] (logical2physical lv).

Definition devexts (lv : LogicalVolume) (dev : DeviceID) : list devextMapping.t :=
  default [] (default ∅ (physical2logical lv) !! dev).

Definition init (lv : LogicalVolume) : LogicalVolume :=
  let l2p := match logical2physical lv with None => [] | Some t => t end in
  let p2l := match physical2logical lv with None => ∅ | Some mp => mp end in
  (* for devid := range lv.id2pv: add an empty tree where there is none *)
  let p2l := p2l ∪ ((fun _ => []) <$> id2pv lv) in
  {| id2pv := id2pv lv; logical2physical := Some l2p; physical2logical := Some p2l |}.

Definition AddPhysicalVolume (lv : LogicalVolume) (id : DeviceID) (dev : PhysicalVolume)
  : LogicalVolume * result unit :=
  let lv := init lv in
  match id2pv lv !! id with
  | Some _ => (lv, Err ErrAlreadyHaveVolume)
  | None =>
      ({| id2pv := <[id := dev]> (id2pv lv);
          logical2physical := logical2physical lv;
          physical2logical := Some (<[id := []]> (default ∅ (physical2logical lv))) |},
       Ok tt)
  end.

Definition ClearMappings (lv : LogicalVolume) : LogicalVolume :=
  {| id2pv := id2pv lv; logical2physical := None; physical2logical := None |}.

(** [fsck]: rebuild the dev-extent trees from the chunk tree and
    compare them with the ones kept by [addMapping]. *)
Definition fsckStripe (lv : LogicalVolume) (chunk : chunkMapping.t)
  (acc : result (gmap DeviceID (list devextMapping.t))) (stripe : QualifiedPhysicalAddr)
  : result (gmap DeviceID (list devextMapping.t)) :=
  match acc with
  | Ok p2l =>
      match id2pv lv !! Dev stripe with
      | None => Err ErrFsckNoVolume
      | Some _ =>
          let tree := default [] (p2l !! Dev stripe) in
          Ok (<[Dev stripe :=
                  RBTree.Insert devextMapping.Compare
                    {| devextMapping.PAddr := Addr stripe;
                       devextMapping.LAddr := chunkMapping.LAddr chunk;
                       devextMapping.Size := chunkMapping.Size chunk;
                       devextMapping.SizeLocked := false;
                       devextMapping.Flags := chunkMapping.Flags chunk |} tree]> p2l)
      end
  | other => other
  end.

Definition fsckScan (lv : LogicalVolume) : result (gmap DeviceID (list devextMapping.t)) :=
  fold_left (fun acc chunk => fold_left (fsckStripe lv chunk) (chunkMapping.PAddrs chunk) acc)
            (RBTree.Range (chunks lv)) (Ok ∅).

Definition fsck (lv : LogicalVolume) : result unit :=
  match fsckScan lv with
  | Err e => Err e
  | Panic => Panic
  | Ok physical2logical' =>
      let mine := default ∅ (physical2logical lv) in
      if negb (size mine =? size physical2logical')%nat then Err ErrFsckSkew
      else if negb (bool_decide
                      (map_Forall (fun devid tree => physical2logical' !! devid = Some tree) mine))
      then Err ErrFsckSkew
      else Ok tt
  end.

Section AddMapping.

(** The constant [BLOCK_GROUP_RAID_MASK] (its file is missing) and
    whether the environment variable [PARANOID] is set. *)
Variable BLOCK_GROUP_RAID_MASK : BlockGroupFlags.
Variable PARANOID : bool.

Definition addMapping (lv : LogicalVolume) (m : Mapping) (dryRun : bool)
  : LogicalVolume * result unit :=
  let lv := init lv in
  (* sanity check *)
  match id2pv lv !! Dev (mPAddr m) with
  | None => (lv, Err ErrNoPhysicalVolume)
  | Some _ =>
  (* logical2physical *)
  let newChunk := {| chunkMapping.LAddr := mLAddr m;
                     chunkMapping.PAddrs := [mPAddr m];
                     chunkMapping.Size := mSize m;
                     chunkMapping.SizeLocked := mSizeLocked m;
                     chunkMapping.Flags := mFlags m |} in
  let l2p := chunks lv in
  let logicalOverlaps := RBTree.Subrange (chunkMapping.cmpRange newChunk) l2p in
  let numOverlappingStripes :=
    fold_left (fun n chunk => (n + length (chunkMapping.PAddrs chunk))%nat)
              logicalOverlaps 0%nat in
  match chunkMapping.union newChunk logicalOverlaps with
  | Err e => (lv, Err e)
  | Panic => (lv, Panic)
  | Ok newChunk =>
  (* physical2logical *)
  let newExt := {| devextMapping.PAddr := Addr (mPAddr m);
                   devextMapping.LAddr := mLAddr m;
                   devextMapping.Size := mSize m;
                   devextMapping.SizeLocked := mSizeLocked m;
                   devextMapping.Flags := mFlags m |} in
  let devTree := devexts lv (Dev (mPAddr m)) in
  let physicalOverlaps := RBTree.Subrange (devextMapping.cmpRange newExt) devTree in
  match devextMapping.union newExt physicalOverlaps with
  | Err e => (lv, Err e)
  | Panic => (lv, Panic)
  | Ok newExt =>
  if negb (bool_decide (chunkMapping.Flags newChunk = devextMapping.Flags newExt))
  then (lv, Panic) (* "should not happen" *)
  else
  let stripesCheck : result unit :=
    if (length physicalOverlaps =? numOverlappingStripes)%nat then Ok tt (* normal case *)
    else if (length physicalOverlaps <? numOverlappingStripes)%nat then
      (* .Flags = DUP or RAID{X} *)
      match chunkMapping.Flags newChunk with
      | Some val => if Z.land val BLOCK_GROUP_RAID_MASK =? 0
                    then Err ErrMultipleStripes else Ok tt
      | None => Ok tt
      end
    else Panic (* "should not happen" *) in
  match stripesCheck with
  | Err e => (lv, Err e)
  | Panic => (lv, Panic)
  | Ok _ =>
  if dryRun then (lv, Ok tt)
  else
  (* optimize *)
  if bool_decide (logicalOverlaps = [newChunk]) && bool_decide (physicalOverlaps = [newExt])
  then (lv, Ok tt)
  else
  (* logical2physical *)
  let l2p' :=
    RBTree.Insert chunkMapping.Compare newChunk
      (fold_left (fun t chunk =>
                    RBTree.Delete chunkMapping.Compare
                      (RBTree.Search (chunkMapping.Compare chunk) t) t)
                 logicalOverlaps l2p) in
  (* physical2logical *)
  let devTree' :=
    RBTree.Insert devextMapping.Compare newExt
      (fold_left (fun t ext =>
                    RBTree.Delete devextMapping.Compare
                      (RBTree.Search (devextMapping.Compare ext) t) t)
                 physicalOverlaps devTree) in
  let lv' := {| id2pv := id2pv lv;
                logical2physical := Some l2p';
                physical2logical :=
                  Some (<[Dev (mPAddr m) := devTree']> (default ∅ (physical2logical lv))) |} in
  (* sanity check *)
  if PARANOID then
    match fsck lv' with
    | Ok _ => (lv', Ok tt)
    | other => (lv', other)
    end
  else (lv', Ok tt)
  end end end end.

(** [CouldAddMapping(m)]: whether the dry run returns no error; a
    panic of the dry run is a panic of the call. *)
Definition CouldAddMapping (lv : LogicalVolume) (m : Mapping)
  : LogicalVolume * result bool :=
  match addMapping lv m true with
  | (lv', Ok _) => (lv', Ok true)
  | (lv', Err _) => (lv', Ok false)
  | (lv', Panic) => (lv', Panic)
  end.

Definition AddMapping (lv : LogicalVolume) (m : Mapping) : LogicalVolume * result unit :=
  addMapping lv m false.

(** The calls that change the engine; a run stops at a panic. *)
Inductive Op :=
| OpAddPhysicalVolume (id : DeviceID) (dev : PhysicalVolume)
| OpAddMapping (m : Mapping)
| OpCouldAddMapping (m : Mapping)
| OpClearMappings.

Definition exec (lv : LogicalVolume) (op : Op) : option LogicalVolume :=
  match op with
  | OpAddPhysicalVolume id dev => Some (fst (AddPhysicalVolume lv id dev))
  | OpAddMapping m =>
      match AddMapping lv m with
      | (_, Panic) => None
      | (lv', _) => Some lv'
      end
  | OpCouldAddMapping m =>
      match addMapping lv m true with
      | (_, Panic) => None
      | (lv', _) => Some lv'
      end
  | OpClearMappings => Some (ClearMappings lv)
  end.

Fixpoint run (lv : LogicalVolume) (ops : list Op) : option LogicalVolume :=
  match ops with
  | [] => Some lv
  | op :: ops' =>
      match exec lv op with
      | None => None
      | Some lv' => run lv' ops'
      end
  end.

End AddMapping.

(** *** Resolve, UnResolve and ReadAt *)

#[global] Instance byte_eq_decision : EqDecision byte := byte_eq_dec.

(** [Resolve] and [UnResolve] search the trees as they are, without
    [init]; a tree that is [nil] or missing is read as empty. *)
Definition Resolve (lv : LogicalVolume) (laddr : LogicalAddr)
  : gset QualifiedPhysicalAddr * AddrDelta :=
  match RBTree.Search
          (fun chunk =>
             chunkMapping.cmpRange
               {| chunkMapping.LAddr := laddr; chunkMapping.PAddrs := [];
                  chunkMapping.Size := 1; chunkMapping.SizeLocked := false;
                  chunkMapping.Flags := None |} chunk)
          (chunks lv) with
  | None => (∅, 0)
  | Some chunk =>
      let offsetWithinChunk := Sub laddr (chunkMapping.LAddr chunk) in
      let maxlen := wrap64 (chunkMapping.Size chunk - offsetWithinChunk) in
      (list_to_set (map (fun stripe => QAdd stripe offsetWithinChunk)
                        (chunkMapping.PAddrs chunk)),
       maxlen)
  end.


(** [dat = dat[:maxlen]] when the buffer is longer than [maxlen]. *)
Definition covered (dat : list byte) (maxlen : AddrDelta) : list byte :=
  if Z.of_nat (length dat) >? maxlen then take (Z.to_nat maxlen) dat else dat.

(** The loop [for paddr := range paddrs] of [maybeShortReadAt].  A Go
    map is ranged over in an unspecified order: [order] is the order
    this run takes.  [dat] holds the bytes of the caller's buffer, of
    length [n]; [buf] aliases it for the first stripe and is a fresh
    buffer of the same length for the later ones. *)
Fixpoint readStripes (lv : LogicalVolume) (n : nat) (first : bool) (dat : list byte)
  (order : list QualifiedPhysicalAddr) : result (list byte) :=
  match order with
  | [] => Ok dat
  | paddr :: order' =>
      match id2pv lv !! Dev paddr with
      | None => Err ErrNoDevice
      | Some dev =>
          match pvReadAt dev n (Addr paddr) with
          | None => Err ErrIO
          | Some buf =>
              if first then readStripes lv n false buf order'
              else if negb (bool_decide (dat = buf)) then Err ErrInconsistentStripes
              else readStripes lv n false dat order'
          end
      end
  end.

(** [maybeShortReadAt(dat, laddr)]: on success the bytes now in [dat],
    whose number is the [n] the source returns. *)
Definition maybeShortReadAt (lv : LogicalVolume) (order : list QualifiedPhysicalAddr)
  (dat : list byte) (laddr : LogicalAddr) : result (list byte) :=
  let '(paddrs, maxlen) := Resolve lv laddr in
  if (size paddrs =? 0)%nat then Err ErrCouldNotMap
  else if (Z.of_nat (length dat) >? maxlen) && (maxlen <? 0)
  then Panic (* dat[:maxlen] out of range *)
  else
    let dat := covered dat maxlen in
    readStripes lv (length dat) true dat order.

(** [ReadAt(dat, laddr)]: the loop [for done < len(dat)], [dat] being
    the part of the buffer not yet read and [laddr] the address of its
    first byte; [iter] gives the order each [range] takes.  The fuel
    bounds the number of short reads. *)
Fixpoint ReadAt (fuel : nat) (lv : LogicalVolume)
  (iter : LogicalAddr -> list QualifiedPhysicalAddr)
  (dat : list byte) (laddr : LogicalAddr) : result (list byte) :=
  match dat with
  | [] => Ok []
  | _ :: _ =>
      match fuel with
      | O => Panic
      | S fuel' =>
          match maybeShortReadAt lv (iter laddr) dat laddr with
          | Ok got =>
              match ReadAt fuel' lv iter (drop (length got) dat)
                           (wrap64 (laddr + Z.of_nat (length got))) with
              | Ok rest => Ok (got ++ rest)
              | other => other
              end
          | other => other
          end
      end
  end.

(** ** Keys and the node graph (packages btrfsprim, graph, keyio) *)

Record Key := mkKey { ObjectID : ObjID; ItemType : Z; Offset : Z }.

#[global] Instance Key_eq_dec : EqDecision Key.
Proof. solve_decision. Defined.

#[global] Instance Key_countable : Countable Key.
Proof.
  refine (inj_countable' (fun k => (ObjectID k, ItemType k, Offset k))
                         (fun p => mkKey p.1.1 p.1.2 p.2) _).
  by intros [].
Defined.

(** [maps.SortedKeys] on addresses. *)
Definition SortedKeys (s : gset LogicalAddr) : list LogicalAddr :=
  merge_sort Z.le (elements s).

Module pkggraph.

(** Modelled from the spec: the package graph is missing; section 3
    gives a vertex as (level, generation, owner, items_keys[]) and
    the reverse adjacency list of keypointers.  Only the fields that
    tree.go reads are declared; a lookup of an absent vertex is the
    zero value, as for a Go map of structs. *)
Record Node := {
  Level : Z;
  Generation : Z;
  Owner : ObjID;
  Items : list Key
}.

Record Edge := {
  FromNode : LogicalAddr;
  ToNode : LogicalAddr
}.

Record Graph := {
  Nodes : gmap LogicalAddr Node;
  EdgesTo : gmap LogicalAddr (list Edge)
}.

Definition zeroNode : Node :=
  {| Level := 0; Generation := 0; Owner := 0; Items := [] |}.

(** [graph.Nodes[addr]] *)
Definition node (g : Graph) (addr : LogicalAddr) : Node :=
  default zeroNode (Nodes g !! addr).

End pkggraph.

(** [keyio.ItemPtr] *)
Record ItemPtr := { Node : LogicalAddr; Idx : nat }.

#[global] Instance ItemPtr_eq_dec : EqDecision ItemPtr.
Proof. solve_decision. Defined.

(** ** [RebuiltTree] (btrees/tree.go) *)

Module btrees.

(** The static fields that the methods read ([UUID], [forrest] and the
    mutex are left out) and the two mutable sets.  [Parent] is a Go
    pointer to another tree; the chain of parents the forrest builds
    is finite. *)
#[warnings="-register-all"]
Inductive RebuiltTree := mkTree {
  ID : ObjID;
  Parent : option RebuiltTree;
  ParentGen : Generation;
  Roots : gset LogicalAddr;
  Leafs : gset LogicalAddr
}.

(** isOwnerOK returns whether it is permissible for a node with
    .Head.Owner=owner to be in this tree. *)
Fixpoint isOwnerOK (tree : RebuiltTree) (owner : ObjID) (gen : Generation) : bool :=
  match tree with
  | mkTree id parent parentGen _ _ =>
      if owner =? id then true
      else match parent with
           | None => false
           | Some parent' =>
               if gen >=? parentGen then false
               else isOwnerOK parent' owner gen
           end
  end.

(** COWDistance returns how many COW-snapshots down the 'tree' is from
    the 'parent'. *)
Fixpoint COWDistance_loop (tree : RebuiltTree) (parentID : ObjID) (dist : Z) : Z * bool :=
  match tree with
  | mkTree id parent _ _ _ =>
      if parentID =? id then (dist, true)
      else match parent with
           | None => (0, false)
           | Some parent' => COWDistance_loop parent' parentID (dist + 1)
           end
  end.

Definition COWDistance (tree : RebuiltTree) (parentID : ObjID) : Z * bool :=
  COWDistance_loop tree parentID 0.

Section WithGraph.
Variable g : pkggraph.Graph.

Definition nodeOwnerOK (tree : RebuiltTree) (addr : LogicalAddr) : bool :=
  isOwnerOK tree (pkggraph.Owner (pkggraph.node g addr))
                 (pkggraph.Generation (pkggraph.node g addr)).

(** [indexNode]; [None] is the [panic("loop")] (or the fuel of the
    embedding running out); the context is never cancelled.  A
    [nil] set and an empty set are the same [∅]. *)
Fixpoint indexNode (fuel : nat) (tree : RebuiltTree) (node : LogicalAddr)
  (index : gmap LogicalAddr (gset LogicalAddr)) (stack : list LogicalAddr)
  : option (gmap LogicalAddr (gset LogicalAddr)) :=
  match fuel with
  | O => None
  | S fuel' =>
      if bool_decide (is_Some (index !! node)) then Some index
      else if bool_decide (node ∈ stack) then None
      else if negb (nodeOwnerOK tree node) then Some (<[node := ∅]> index)
      else
        let stack := stack ++ [node] in
        let kps := filter (fun kp => nodeOwnerOK tree (pkggraph.FromNode kp) = true)
                          (default [] (pkggraph.EdgesTo g !! node)) in
        let step (acc : option (gmap LogicalAddr (gset LogicalAddr) * option (gset LogicalAddr)))
                 (kp : pkggraph.Edge) :=
          match acc with
          | None => None
          | Some (index, roots) =>
              match indexNode fuel' tree (pkggraph.FromNode kp) index stack with
              | None => None
              | Some index' =>
                  let from := default ∅ (index' !! pkggraph.FromNode kp) in
                  if (0 <? size from)%nat
                  then Some (index', Some (default ∅ roots ∪ from))
                  else Some (index', roots)
              end
          end in
        match fold_left step kps (Some (index, None)) with
        | None => None
        | Some (index, roots) =>
            let roots := match roots with None => {[node]} | Some r => r end in
            Some (<[node := roots]> index)
        end
  end.

(** The nodes that keypointers come from.  Below its first entry the
    stack of [indexNode] holds such nodes only, without repetition, so
    the recursion is no deeper than their number plus one; [indexFuel]
    is more than that. *)
Definition fromNodes : gset LogicalAddr :=
  map_fold (fun _ kps acc => list_to_set (map pkggraph.FromNode kps) ∪ acc)
           ∅ (pkggraph.EdgesTo g).

Definition indexFuel : nat := S (S (size fromNodes)).

(** leafToRoots returns all leafs (lvl=0) in the filesystem that pass
    .isOwnerOK, whether or not they're in the tree.  (The forrest
    caches the result per tree id; it depends on the graph and the
    static fields only.) *)
Definition leafToRootsFuel (fuel : nat) (tree : RebuiltTree)
  : option (gmap LogicalAddr (gset LogicalAddr)) :=
  let nodeToRoots :=
    fold_left (fun acc node =>
                 match acc with
                 | None => None
                 | Some index => indexNode fuel tree node index []
                 end)
              (SortedKeys (dom (pkggraph.Nodes g))) (Some ∅) in
  match nodeToRoots with
  | None => None
  | Some nodeToRoots =>
      Some (filter (fun '(node, roots) =>
                      pkggraph.Level (pkggraph.node g node) = 0 ∧ (0 < size roots)%nat)
                   nodeToRoots)
  end.

Definition leafToRoots (tree : RebuiltTree)
  : option (gmap LogicalAddr (gset LogicalAddr)) :=
  leafToRootsFuel indexFuel tree.

(** One call [cbAddedItem(ctx, tree.ID, itemKey)]; [aiLeaf] is a
    ghost field recording the leaf whose items are being announced. *)
Record AddedItem := { aiLeaf : LogicalAddr; aiTree : ObjID; aiKey : Key }.

Definition setRoots (tree : RebuiltTree) (roots : gset LogicalAddr) : RebuiltTree :=
  mkTree (ID tree) (Parent tree) (ParentGen tree) roots (Leafs tree).

Definition setLeafs (tree : RebuiltTree) (leafs : gset LogicalAddr) : RebuiltTree :=
  mkTree (ID tree) (Parent tree) (ParentGen tree) (Roots tree) leafs.

(** The body of the loop of [AddRoot] over the sorted leafs. *)
Definition addRootStep (treeID : ObjID) (rootNode : LogicalAddr)
  (leafToRoots : gmap LogicalAddr (gset LogicalAddr))
  (st : gset LogicalAddr * list AddedItem) (leaf : LogicalAddr)
  : gset LogicalAddr * list AddedItem :=
  let '(leafs, cbs) := st in
  if bool_decide (leaf ∈ leafs)
     || negb (bool_decide (rootNode ∈ default ∅ (leafToRoots !! leaf)))
  then (leafs, cbs)
  else ({[leaf]} ∪ leafs,
        cbs ++ map (fun itemKey => {| aiLeaf := leaf; aiTree := treeID; aiKey := itemKey |})
                   (pkggraph.Items (pkggraph.node g leaf))).

(** AddRoot adds an additional root node to the tree: the tree after
    the call and the callbacks it made, in order. *)
Definition AddRoot (tree : RebuiltTree) (rootNode : LogicalAddr)
  : option (RebuiltTree * list AddedItem) :=
  let tree := setRoots tree ({[rootNode]} ∪ Roots tree) in
  match leafToRoots tree with
  | None => None
  | Some leafToRoots =>
      let '(leafs, cbs) :=
        fold_left (addRootStep (ID tree) rootNode leafToRoots)
                  (SortedKeys (dom leafToRoots)) (Leafs tree, []) in
      Some (setLeafs tree leafs, cbs)
  end.

(** [None] is the panic "dup nodes in tree". *)
Definition shouldReplace (tree : RebuiltTree) (oldNode newNode : LogicalAddr)
  : option bool :=
  let oldDist := fst (COWDistance tree (pkggraph.Owner (pkggraph.node g oldNode))) in
  let newDist := fst (COWDistance tree (pkggraph.Owner (pkggraph.node g newNode))) in
  if newDist <? oldDist then Some true
  else if newDist >? oldDist then Some false
  else
    let oldGen := pkggraph.Generation (pkggraph.node g oldNode) in
    let newGen := pkggraph.Generation (pkggraph.node g newNode) in
    if newGen >? oldGen then Some true
    else if newGen <? oldGen then Some false
    else None.

Record itemIndex := {
  NumDups : nat;
  ixLeafs : gset LogicalAddr;
  ixItems : gmap Key ItemPtr
}.

Definition newItemIndex : itemIndex :=
  {| NumDups := 0; ixLeafs := ∅; ixItems := ∅ |}.

(** The inner loop of [items] over the keys of one leaf, [j] being
    the slot of the first of [keys]. *)
Fixpoint itemsLeaf (tree : RebuiltTree) (leaf : LogicalAddr) (j : nat)
  (keys : list Key) (index : itemIndex) : option itemIndex :=
  match keys with
  | [] => Some index
  | itemKey :: keys' =>
      let newPtr := {| Node := leaf; Idx := j |} in
      match ixItems index !! itemKey with
      | None =>
          itemsLeaf tree leaf (S j) keys'
            {| NumDups := NumDups index; ixLeafs := ixLeafs index;
               ixItems := <[itemKey := newPtr]> (ixItems index) |}
      | Some oldPtr =>
          match shouldReplace tree (Node oldPtr) (Node newPtr) with
          | None => None
          | Some replace =>
              itemsLeaf tree leaf (S j) keys'
                {| NumDups := S (NumDups index); ixLeafs := ixLeafs index;
                   ixItems := if replace then <[itemKey := newPtr]> (ixItems index)
                              else ixItems index |}
          end
      end
  end.

Definition itemsStep (tree : RebuiltTree) (acc : option itemIndex) (leaf : LogicalAddr)
  : option itemIndex :=
  match acc with
  | None => None
  | Some index =>
      if bool_decide (leaf ∈ ixLeafs index) then Some index
      else itemsLeaf tree leaf 0 (pkggraph.Items (pkggraph.node g leaf))
             {| NumDups := NumDups index; ixLeafs := {[leaf]} ∪ ixLeafs index;
                ixItems := ixItems index |}
  end.

(** [items(ctx, cache, leafs)]: [cache] is the entry of the LRU
    cache for this tree, [None] when there is none (never filled, or
    evicted); the result is the index the entry then points to, its
    [ixItems] being the map returned. *)
Definition items (tree : RebuiltTree) (cache : option itemIndex)
  (leafs : list LogicalAddr) : option itemIndex :=
  fold_left (itemsStep tree) leafs (Some (default newItemIndex cache)).

(** Items returns a map of the items contained in this tree. *)
Definition Items (tree : RebuiltTree) (incItems : option itemIndex)
  : option itemIndex :=
  items tree incItems (SortedKeys (Leafs tree)).

(** PotentialItems returns a map of items that could be added to this
    tree with .AddRoot(). *)
Definition PotentialItems (tree : RebuiltTree) (allItems : option itemIndex)
  : option itemIndex :=
  match leafToRoots tree with
  | None => None
  | Some leafToRoots => items tree allItems (SortedKeys (dom leafToRoots))
  end.

End WithGraph.

End btrees.

(** ** [oldRebuiltTree.TreeCheckOwner] (btrfsutil/old_rebuilt_forrest.go) *)

Module btrfsutil.

Definition UUID := Z.
Definition UUID_TREE_OBJECTID : ObjID := 9.

(** The fields of the handle that [TreeCheckOwner] reads; [RootErr]
    tells whether the member is non-nil. *)
Record oldRebuiltTree := {
  ID : ObjID;
  ParentUUID : UUID;
  ParentGen : Generation;
  RootErr : bool
}.

(** What [uuidTree.treeLookup(ctx, btrfsitem.UUIDToKey(uuid))] gives:
    an error, an item whose body is a [UUIDMap], or one whose body is
    a [btrfsitem.Error]. *)
Inductive uuidLookup :=
| LookupErr
| LookupUUIDMap (objID : ObjID)
| LookupBodyError.

(** The forrest as [TreeCheckOwner] sees it: the handle that
    [RebuiltTree(ctx, id)] returns for each id, and the lookups in the
    UUID tree. *)
Record OldRebuiltForrest := {
  RebuiltTree : ObjID -> oldRebuiltTree;
  treeLookupUUID : UUID -> uuidLookup
}.

(** The [for] loop, one iteration per unit of fuel; [None] when the
    chain of parents is longer than the fuel. *)
Fixpoint TreeCheckOwner (fuel : nat) (forrest : OldRebuiltForrest) (tree : oldRebuiltTree)
  (failOpen : bool) (owner : ObjID) (gen : Generation) : option (result unit) :=
  match fuel with
  | O => None
  | S fuel' =>
      (* Main. *)
      if owner =? ID tree then Some (Ok tt)
      else if ParentUUID tree =? 0 then Some (Err ErrOwnerNotAcceptable)
      else if gen >? ParentGen tree then Some (Err ErrOwnerGeneration)
      else
        (* Loop update. *)
        let uuidTree := RebuiltTree forrest UUID_TREE_OBJECTID in
        if RootErr uuidTree then Some (Ok tt) (* fail open *)
        else
          match treeLookupUUID forrest (ParentUUID tree) with
          | LookupErr =>
              if failOpen then Some (Ok tt) else Some (Err ErrOwnerUndetermined)
          | LookupUUIDMap objID =>
              let tree' := RebuiltTree forrest objID in
              if RootErr tree' then
                if failOpen then Some (Ok tt) else Some (Err ErrOwnerUndetermined)
              else TreeCheckOwner fuel' forrest tree' failOpen owner gen
          | LookupBodyError =>
              if failOpen then Some (Ok tt) else Some (Err ErrOwnerUndetermined)
          end
  end.

End btrfsutil.

(** * Properties *)

(** ** Arithmetic on [int64] *)

Lemma wrap64_range z : is_int64 (wrap64 z).
Proof.
  unfold is_int64, wrap64, MinInt64, MaxInt64.
  pose proof (Z.mod_pos_bound (z + 2 ^ 63) (2 ^ 64) ltac:(lia)). lia.
Qed.

Lemma wrap64_id z : is_int64 z -> wrap64 z = z.
Proof.
  unfold is_int64, wrap64, MinInt64, MaxInt64. intros H.
  rewrite Z.mod_small; lia.
Qed.

Lemma wrap64_add_wrap a b : wrap64 (a + wrap64 b) = wrap64 (a + b).
Proof.
  unfold wrap64.
  replace (a + ((b + 2 ^ 63) mod 2 ^ 64 - 2 ^ 63) + 2 ^ 63)
    with (a + (b + 2 ^ 63) mod 2 ^ 64) by lia.
  rewrite Zplus_mod_idemp_r. f_equal. f_equal. lia.
Qed.

Lemma Add_Sub_cancel (b e : Z) : is_int64 e -> Add b (Sub e b) = e.
Proof.
  intros He. unfold Add, Sub. rewrite wrap64_add_wrap.
  replace (b + (e - b)) with e by lia. by apply wrap64_id.
Qed.

(** ** The owner-OK test *)

Module OwnerOK.
Import btrees.

(** The proper ancestors of a tree, nearest first. *)
Fixpoint ancestors (tree : RebuiltTree) : list RebuiltTree :=
  match tree with
  | mkTree _ parent _ _ _ =>
      match parent with
      | None => []
      | Some parent' => parent' :: ancestors parent'
      end
  end.

(** The test as the specification words it: the owner is the tree
    itself, or some proper ancestor has that id and the generation is
    at most the parent generation. *)
Definition OwnerOK_spec (tree : RebuiltTree) (owner : ObjID) (gen : Generation) : Prop :=
  owner = ID tree ∨
  ∃ a, a ∈ ancestors tree ∧ ID a = owner ∧ gen <= ParentGen a.

(** A snapshot 257 of a snapshot 256 of the tree 5, both taken at
    generation 10: the parent generation is 10 whether it is read off
    the tree 257 or off its ancestor 256. *)
Definition tree5 : RebuiltTree := mkTree 5 None 0 ∅ ∅.
Definition tree256 : RebuiltTree := mkTree 256 (Some tree5) 10 ∅ ∅.
Definition tree257 : RebuiltTree := mkTree 257 (Some tree256) 10 ∅ ∅.

(** The same three trees behind the old rebuilt forrest. *)
Definition oldForrest : btrfsutil.OldRebuiltForrest :=
  {| btrfsutil.RebuiltTree := fun id =>
       if id =? 257 then {| btrfsutil.ID := 257; btrfsutil.ParentUUID := 256;
                            btrfsutil.ParentGen := 10; btrfsutil.RootErr := false |}
       else if id =? 256 then {| btrfsutil.ID := 256; btrfsutil.ParentUUID := 5;
                                 btrfsutil.ParentGen := 10; btrfsutil.RootErr := false |}
       else {| btrfsutil.ID := id; btrfsutil.ParentUUID := 0;
               btrfsutil.ParentGen := 0; btrfsutil.RootErr := false |};
     btrfsutil.treeLookupUUID := fun uuid => btrfsutil.LookupUUIDMap uuid |}.

(** The test is one unfolding of the loop. *)
Lemma isOwnerOK_unfold tree owner gen :
  isOwnerOK tree owner gen = true <->
  owner = ID tree ∨
  ∃ parent, Parent tree = Some parent ∧ gen < ParentGen tree
            ∧ isOwnerOK parent owner gen = true.
Proof.
  destruct tree as [id parent pgen roots leafs]; simpl.
  destruct (Z.eqb_spec owner id) as [->|Hne].
  - split; auto.
  - destruct parent as [p|].
    + destruct (Z.geb_spec gen pgen) as [Hge|Hlt].
      * split; [discriminate|]. intros [?|(p' & Hp & Hlt & _)]; [done|lia].
      * split.
        -- intros H. right. exists p. repeat split; auto.
        -- intros [?|(p' & Hp & _ & H)]; [done|]. by inversion Hp; subst.
    + split; [discriminate|]. intros [?|(p' & Hp & _)]; done.
Qed.

(** C1 (the code departs from the claim): with [gen] exactly the
    parent generation, the specification's test accepts owner 256 in
    tree 257 and [TreeCheckOwner] accepts it too, while [isOwnerOK]
    rejects it. *)
Theorem isOwnerOK_rejects_boundary_generation :
  OwnerOK_spec tree257 256 10
  ∧ btrfsutil.TreeCheckOwner 3 oldForrest (btrfsutil.RebuiltTree oldForrest 257)
      false 256 10 = Some (Ok tt)
  ∧ isOwnerOK tree257 256 10 = false
  ∧ isOwnerOK tree257 256 9 = true.
Proof.
  repeat split; try reflexivity.
  right. exists tree256. repeat split; try (simpl; lia).
  simpl. apply list_elem_of_here.
Qed.

End OwnerOK.

(** ** Ranges kept in a tree

    What the two indexes have in common: values with a start and an end
    (the end as the source computes it), ordered by their start, and
    merged into the smallest range around the new value and the values
    it overlaps. *)

Section Ranges.
Context {T : Type} (start stop : T -> Z).

Definition inside (x : Z) (a : T) : Prop := start a <= x < stop a.

Definition disjoint (a b : T) : Prop := ∀ x, ¬ (inside x a ∧ inside x b).

Definition cmpR (a b : T) : Z :=
  if stop a <=? start b then -1 else if stop b <=? start a then 1 else 0.

Definition cmpKey (a b : T) : Z :=
  if start a <? start b then -1 else if start b <? start a then 1 else 0.

Definition hull (items : list T) (beg_end : Z * Z) : Z * Z :=
  fold_left (fun '(beg, end_) c => (Min beg (start c), Max end_ (stop c))) items beg_end.

(** The invariant of an index: keys are unique and ranges are pairwise
    disjoint. *)
Definition index_ok (t : list T) : Prop :=
  NoDup (map start t) ∧ ∀ a b, a ∈ t -> b ∈ t -> a ≠ b -> disjoint a b.

Lemma cmpR_0 a b : cmpR a b = 0 <-> ¬ (stop a <= start b) ∧ ¬ (stop b <= start a).
Proof.
  unfold cmpR.
  destruct (Z.leb_spec (stop a) (start b)); [split; [discriminate | lia]|].
  destruct (Z.leb_spec (stop b) (start a)); [split; [discriminate | lia]|].
  split; [lia | done].
Qed.

Lemma cmpKey_0 a b : cmpKey a b = 0 <-> start a = start b.
Proof.
  unfold cmpKey.
  destruct (Z.ltb_spec (start a) (start b)); [split; [discriminate | lia]|].
  destruct (Z.ltb_spec (start b) (start a)); [split; [discriminate | lia]|].
  split; [lia | done].
Qed.

Lemma inside_both_overlap x a b : inside x a -> inside x b -> cmpR a b = 0.
Proof. unfold inside. intros. apply cmpR_0. lia. Qed.

Lemma Min_spec a b : Min a b = Z.min a b.
Proof. unfold Min. destruct (Z.ltb_spec a b); lia. Qed.

Lemma Max_spec a b : Max a b = Z.max a b.
Proof. unfold Max, Z.gtb. destruct (Z.compare_spec a b); lia. Qed.

(** Every point of the hull of [a] and of values that overlap [a] lies
    inside [a] or inside one of them. *)
Lemma hull_covered (a : T) (items : list T) :
  ∀ beg end_ beg' end', 
    hull items (beg, end_) = (beg', end') ->
    beg <= start a -> stop a <= end_ ->
    (∀ c, c ∈ items -> cmpR a c = 0) ->
    beg' <= start a ∧ stop a <= end' ∧
    ∀ x, beg' <= x < end' -> beg <= x < end_ ∨ ∃ c, c ∈ items ∧ inside x c.
Proof.
  induction items as [|c items IH]; intros beg end_ beg' end' Hh Hb He Hov.
  - simpl in Hh. inversion Hh; subst. repeat split; auto.
  - simpl in Hh.
    assert (Hc : cmpR a c = 0) by (apply Hov; left).
    apply cmpR_0 in Hc.
    rewrite Min_spec, Max_spec in Hh.
    destruct (IH _ _ _ _ Hh) as (Hb' & He' & Hcov); [lia | lia | |].
    { intros c' Hc'. apply Hov. by right. }
    repeat split; auto.
    intros x Hx. destruct (Hcov x Hx) as [Hin | (c' & Hc' & Hin)].
    + destruct (decide (beg <= x < end_)) as [|Hout]; [by left|].
      right. exists c. split; [left|]. unfold inside. lia.
    + right. exists c'. split; [by right | done].
Qed.

(** *** The tree operations on an index *)

Lemma Search_key_Some (c v : T) (t : list T) :
  RBTree.Search (cmpKey c) t = Some v -> v ∈ t ∧ start v = start c.
Proof.
  unfold RBTree.Search. intros H. apply find_some in H as [Hin Heq].
  split; [by apply list_elem_of_In|].
  apply Z.eqb_eq, cmpKey_0 in Heq. done.
Qed.

Lemma Search_key_None (c : T) (t : list T) :
  RBTree.Search (cmpKey c) t = None -> ∀ v, v ∈ t -> start v ≠ start c.
Proof.
  unfold RBTree.Search. intros H v Hin Heq.
  apply list_elem_of_In in Hin.
  pose proof (find_none _ _ H v Hin) as Hf. simpl in Hf.
  apply Z.eqb_neq in Hf. apply Hf, cmpKey_0. done.
Qed.

Lemma elem_of_deleteKey (c x : T) (t : list T) :
  NoDup (map start t) ->
  x ∈ RBTree.deleteKey cmpKey c t <-> x ∈ t ∧ start x ≠ start c.
Proof.
  induction t as [|v t IH]; simpl; intros Hnd.
  - split; [by intros ?%elem_of_nil | by intros [?%elem_of_nil _]].
  - apply NoDup_cons in Hnd as [Hv Hnd].
    destruct (Z.eqb_spec (cmpKey c v) 0) as [Heq|Hne].
    + apply cmpKey_0 in Heq. split.
      * intros Hx. split; [by right|]. intros Hxc. apply Hv.
        rewrite <- Heq, <- Hxc. apply list_elem_of_fmap. by exists x.
      * intros [Hx Hxc]. apply elem_of_cons in Hx as [->|Hx]; [congruence | done].
    + rewrite elem_of_cons, IH, elem_of_cons by done. split.
      * intros [->|[Hx Hxc]]; [|by auto]. split; [by left|].
        intros Heq. apply Hne, cmpKey_0. done.
      * intros [[->|Hx] Hxc]; auto.
Qed.

Lemma deleteKey_sublist (c : T) (t : list T) : sublist (RBTree.deleteKey cmpKey c t) t.
Proof.
  induction t as [|v t IH]; simpl; [done|].
  destruct (cmpKey c v =? 0); [by apply sublist_cons | by apply sublist_skip].
Qed.

Definition deleteAll (overlaps t : list T) : list T :=
  fold_left (fun t c => RBTree.Delete cmpKey (RBTree.Search (cmpKey c) t) t) overlaps t.

Lemma Delete_Search_sublist (c : T) (t : list T) :
  sublist (RBTree.Delete cmpKey (RBTree.Search (cmpKey c) t) t) t.
Proof.
  destruct (RBTree.Search (cmpKey c) t); simpl; [apply deleteKey_sublist | done].
Qed.

Lemma elem_of_Delete_Search (c x : T) (t : list T) :
  NoDup (map start t) ->
  x ∈ RBTree.Delete cmpKey (RBTree.Search (cmpKey c) t) t <-> x ∈ t ∧ start x ≠ start c.
Proof.
  intros Hnd. destruct (RBTree.Search (cmpKey c) t) as [v|] eqn:Hs; simpl.
  - apply Search_key_Some in Hs as [_ Hv]. rewrite elem_of_deleteKey by done.
    by rewrite Hv.
  - split; [|by intros []]. intros Hx. split; [done|].
    by eapply Search_key_None.
Qed.

Lemma NoDup_keys_sublist (s t : list T) :
  sublist s t -> NoDup (map start t) -> NoDup (map start s).
Proof. intros Hs Hnd. pose proof (fmap_sublist start _ _ Hs) as Hm. exact (sublist_NoDup _ _ Hnd Hm). Qed.

Lemma deleteAll_spec (overlaps t : list T) :
  NoDup (map start t) ->
  sublist (deleteAll overlaps t) t ∧
  ∀ x, x ∈ deleteAll overlaps t <-> x ∈ t ∧ ∀ c, c ∈ overlaps -> start x ≠ start c.
Proof.
  unfold deleteAll. revert t.
  induction overlaps as [|c overlaps IH]; intros t Hnd; simpl.
  - split; [done|]. intros x. split; [|by intros []].
    intros Hx. split; [done|]. by intros c ?%elem_of_nil.
  - pose proof (Delete_Search_sublist c t) as Hsub.
    destruct (IH _ (NoDup_keys_sublist _ _ Hsub Hnd)) as [Hsub' Hel].
    split; [by etrans|].
    intros x. rewrite Hel, elem_of_Delete_Search by done. split.
    + intros [[Hx Hxc] Hall]. split; [done|].
      intros c' [->|Hc']%elem_of_cons; auto.
    + intros [Hx Hall]. repeat split; auto.
      * apply Hall. by left.
      * intros c' Hc'. apply Hall. by right.
Qed.

Lemma elem_of_insertOrdered (u x : T) (t : list T) :
  x ∈ RBTree.insertOrdered cmpKey u t <-> x = u ∨ x ∈ t.
Proof.
  induction t as [|v t IH]; simpl.
  - rewrite list_elem_of_singleton. split; [by left | intros [|?%elem_of_nil]; done].
  - destruct (cmpKey u v <? 0).
    + by rewrite elem_of_cons.
    + rewrite !elem_of_cons, IH. tauto.
Qed.

Lemma insertOrdered_keys (u : T) (t : list T) :
  map start (RBTree.insertOrdered cmpKey u t) ≡ₚ start u :: map start t.
Proof.
  induction t as [|v t IH]; simpl; [done|].
  destruct (cmpKey u v <? 0); simpl; [done|].
  rewrite IH. apply Permutation_swap.
Qed.

Lemma Insert_spec (u : T) (t : list T) :
  NoDup (map start t) ->
  NoDup (map start (RBTree.Insert cmpKey u t)) ∧
  ∀ x, x ∈ RBTree.Insert cmpKey u t -> x = u ∨ x ∈ t.
Proof.
  intros Hnd. unfold RBTree.Insert.
  destruct (RBTree.Search (cmpKey u) t) as [v|] eqn:Hs.
  - split; [done | by right].
  - split.
    + rewrite insertOrdered_keys. apply NoDup_cons. split; [|done].
      intros (v & Hv & Hin)%list_elem_of_fmap.
      by eapply Search_key_None.
    + intros x. by rewrite elem_of_insertOrdered.
Qed.

(** Replacing the values that a new value [a] overlaps by one value
    [u] that spans the hull keeps the index well-formed. *)
Lemma index_ok_merge (a u : T) (t : list T) :
  index_ok t ->
  (start u, stop u) =
    hull (a :: RBTree.Subrange (cmpR a) t) (start a, stop a) ->
  index_ok (RBTree.Insert cmpKey u (deleteAll (RBTree.Subrange (cmpR a) t) t)).
Proof.
  intros [Hnd Hdis] Hu.
  set (ov := RBTree.Subrange (cmpR a) t) in *.
  assert (Hov : ∀ c, c ∈ ov <-> c ∈ t ∧ cmpR a c = 0).
  { intros c. unfold ov, RBTree.Subrange. rewrite list_elem_of_filter. tauto. }
  destruct (deleteAll_spec ov t Hnd) as [Hsub Hel].
  pose proof (NoDup_keys_sublist _ _ Hsub Hnd) as Hnd'.
  destruct (Insert_spec u _ Hnd') as [Hnd'' Hins].
  split; [done|].
  assert (Hrest : ∀ x, x ∈ deleteAll ov t -> x ∈ t ∧ cmpR a x ≠ 0).
  { intros x [Hx Hall]%Hel. split; [done|]. intros H0.
    apply (Hall x); [|done]. apply Hov. done. }
  assert (Hux : ∀ x, x ∈ deleteAll ov t -> disjoint u x).
  { intros x Hx y [Hyu Hyx]. destruct (Hrest x Hx) as [Hxt Hax].
    symmetry in Hu. simpl in Hu.
    replace (Min (start a) (start a)) with (start a) in Hu
      by (rewrite Min_spec; lia).
    replace (Max (stop a) (stop a)) with (stop a) in Hu
      by (rewrite Max_spec; lia).
    destruct (hull_covered a ov _ _ _ _ Hu) as (_ & _ & Hcov); [lia | lia | |].
    { intros c Hc. by apply Hov. }
    destruct (Hcov y Hyu) as [Hya | (c & Hc & Hyc)].
    - apply Hax. by apply (inside_both_overlap y).
    - apply Hov in Hc as Hc'. destruct Hc' as [Hct Hac].
      assert (Hne : c ≠ x) by (intros ->; done).
      exact (Hdis c x Hct Hxt Hne y (conj Hyc Hyx)). }
  intros x y Hx Hy Hne.
  apply Hins in Hx as [->|Hx]; apply Hins in Hy as [->|Hy]; try done.
  - by apply Hux.
  - intros z [? ?]. by apply (Hux x Hx z).
  - apply Hdis; [apply Hrest, Hx | apply Hrest, Hy | done].
Qed.

End Ranges.

(** ** The invariants of the mapping engine *)

Definition chunkStop (c : chunkMapping.t) : Z :=
  Add (chunkMapping.LAddr c) (chunkMapping.Size c).

Definition devextStop (e : devextMapping.t) : Z :=
  Add (devextMapping.PAddr e) (devextMapping.Size e).


Definition chunks_ok (lv : LogicalVolume) : Prop :=
  index_ok chunkMapping.LAddr chunkStop (chunks lv).

Definition devexts_ok (lv : LogicalVolume) : Prop :=
  ∀ dev, index_ok devextMapping.PAddr devextStop (devexts lv dev).

(** The candidate chunk and dev-extent that [addMapping] forms. *)
Definition chunkOf (m : Mapping) : chunkMapping.t :=
  {| chunkMapping.LAddr := mLAddr m; chunkMapping.PAddrs := [mPAddr m];
     chunkMapping.Size := mSize m; chunkMapping.SizeLocked := mSizeLocked m;
     chunkMapping.Flags := mFlags m |}.

Definition devextOf (m : Mapping) : devextMapping.t :=
  {| devextMapping.PAddr := Addr (mPAddr m); devextMapping.LAddr := mLAddr m;
     devextMapping.Size := mSize m; devextMapping.SizeLocked := mSizeLocked m;
     devextMapping.Flags := mFlags m |}.

(** The state [addMapping] writes when it gets that far. *)
Definition applied (lv : LogicalVolume) (m : Mapping)
  (newChunk : chunkMapping.t) (newExt : devextMapping.t) : LogicalVolume :=
  let lv := init lv in
  {| id2pv := id2pv lv;
     logical2physical :=
       Some (RBTree.Insert chunkMapping.Compare newChunk
               (deleteAll chunkMapping.LAddr
                  (RBTree.Subrange (chunkMapping.cmpRange (chunkOf m)) (chunks lv))
                  (chunks lv)));
     physical2logical :=
       Some (<[Dev (mPAddr m) :=
                 RBTree.Insert devextMapping.Compare newExt
                   (deleteAll devextMapping.PAddr
                      (RBTree.Subrange (devextMapping.cmpRange (devextOf m))
                                       (devexts lv (Dev (mPAddr m))))
                      (devexts lv (Dev (mPAddr m))))]>
               (default ∅ (physical2logical lv))) |}.

Lemma hull_end_int64 {T} (start stop : T -> Z) (items : list T) :
  (∀ c, is_int64 (stop c)) ->
  ∀ beg end_, is_int64 end_ -> is_int64 (snd (hull start stop items (beg, end_))).
Proof.
  intros Hs. induction items as [|c items IH]; intros beg end_ He; simpl; [done|].
  apply IH. rewrite Max_spec. destruct (Z.max_spec end_ (stop c)) as [[_ ->]|[_ ->]]; auto.
Qed.

Lemma chunk_union_range (a u : chunkMapping.t) (rest : list chunkMapping.t) :
  chunkMapping.union a rest = Ok u ->
  (chunkMapping.LAddr u, chunkStop u) =
    hull chunkMapping.LAddr chunkStop (a :: rest) (chunkMapping.LAddr a, chunkStop a).
Proof.
  unfold chunkMapping.union. destruct (negb _); [discriminate|].
  change (chunkMapping.rangeLoop (a :: rest)
            (chunkMapping.LAddr a, Add (chunkMapping.LAddr a) (chunkMapping.Size a)))
    with (hull chunkMapping.LAddr chunkStop (a :: rest) (chunkMapping.LAddr a, chunkStop a)).
  pose proof (hull_end_int64 chunkMapping.LAddr chunkStop (a :: rest)
                (fun c => wrap64_range _) (chunkMapping.LAddr a) (chunkStop a)
                (wrap64_range _)) as Hend.
  destruct (hull _ _ _ _) as [beg end_]. simpl in Hend.
  destruct (chunkMapping.lockedLoop _ _ _); try discriminate.
  destruct (chunkMapping.flagsLoop _ _); try discriminate.
  intros [= <-]. unfold chunkStop; simpl. by rewrite Add_Sub_cancel.
Qed.

Lemma devext_union_range (a u : devextMapping.t) (rest : list devextMapping.t) :
  devextMapping.union a rest = Ok u ->
  (devextMapping.PAddr u, devextStop u) =
    hull devextMapping.PAddr devextStop (a :: rest) (devextMapping.PAddr a, devextStop a).
Proof.
  unfold devextMapping.union. destruct (negb _); [discriminate|].
  change (devextMapping.rangeLoop (a :: rest)
            (devextMapping.PAddr a, Add (devextMapping.PAddr a) (devextMapping.Size a)))
    with (hull devextMapping.PAddr devextStop (a :: rest)
            (devextMapping.PAddr a, devextStop a)).
  pose proof (hull_end_int64 devextMapping.PAddr devextStop (a :: rest)
                (fun c => wrap64_range _) (devextMapping.PAddr a) (devextStop a)
                (wrap64_range _)) as Hend.
  destruct (hull _ _ _ _) as [beg end_]. simpl in Hend.
  destruct (devextMapping.lockedLoop _ _ _); try discriminate.
  destruct (devextMapping.laddrLoop _ _ _ _); try discriminate.
  destruct (devextMapping.flagsLoop _ _); try discriminate.
  intros [= <-]. unfold devextStop; simpl. by rewrite Add_Sub_cancel.
Qed.

(** [addMapping] either leaves the initialised state as it is, or
    writes the two unions. *)
Lemma addMapping_cases mask paranoid lv m dryRun lv' r :
  addMapping mask paranoid lv m dryRun = (lv', r) ->
  lv' = init lv ∨
  ∃ newChunk newExt,
    chunkMapping.union (chunkOf m)
      (RBTree.Subrange (chunkMapping.cmpRange (chunkOf m)) (chunks (init lv))) = Ok newChunk
    ∧ devextMapping.union (devextOf m)
        (RBTree.Subrange (devextMapping.cmpRange (devextOf m))
                         (devexts (init lv) (Dev (mPAddr m)))) = Ok newExt
    ∧ dryRun = false
    ∧ (r = Ok tt ∨ (paranoid = true ∧ r = fsck lv'))
    ∧ lv' = applied lv m newChunk newExt.
Proof.
  unfold addMapping.
  change {| chunkMapping.LAddr := mLAddr m; chunkMapping.PAddrs := [mPAddr m];
            chunkMapping.Size := mSize m; chunkMapping.SizeLocked := mSizeLocked m;
            chunkMapping.Flags := mFlags m |} with (chunkOf m).
  change {| devextMapping.PAddr := Addr (mPAddr m); devextMapping.LAddr := mLAddr m;
            devextMapping.Size := mSize m; devextMapping.SizeLocked := mSizeLocked m;
            devextMapping.Flags := mFlags m |} with (devextOf m).
  cbv zeta.
  destruct (id2pv (init lv) !! Dev (mPAddr m)); [|intros [= <- <-]; by left].
  destruct (chunkMapping.union _ _) as [newChunk| |] eqn:Hc;
    [|intros [= <- <-]; by left ..].
  destruct (devextMapping.union _ _) as [newExt| |] eqn:He;
    [|intros [= <- <-]; by left ..].
  destruct (negb _); [intros [= <- <-]; by left|].
  match goal with
  | |- context [match ?chk with Ok _ => _ | Err _ => _ | Panic => _ end] =>
      destruct chk; [|intros [= <- <-]; by left ..]
  end.
  destruct dryRun; [intros [= <- <-]; by left|].
  destruct (_ && _); [intros [= <- <-]; by left|].
  intros Hr. right. exists newChunk, newExt.
  repeat split; auto.
  - destruct paranoid; [|inversion Hr; by left].
    right. split; [done|].
    destruct (fsck _) as [[]| |] eqn:Hf; inversion Hr; subst; congruence.
  - destruct paranoid; [destruct (fsck _)|]; by inversion Hr.
Qed.

Lemma chunks_init lv : chunks (init lv) = chunks lv.
Proof. unfold chunks, init; simpl. by destruct (logical2physical lv). Qed.

Lemma devexts_init lv dev : devexts (init lv) dev = devexts lv dev.
Proof.
  unfold devexts, init; simpl.
  rewrite lookup_union, lookup_fmap.
  destruct (physical2logical lv) as [mp|]; simpl.
  - destruct (mp !! dev); simpl.
    + by destruct (id2pv lv !! dev).
    + by destruct (id2pv lv !! dev).
  - rewrite lookup_empty. by destruct (id2pv lv !! dev).
Qed.

Lemma chunks_applied lv m u v :
  chunks (applied lv m u v) =
    RBTree.Insert chunkMapping.Compare u
      (deleteAll chunkMapping.LAddr
         (RBTree.Subrange (chunkMapping.cmpRange (chunkOf m)) (chunks lv)) (chunks lv)).
Proof. unfold applied, chunks at 1; simpl. by rewrite chunks_init. Qed.

Lemma devexts_applied lv m u v dev :
  devexts (applied lv m u v) dev =
    if decide (Dev (mPAddr m) = dev) then
      RBTree.Insert devextMapping.Compare v
        (deleteAll devextMapping.PAddr
           (RBTree.Subrange (devextMapping.cmpRange (devextOf m))
                            (devexts lv (Dev (mPAddr m))))
           (devexts lv (Dev (mPAddr m))))
    else devexts lv dev.
Proof.
  unfold applied, devexts at 1. cbn [physical2logical default from_option]. unfold id.
  rewrite lookup_insert. destruct (decide (Dev (mPAddr m) = dev)) as [<-|Hne]; simpl.
  - by rewrite devexts_init.
  - rewrite <- (devexts_init lv dev). reflexivity.
Qed.

Lemma index_ok_nil {T} (start stop : T -> Z) : index_ok start stop [].
Proof. split; [constructor | by intros a b ?%elem_of_nil]. Qed.

Lemma chunks_ok_applied lv m u v :
  chunks_ok lv ->
  chunkMapping.union (chunkOf m)
    (RBTree.Subrange (chunkMapping.cmpRange (chunkOf m)) (chunks lv)) = Ok u ->
  chunks_ok (applied lv m u v).
Proof.
  unfold chunks_ok. intros Hok Hu. rewrite chunks_applied.
  apply chunk_union_range in Hu.
  exact (index_ok_merge chunkMapping.LAddr chunkStop (chunkOf m) u _ Hok Hu).
Qed.

Lemma devexts_ok_applied lv m u v :
  devexts_ok lv ->
  devextMapping.union (devextOf m)
    (RBTree.Subrange (devextMapping.cmpRange (devextOf m))
                     (devexts lv (Dev (mPAddr m)))) = Ok v ->
  devexts_ok (applied lv m u v).
Proof.
  unfold devexts_ok. intros Hok Hv dev. rewrite devexts_applied.
  destruct (decide _); [|done].
  apply devext_union_range in Hv.
  exact (index_ok_merge devextMapping.PAddr devextStop (devextOf m) v _ (Hok _) Hv).
Qed.

Definition engine_ok (lv : LogicalVolume) : Prop := chunks_ok lv ∧ devexts_ok lv.

Lemma engine_ok_init lv : engine_ok lv -> engine_ok (init lv).
Proof.
  unfold engine_ok, chunks_ok, devexts_ok. intros [Hc Hd].
  rewrite chunks_init. split; [done|]. intros dev. by rewrite devexts_init.
Qed.

Lemma engine_ok_new : engine_ok newLogicalVolume.
Proof. split; [|intros dev]; apply index_ok_nil. Qed.

Lemma engine_ok_addMapping mask paranoid lv m dryRun lv' r :
  engine_ok lv -> addMapping mask paranoid lv m dryRun = (lv', r) -> engine_ok lv'.
Proof.
  intros Hok Hadd.
  apply addMapping_cases in Hadd as [->|(u & v & Hu & Hv & _ & _ & ->)].
  - by apply engine_ok_init.
  - rewrite chunks_init in Hu. rewrite devexts_init in Hv. destruct Hok as [Hc Hd].
    split; [by apply chunks_ok_applied | by apply devexts_ok_applied].
Qed.

Lemma engine_ok_AddPhysicalVolume lv id dev :
  engine_ok lv -> engine_ok (fst (AddPhysicalVolume lv id dev)).
Proof.
  intros Hok. apply engine_ok_init in Hok. unfold AddPhysicalVolume.
  destruct (id2pv (init lv) !! id); simpl; [done|].
  destruct Hok as [Hc Hd]. split; [exact Hc|].
  intros d. unfold devexts; simpl.
  rewrite lookup_insert. destruct (decide (id = d)); simpl; [apply index_ok_nil|].
  apply (Hd d).
Qed.

Lemma engine_ok_ClearMappings lv : engine_ok (ClearMappings lv).
Proof. split; [|intros dev]; apply index_ok_nil. Qed.

Lemma engine_ok_exec mask paranoid lv op lv' :
  engine_ok lv -> exec mask paranoid lv op = Some lv' -> engine_ok lv'.
Proof.
  intros Hok. destruct op as [id dev|m|m|]; simpl.
  - intros [= <-]. by apply engine_ok_AddPhysicalVolume.
  - unfold AddMapping. destruct (addMapping _ _ _ _ _) as [lv1 r] eqn:Hadd.
    intros H. assert (lv' = lv1) as -> by (destruct r; congruence).
    by eapply engine_ok_addMapping.
  - destruct (addMapping _ _ _ _ _) as [lv1 r] eqn:Hadd.
    intros H. assert (lv' = lv1) as -> by (destruct r; congruence).
    by eapply engine_ok_addMapping.
  - intros [= <-]. apply engine_ok_ClearMappings.
Qed.

Lemma engine_ok_run mask paranoid ops : ∀ lv lv',
  engine_ok lv -> run mask paranoid lv ops = Some lv' -> engine_ok lv'.
Proof.
  induction ops as [|op ops IH]; simpl; intros lv lv' Hok.
  - by intros [= <-].
  - destruct (exec _ _ _ _) as [lv1|] eqn:Hex; [|discriminate].
    apply IH. by eapply engine_ok_exec.
Qed.

(** C5, as amended: in every state reached by calls of
    [AddPhysicalVolume], [AddMapping] ([CouldAddMapping]) and
    [ClearMappings], whatever they return, two distinct chunk mappings
    of the logical-to-physical index whose ends [laddr+size] do not
    leave [int64] have no address of their logical ranges
    [laddr, laddr+size) in common. *)
Theorem chunk_ranges_disjoint mask paranoid (ops : list Op) (lv : LogicalVolume)
  (c1 c2 : chunkMapping.t) (x : LogicalAddr) :
  run mask paranoid newLogicalVolume ops = Some lv ->
  c1 ∈ chunks lv -> c2 ∈ chunks lv -> c1 ≠ c2 ->
  is_int64 (chunkMapping.LAddr c1 + chunkMapping.Size c1) ->
  is_int64 (chunkMapping.LAddr c2 + chunkMapping.Size c2) ->
  ¬ (chunkMapping.LAddr c1 <= x < chunkMapping.LAddr c1 + chunkMapping.Size c1
     ∧ chunkMapping.LAddr c2 <= x < chunkMapping.LAddr c2 + chunkMapping.Size c2).
Proof.
  intros Hrun H1 H2 Hne Hb1 Hb2.
  destruct (engine_ok_run _ _ _ _ _ engine_ok_new Hrun) as [[_ Hdis] _].
  pose proof (Hdis c1 c2 H1 H2 Hne x) as Hx.
  unfold inside, chunkStop, Add in Hx. by rewrite !wrap64_id in Hx.
Qed.

(** ** Errors of [addMapping] *)

(** A device that fails every read; the mapping engine never reads it. *)
Definition nullVolume : PhysicalVolume := {| pvReadAt := fun _ _ => None |}.

Definition mapping (laddr : LogicalAddr) (dev : DeviceID) (paddr : PhysicalAddr)
  (size : AddrDelta) (locked : bool) (flags : option BlockGroupFlags) : Mapping :=
  {| mLAddr := laddr; mPAddr := {| Dev := dev; Addr := paddr |}; mSize := size;
     mSizeLocked := locked; mFlags := flags |}.

(** The engine with device 1 registered. *)
Definition engine1 : LogicalVolume :=
  fst (AddPhysicalVolume newLogicalVolume 1 nullVolume).

Lemma fsckStripe_err lv chunk acc stripe e :
  (∀ e', acc = Err e' -> e' = ErrFsckNoVolume) ->
  fsckStripe lv chunk acc stripe = Err e -> e = ErrFsckNoVolume.
Proof.
  intros Hacc. unfold fsckStripe. destruct acc as [p2l|e'|]; [|by auto|done].
  destruct (id2pv lv !! Dev stripe); [done | congruence].
Qed.

Lemma fsckStripes_err lv chunk stripes : ∀ acc e,
  (∀ e', acc = Err e' -> e' = ErrFsckNoVolume) ->
  fold_left (fsckStripe lv chunk) stripes acc = Err e -> e = ErrFsckNoVolume.
Proof.
  induction stripes as [|s stripes IH]; simpl; intros acc e Hacc; [by auto|].
  apply IH. intros e'. by apply fsckStripe_err.
Qed.

Lemma fsckScan_err lv e : fsckScan lv = Err e -> e = ErrFsckNoVolume.
Proof.
  unfold fsckScan.
  assert (H : ∀ cs acc e,
             (∀ e', acc = Err e' -> e' = ErrFsckNoVolume) ->
             fold_left (fun acc chunk =>
                          fold_left (fsckStripe lv chunk) (chunkMapping.PAddrs chunk) acc)
                       cs acc = Err e -> e = ErrFsckNoVolume).
  { induction cs as [|c cs IH]; simpl; intros acc e0 Hacc; [by auto|].
    apply IH. intros e'. by apply fsckStripes_err. }
  apply H. discriminate.
Qed.

Lemma fsck_not_conflict lv e : fsck lv = Err e -> is_conflict e = false.
Proof.
  unfold fsck. destruct (fsckScan lv) as [p2l|e'|] eqn:Hs; [| |done].
  - destruct (negb _); [by intros [= <-]|].
    destruct (negb _); [by intros [= <-] | done].
  - intros [= <-]. by rewrite (fsckScan_err _ _ Hs).
Qed.

(** C6: when [AddMapping] returns a mapping conflict the engine is the
    one [init] leaves, with the chunk index and every dev-extent index
    as they were; and a second size-locked mapping at 0x800 over a
    size-locked chunk [0, 0x1000) is refused with the size-locked
    conflict, the engine keeping the first mapping as it stands. *)
Theorem conflict_leaves_engine_unchanged :
  (∀ mask paranoid lv m lv' e,
     AddMapping mask paranoid lv m = (lv', Err e) -> is_conflict e = true ->
     lv' = init lv ∧ chunks lv' = chunks lv ∧ ∀ dev, devexts lv' dev = devexts lv dev)
  ∧ ∀ mask,
      let m1 := mapping 0 1 0 0x1000 true None in
      let m2 := mapping 0x800 1 0x800 0x1000 true None in
      let lv1 := fst (AddMapping mask false engine1 m1) in
      snd (AddMapping mask false engine1 m1) = Ok tt
      ∧ AddMapping mask false lv1 m2 = (lv1, Err ErrSizeLockedConflict)
      ∧ chunks lv1 =
          [{| chunkMapping.LAddr := 0; chunkMapping.PAddrs := [{| Dev := 1; Addr := 0 |}];
              chunkMapping.Size := 0x1000; chunkMapping.SizeLocked := true;
              chunkMapping.Flags := None |}]
      ∧ devexts lv1 1 =
          [{| devextMapping.PAddr := 0; devextMapping.LAddr := 0;
              devextMapping.Size := 0x1000; devextMapping.SizeLocked := true;
              devextMapping.Flags := None |}].
Proof.
  split.
  - intros mask paranoid lv m lv' e Hadd Hconf.
    assert (lv' = init lv) as ->.
    { apply addMapping_cases in Hadd as [->|(u & v & _ & _ & _ & Hr & ->)]; [done|].
      destruct Hr as [Hr|[_ Hr]]; [discriminate|].
      symmetry in Hr. apply fsck_not_conflict in Hr. congruence. }
    split; [done|]. split; [apply chunks_init | intros dev; apply devexts_init].
  - intros mask. vm_compute. repeat split; reflexivity.
Qed.

(** The logical address a member of a dev-extent union implies for the
    start of the union, as the loop of [devextMapping.union] computes it. *)
Definition backProjected (retPAddr : PhysicalAddr) (ext : devextMapping.t) : LogicalAddr :=
  Add (devextMapping.LAddr ext) (wrap64 (- Sub (devextMapping.PAddr ext) retPAddr)).

Lemma laddrLoop_first_never_fails exts : ∀ retPAddr retLAddr,
  ∃ laddr, devextMapping.laddrLoop true retPAddr retLAddr exts = Ok laddr.
Proof.
  induction exts as [|ext exts IH]; simpl; intros retPAddr retLAddr; [by eexists|].
  apply IH.
Qed.

Lemma devext_lockedLoop_err retSize exts : ∀ locked e,
  devextMapping.lockedLoop retSize locked exts = Err e -> e = ErrSizeLockedConflict.
Proof.
  induction exts as [|ext exts IH]; simpl; intros locked e; [done|].
  destruct (devextMapping.SizeLocked ext); [|by apply IH].
  destruct (negb _); [by intros [= <-] | by apply IH].
Qed.

Lemma devext_flagsLoop_err exts : ∀ retFlags e,
  devextMapping.flagsLoop retFlags exts = Err e -> e = ErrFlagsConflict.
Proof.
  induction exts as [|ext exts IH]; simpl; intros retFlags e; [done|].
  destruct (devextMapping.Flags ext); [|by apply IH].
  destruct (negb _); [by intros [= <-] | by apply IH].
Qed.

(** C2 (the code departs from the claim): [devextMapping.union] never
    returns the dev-extent conflict, because [first] stays [true]; a
    mapping whose dev-extent overlaps an existing one and implies
    another logical address (0x800 against 0) is accepted by
    [AddMapping] and applied. *)
Theorem devext_conflict_is_never_reported :
  (∀ a rest e, devextMapping.union a rest = Err e -> e ≠ ErrDevExtConflict)
  ∧ ∀ mask,
      let lv := fst (AddMapping mask false engine1 (mapping 0 1 0x1000 0x1000 false None)) in
      let old := {| devextMapping.PAddr := 0x1000; devextMapping.LAddr := 0;
                    devextMapping.Size := 0x1000; devextMapping.SizeLocked := false;
                    devextMapping.Flags := None |} in
      let m := mapping 0x800 1 0x1000 0x1000 false None in
      RBTree.Subrange (devextMapping.cmpRange (devextOf m)) (devexts lv 1) = [old]
      ∧ backProjected 0x1000 (devextOf m) = 0x800
      ∧ backProjected 0x1000 old = 0
      ∧ snd (AddMapping mask false lv m) = Ok tt
      ∧ chunks (fst (AddMapping mask false lv m)) =
          [{| chunkMapping.LAddr := 0;
              chunkMapping.PAddrs := [{| Dev := 1; Addr := 0x800 |};
                                      {| Dev := 1; Addr := 0x1000 |}];
              chunkMapping.Size := 0x1800; chunkMapping.SizeLocked := false;
              chunkMapping.Flags := None |}].
Proof.
  split.
  - intros a rest e. unfold devextMapping.union.
    destruct (negb _); [by intros [= <-]|].
    destruct (devextMapping.rangeLoop _ _) as [beg end_].
    destruct (devextMapping.lockedLoop _ _ _) as [locked|e'|] eqn:Hl; [| |done].
    + destruct (laddrLoop_first_never_fails (a :: rest) beg 0) as [laddr ->].
      destruct (devextMapping.flagsLoop _ _) as [flags|e'|] eqn:Hf; [done| |done].
      intros [= <-]. by rewrite (devext_flagsLoop_err _ _ _ Hf).
    + intros [= <-]. by rewrite (devext_lockedLoop_err _ _ _ _ Hl).
  - intros mask. vm_compute. repeat split; reflexivity.
Qed.

(** C3 (the code departs from the claim): after one successful
    [AddMapping] with the size locked, [fsck] reports a skew: the scan
    rebuilds the dev-extent without [SizeLocked].  It also reports a
    skew when a registered device has no mapping, the rebuilt map
    having no tree for it. *)
Theorem fsck_fails_after_AddMapping :
  ∀ mask,
    (let r := AddMapping mask false engine1 (mapping 0 1 0 0x1000 true None) in
     snd r = Ok tt
     ∧ fsck (fst r) = Err ErrFsckSkew
     ∧ devexts (fst r) 1 =
         [{| devextMapping.PAddr := 0; devextMapping.LAddr := 0;
             devextMapping.Size := 0x1000; devextMapping.SizeLocked := true;
             devextMapping.Flags := None |}]
     ∧ fsckScan (fst r) =
         Ok {[ 1 := [{| devextMapping.PAddr := 0; devextMapping.LAddr := 0;
                        devextMapping.Size := 0x1000; devextMapping.SizeLocked := false;
                        devextMapping.Flags := None |}] ]})
    ∧ (let engine2 := fst (AddPhysicalVolume engine1 2 nullVolume) in
       let r := AddMapping mask false engine2 (mapping 0 1 0 0x1000 false None) in
       snd r = Ok tt ∧ fsck (fst r) = Err ErrFsckSkew).
Proof.
  intros mask. vm_compute. repeat split; reflexivity.
Qed.

(** C7 (the code departs from the claim): with a RAID mask that leaves
    out the flag 1, a mapping that [AddMapping] accepts, its dev-extent
    overlapping an existing one at another logical address, is refused
    when it is added again: the chunk then has two stripes and one
    dev-extent. *)
Theorem AddMapping_again_is_refused :
  ∀ mask, Z.land 1 mask = 0 ->
    let lv := fst (AddMapping mask false engine1 (mapping 0 1 0 0x1000 false (Some 1))) in
    let m := mapping 0x800 1 0x900 0x1000 false (Some 1) in
    snd (AddMapping mask false lv m) = Ok tt
    ∧ snd (AddMapping mask false (fst (AddMapping mask false lv m)) m)
      = Err ErrMultipleStripes.
Proof.
  intros mask Hmask. split.
  - vm_compute. reflexivity.
  - destruct mask as [|p|p];
      [ | destruct p | destruct p as [q|q|]; [ | destruct q | ]];
      vm_compute in Hmask; try discriminate Hmask; vm_compute; reflexivity.
Qed.

(** ** Resolve and UnResolve *)

#[global] Instance is_int64_dec z : Decision (is_int64 z).
Proof. unfold is_int64. apply _. Defined.

(** No range of the engine leaves [int64]: addresses, sizes and ends. *)
Definition chunk_in_bounds (c : chunkMapping.t) : Prop :=
  is_int64 (chunkMapping.LAddr c) ∧ is_int64 (chunkMapping.Size c)
  ∧ is_int64 (chunkMapping.LAddr c + chunkMapping.Size c).

Definition devext_in_bounds (e : devextMapping.t) : Prop :=
  is_int64 (devextMapping.PAddr e)
  ∧ is_int64 (devextMapping.PAddr e + devextMapping.Size e).

Definition in_bounds (lv : LogicalVolume) : Prop :=
  Forall chunk_in_bounds (chunks lv)
  ∧ map_Forall (fun _ tree => Forall devext_in_bounds tree)
               (default ∅ (physical2logical lv)).

(** The dev-extent [e] backs the stripe [s] of the chunk [c]: its
    physical range contains the stripe and its logical address
    back-projects to the chunk's. *)
Definition backs (c : chunkMapping.t) (s : QualifiedPhysicalAddr) (e : devextMapping.t)
  : Prop :=
  devextMapping.PAddr e <= Addr s
  ∧ Addr s + chunkMapping.Size c <= devextMapping.PAddr e + devextMapping.Size e
  ∧ devextMapping.LAddr e + (Addr s - devextMapping.PAddr e) = chunkMapping.LAddr c.

Definition stripes_backed (lv : LogicalVolume) : Prop :=
  Forall (fun c => Forall (fun s => Exists (backs c s) (devexts lv (Dev s)))
                          (chunkMapping.PAddrs c))
         (chunks lv).

#[global] Instance chunk_in_bounds_dec c : Decision (chunk_in_bounds c).
Proof. unfold chunk_in_bounds. apply _. Defined.

#[global] Instance devext_in_bounds_dec e : Decision (devext_in_bounds e).
Proof. unfold devext_in_bounds. apply _. Defined.

#[global] Instance in_bounds_dec lv : Decision (in_bounds lv).
Proof. unfold in_bounds. apply _. Defined.

#[global] Instance backs_dec c s e : Decision (backs c s e).
Proof. unfold backs. apply _. Defined.

#[global] Instance stripes_backed_dec lv : Decision (stripes_backed lv).
Proof. unfold stripes_backed. apply _. Defined.


Lemma Search_Some {T} (fn : T -> Z) (t : list T) v :
  RBTree.Search fn t = Some v -> v ∈ t ∧ fn v = 0.
Proof.
  unfold RBTree.Search. intros [Hin Hfn]%find_some.
  split; [by apply list_elem_of_In | by apply Z.eqb_eq].
Qed.

Lemma Search_is_Some {T} (fn : T -> Z) (t : list T) v :
  v ∈ t -> fn v = 0 -> ∃ v', RBTree.Search fn t = Some v'.
Proof.
  intros Hin Hfn. unfold RBTree.Search.
  destruct (find _ t) as [v'|] eqn:Hf; [by eexists|].
  apply list_elem_of_In in Hin.
  pose proof (find_none _ _ Hf v Hin) as Hn. simpl in Hn.
  apply Z.eqb_neq in Hn. done.
Qed.

Lemma wrap64_add_wrap_l a b : wrap64 (wrap64 a + b) = wrap64 (a + b).
Proof. rewrite (Z.add_comm (wrap64 a)), wrap64_add_wrap. f_equal. lia. Qed.



(** ** Reading replicated stripes *)

(** What the device of the stripe [p] returns for [n] bytes at [p];
    [None] when the device is missing or its read fails. *)
Definition stripeBytes (lv : LogicalVolume) (n : nat) (p : QualifiedPhysicalAddr)
  : option (list byte) :=
  match id2pv lv !! Dev p with
  | None => None
  | Some dev => pvReadAt dev n (Addr p)
  end.

Lemma readStripes_later lv n dat order :
  (∀ p, p ∈ order -> is_Some (stripeBytes lv n p)) ->
  (readStripes lv n false dat order = Ok dat
   ∧ ∀ p, p ∈ order -> stripeBytes lv n p = Some dat)
  ∨ (readStripes lv n false dat order = Err ErrInconsistentStripes
     ∧ ∃ p, p ∈ order ∧ stripeBytes lv n p ≠ Some dat).
Proof.
  induction order as [|p order IH]; intros Hok; simpl.
  - left. split; [done|]. by intros p ?%elem_of_nil.
  - destruct (Hok p) as [buf Hbuf]; [by left|].
    unfold stripeBytes in Hbuf.
    destruct (id2pv lv !! Dev p) as [dev|] eqn:Hdev; [|done].
    rewrite Hbuf. destruct (decide (dat = buf)) as [->|Hne].
    + rewrite bool_decide_eq_true_2 by done. simpl.
      destruct IH as [[Hr Hall]|[Hr (q & Hq & Hne)]].
      * intros q Hq. apply Hok. by right.
      * left. split; [done|]. intros q [->|Hq]%elem_of_cons; [|by auto].
        unfold stripeBytes. by rewrite Hdev.
      * right. split; [done|]. exists q. split; [by right | done].
    + rewrite bool_decide_eq_false_2 by done. simpl.
      right. split; [done|]. exists p. split; [by left|].
      unfold stripeBytes. rewrite Hdev, Hbuf. congruence.
Qed.

Lemma readStripes_first lv n dat p order buf :
  stripeBytes lv n p = Some buf ->
  readStripes lv n true dat (p :: order) = readStripes lv n false buf order.
Proof.
  unfold stripeBytes. simpl. destruct (id2pv lv !! Dev p); [|done]. by intros ->.
Qed.

Lemma readStripes_replicated lv n dat order :
  order ≠ [] ->
  (∀ p, p ∈ order -> is_Some (stripeBytes lv n p)) ->
  (readStripes lv n true dat order = Err ErrInconsistentStripes
   <-> ∃ p q, p ∈ order ∧ q ∈ order ∧ stripeBytes lv n p ≠ stripeBytes lv n q)
  ∧ (∀ b, (∀ p, p ∈ order -> stripeBytes lv n p = Some b) ->
          readStripes lv n true dat order = Ok b).
Proof.
  destruct order as [|p0 order]; [done|]. intros _ Hok.
  destruct (Hok p0) as [b0 Hb0]; [by left|].
  rewrite (readStripes_first _ _ _ _ _ _ Hb0).
  destruct (readStripes_later lv n b0 order) as [[Hr Hall]|[Hr (q & Hq & Hne)]].
  { intros q Hq. apply Hok. by right. }
  - assert (Hall' : ∀ p, p ∈ p0 :: order -> stripeBytes lv n p = Some b0).
    { intros p [->|Hp]%elem_of_cons; auto. }
    rewrite Hr. split.
    + split; [discriminate|]. intros (p & q & Hp & Hq & Hne).
      rewrite (Hall' p Hp), (Hall' q Hq) in Hne. done.
    + intros b Hb. rewrite (Hb p0) in Hb0 by (by left). congruence.
  - rewrite Hr. split.
    + split; [|done]. intros _. exists q, p0.
      repeat split; [by right | by left | by rewrite Hb0].
    + intros b Hb. exfalso. apply Hne.
      rewrite (Hb q) by (by right). rewrite (Hb p0) in Hb0 by (by left). done.
Qed.

(** C9, as amended: a read whose address resolves to two or more
    stripes and to a length that is not negative, each stripe on a
    device that is there and answers, reads the covered bytes, the
    first [min(len(dat), maxlen)] of the buffer, from each stripe; it
    fails with the inconsistent stripes error exactly when two stripes
    return different bytes, and returns the common bytes when they all
    agree, in whatever order the stripes are visited.  [ReadAt] hands
    the error on, and after the common bytes goes on with the rest of
    the buffer at the address after them; when the common bytes fill
    the buffer it returns them. *)
Theorem ReadAt_replicated_stripes (lv : LogicalVolume)
  (order : list QualifiedPhysicalAddr) (dat : list byte) (laddr : LogicalAddr)
  (paddrs : gset QualifiedPhysicalAddr) (maxlen : AddrDelta) :
  Resolve lv laddr = (paddrs, maxlen) ->
  order ≡ₚ elements paddrs ->
  (2 <= size paddrs)%nat ->
  0 <= maxlen ->
  let n := Z.to_nat (Z.min (Z.of_nat (length dat)) maxlen) in
  (∀ p, p ∈ paddrs -> is_Some (stripeBytes lv n p)) ->
  (maybeShortReadAt lv order dat laddr = Err ErrInconsistentStripes
   <-> ∃ p q, p ∈ paddrs ∧ q ∈ paddrs ∧ stripeBytes lv n p ≠ stripeBytes lv n q)
  ∧ (∀ b, (∀ p, p ∈ paddrs -> stripeBytes lv n p = Some b) ->
          maybeShortReadAt lv order dat laddr = Ok b)
  ∧ (∀ fuel iter, iter laddr = order -> dat ≠ [] ->
       (maybeShortReadAt lv order dat laddr = Err ErrInconsistentStripes ->
        ReadAt (S fuel) lv iter dat laddr = Err ErrInconsistentStripes)
       ∧ (∀ b, (∀ p, p ∈ paddrs -> stripeBytes lv n p = Some b) ->
               ReadAt (S fuel) lv iter dat laddr
               = match ReadAt fuel lv iter (drop (length b) dat)
                              (wrap64 (laddr + Z.of_nat (length b))) with
                 | Ok rest => Ok (b ++ rest)
                 | other => other
                 end)
       ∧ (∀ b, (∀ p, p ∈ paddrs -> stripeBytes lv n p = Some b) ->
               length b = length dat ->
               ReadAt (S fuel) lv iter dat laddr = Ok b)).
Proof.
  intros Hres Hperm Hsize Hmax n Hok.
  assert (Hmem : ∀ p, p ∈ order <-> p ∈ paddrs).
  { intros p. by rewrite Hperm, elem_of_elements. }
  assert (Hne : order ≠ []).
  { intros ->. apply Permutation_nil_l in Hperm. symmetry in Hperm.
    apply elements_empty_inv in Hperm. apply leibniz_equiv in Hperm.
    subst paddrs. rewrite size_empty in Hsize. lia. }
  assert (Hn : length (covered dat maxlen) = n).
  { unfold covered, n. destruct (Z.gtb_spec (Z.of_nat (length dat)) maxlen).
    - rewrite length_take. lia.
    - lia. }
  assert (Hm : maybeShortReadAt lv order dat laddr
               = readStripes lv n true (covered dat maxlen) order).
  { unfold maybeShortReadAt. rewrite Hres.
    destruct (Nat.eqb_spec (size paddrs) 0) as [H0|_]; [lia|].
    destruct (Z.ltb_spec maxlen 0) as [?|_]; [lia|].
    by rewrite andb_false_r, Hn. }
  destruct (readStripes_replicated lv n (covered dat maxlen) order Hne) as [Hiff Hall].
  { intros p Hp. apply Hok. by apply Hmem. }
  assert (Hagree : ∀ b, (∀ p, p ∈ paddrs -> stripeBytes lv n p = Some b) ->
                        maybeShortReadAt lv order dat laddr = Ok b).
  { intros b Hb. rewrite Hm. apply Hall. intros p Hp. apply Hb. by apply Hmem. }
  split; [|split; [exact Hagree|]].
  - rewrite Hm, Hiff. split.
    + intros (p & q & Hp & Hq & Hd). exists p, q. by rewrite <- !Hmem.
    + intros (p & q & Hp & Hq & Hd). exists p, q. by rewrite !Hmem.
  - intros fuel iter Hiter Hdat.
    destruct dat as [|x dat']; [done|]. split; [|split].
    + intros Herr. cbn [ReadAt]. by rewrite Hiter, Herr.
    + intros b Hb. cbn [ReadAt]. by rewrite Hiter, (Hagree b Hb).
    + intros b Hb Hlb. cbn [ReadAt]. rewrite Hiter, (Hagree b Hb), Hlb.
      rewrite drop_all. destruct fuel; simpl; by rewrite app_nil_r.
Qed.

(** ** Rebuilt trees: AddRoot *)

Module AddRoots.
Import btrees.

Section WithGraph.
Variable g : pkggraph.Graph.

(** A run of [AddRoot] calls, the callbacks of all of them in order. *)
Fixpoint addRoots (tree : RebuiltTree) (cbs : list AddedItem) (roots : list LogicalAddr)
  : option (RebuiltTree * list AddedItem) :=
  match roots with
  | [] => Some (tree, cbs)
  | rootNode :: roots' =>
      match AddRoot g tree rootNode with
      | None => None
      | Some (tree', cbs') => addRoots tree' (cbs ++ cbs') roots'
      end
  end.

(** The callbacks that announce the items of one leaf. *)
Definition announce (treeID : ObjID) (leaf : LogicalAddr) : list AddedItem :=
  map (fun itemKey => {| aiLeaf := leaf; aiTree := treeID; aiKey := itemKey |})
      (pkggraph.Items (pkggraph.node g leaf)).

(** The callbacks among [cbs] that announce items of [leaf]. *)
Definition announced (leaf : LogicalAddr) (cbs : list AddedItem) : list AddedItem :=
  filter (fun ev => aiLeaf ev = leaf) cbs.

(** Two trees with the same static fields. *)
Definition same_static (t1 t2 : RebuiltTree) : Prop :=
  ID t1 = ID t2 ∧ Parent t1 = Parent t2 ∧ ParentGen t1 = ParentGen t2.

(** Every leaf that a root of the tree reaches is attached. *)
Definition attached (leafToRoots : gmap LogicalAddr (gset LogicalAddr))
  (tree : RebuiltTree) : Prop :=
  ∀ root leaf, root ∈ Roots tree -> leaf ∈ dom leafToRoots ->
               root ∈ default ∅ (leafToRoots !! leaf) -> leaf ∈ Leafs tree.

(** The callbacks made so far announce the attached leafs, once each. *)
Definition announced_once (tree : RebuiltTree) (cbs : list AddedItem) : Prop :=
  ∀ leaf, announced leaf cbs
          = if decide (leaf ∈ Leafs tree) then announce (ID tree) leaf else [].

Lemma isOwnerOK_static t1 t2 owner gen :
  same_static t1 t2 -> isOwnerOK t1 owner gen = isOwnerOK t2 owner gen.
Proof.
  destruct t1 as [id1 p1 pg1 r1 l1], t2 as [id2 p2 pg2 r2 l2].
  intros (Hid & Hp & Hpg); simpl in *. by subst.
Qed.

Lemma fold_left_ext {A B} (f f' : A -> B -> A) (l : list B) :
  (∀ a b, f a b = f' a b) -> ∀ a, fold_left f l a = fold_left f' l a.
Proof.
  intros Hf. induction l as [|b l IH]; intros a; simpl; [done|].
  by rewrite Hf, IH.
Qed.

Lemma indexNode_static t1 t2 :
  same_static t1 t2 ->
  ∀ fuel node index stack,
    indexNode g fuel t1 node index stack = indexNode g fuel t2 node index stack.
Proof.
  intros Hst.
  assert (Hok : ∀ a, nodeOwnerOK g t1 a = nodeOwnerOK g t2 a).
  { intros a. unfold nodeOwnerOK. by apply isOwnerOK_static. }
  induction fuel as [|fuel IH]; intros node index stack; simpl; [done|].
  rewrite Hok.
  rewrite (list_filter_iff
             (fun kp => nodeOwnerOK g t1 (pkggraph.FromNode kp) = true)
             (fun kp => nodeOwnerOK g t2 (pkggraph.FromNode kp) = true)).
  2:{ intros kp. by rewrite Hok. }
  erewrite fold_left_ext; [reflexivity|].
  intros [[index' roots]|] kp; [|done]. by rewrite IH.
Qed.

Lemma leafToRoots_static t1 t2 :
  same_static t1 t2 -> leafToRoots g t1 = leafToRoots g t2.
Proof.
  intros Hst. unfold leafToRoots, leafToRootsFuel.
  erewrite fold_left_ext; [reflexivity|].
  intros [index|] node; [|done]. by apply indexNode_static.
Qed.

Lemma elem_of_SortedKeys (s : gset LogicalAddr) leaf : leaf ∈ SortedKeys s <-> leaf ∈ s.
Proof. unfold SortedKeys. by rewrite merge_sort_Permutation, elem_of_elements. Qed.

Lemma announced_announce_same treeID leaf :
  announced leaf (announce treeID leaf) = announce treeID leaf.
Proof.
  unfold announced, announce.
  induction (pkggraph.Items (pkggraph.node g leaf)) as [|x xs IHx]; [done|].
  cbn [map]. rewrite filter_cons_True by done. by rewrite IHx.
Qed.

Lemma announced_announce_other treeID leaf k :
  leaf ≠ k -> announced leaf (announce treeID k) = [].
Proof.
  intros Hne. unfold announced, announce.
  induction (pkggraph.Items (pkggraph.node g k)) as [|x xs IHx]; [done|].
  cbn [map]. rewrite filter_cons_False; [done|]. simpl. congruence.
Qed.

(** The loop of [AddRoot]: leafs are only added, every leaf of [keys]
    that the root reaches is attached afterwards, and the callbacks
    announce the newly attached leafs, once each. *)
Lemma addRoot_loop treeID rootNode l2r (keys : list LogicalAddr) :
  ∀ leafs cbs leafs' cbs',
    fold_left (addRootStep g treeID rootNode l2r) keys (leafs, cbs) = (leafs', cbs') ->
    leafs ⊆ leafs'
    ∧ (∀ leaf, leaf ∈ keys -> rootNode ∈ default ∅ (l2r !! leaf) -> leaf ∈ leafs')
    ∧ (∀ leaf, leaf ∈ leafs' -> leaf ∈ leafs ∨ leaf ∈ keys)
    ∧ ((∀ leaf, announced leaf cbs
                = if decide (leaf ∈ leafs) then announce treeID leaf else []) ->
       ∀ leaf, announced leaf cbs'
               = if decide (leaf ∈ leafs') then announce treeID leaf else [])
    ∧ ((∀ leaf, leaf ∈ keys -> rootNode ∈ default ∅ (l2r !! leaf) -> leaf ∈ leafs) ->
       leafs' = leafs ∧ cbs' = cbs).
Proof.
  induction keys as [|k keys IH]; intros leafs cbs leafs' cbs'; simpl.
  - intros [= <- <-]. split_and!; auto.
    by intros leaf ?%elem_of_nil.
  - destruct (bool_decide (k ∈ leafs)
              || negb (bool_decide (rootNode ∈ default ∅ (l2r !! k)))) eqn:Hskip.
    + intros Hfold. destruct (IH _ _ _ _ Hfold) as (Hmono & Hreach & Hfrom & Hann & Hidem).
      split_and!; [done| | |done|].
      * intros leaf [->|Hl]%elem_of_cons Hr; [|by auto].
        apply orb_true_iff in Hskip as [Hk|Hk].
        -- apply bool_decide_eq_true in Hk. by apply Hmono.
        -- apply negb_true_iff, bool_decide_eq_false in Hk. done.
      * intros leaf Hl. destruct (Hfrom leaf Hl); [by left | right; by right].
      * intros Hall. apply Hidem. intros leaf Hl. apply Hall. by right.
    + apply orb_false_iff in Hskip as [Hk Hr].
      apply bool_decide_eq_false in Hk.
      apply negb_false_iff, bool_decide_eq_true in Hr.
      intros Hfold. destruct (IH _ _ _ _ Hfold) as (Hmono & Hreach & Hfrom & Hann & Hidem).
      split_and!.
      * intros leaf Hl. apply Hmono, elem_of_union. by right.
      * intros leaf [->|Hl]%elem_of_cons Hr'; [|by auto].
        apply Hmono, elem_of_union. left. by apply elem_of_singleton.
      * intros leaf Hl.
        destruct (Hfrom leaf Hl) as [[?%elem_of_singleton|?]%elem_of_union|?].
        -- subst. right. by left.
        -- by left.
        -- right. by right.
      * intros Hcbs. apply Hann. intros leaf.
        unfold announced. rewrite filter_app.
        fold (announced leaf cbs). rewrite Hcbs.
        fold (announce treeID k). fold (announced leaf (announce treeID k)).
        destruct (decide (leaf = k)) as [->|Hne].
        -- rewrite announced_announce_same.
           rewrite decide_False by done.
           rewrite decide_True; [done|]. apply elem_of_union. left.
           by apply elem_of_singleton.
        -- rewrite announced_announce_other by done. rewrite app_nil_r.
           destruct (decide (leaf ∈ leafs)) as [Hin|Hnin].
           ++ rewrite decide_True; [done|]. apply elem_of_union. by right.
           ++ rewrite decide_False; [done|].
              intros [?%elem_of_singleton|?]%elem_of_union; done.
      * intros Hall. exfalso. apply Hk. apply Hall; [by left | done].
Qed.

Lemma addRoot_loop_acc treeID rootNode l2r (keys : list LogicalAddr) :
  ∀ leafs cbs0,
    fold_left (addRootStep g treeID rootNode l2r) keys (leafs, cbs0)
    = (fst (fold_left (addRootStep g treeID rootNode l2r) keys (leafs, [])),
       cbs0 ++ snd (fold_left (addRootStep g treeID rootNode l2r) keys (leafs, []))).
Proof.
  induction keys as [|k keys IH]; intros leafs cbs0; simpl.
  - by rewrite app_nil_r.
  - destruct (bool_decide (k ∈ leafs) || _); [apply IH|].
    rewrite (IH _ (cbs0 ++ _)).
    match goal with
    | |- context [fold_left _ keys (?l, map ?f ?xs)] => rewrite (IH l (map f xs))
    end.
    simpl. by rewrite app_assoc.
Qed.

(** What one call of [AddRoot] does, in terms of its loop. *)
Lemma AddRoot_Some tree rootNode tree' cbs' :
  AddRoot g tree rootNode = Some (tree', cbs') ->
  ∃ l2r, leafToRoots g tree = Some l2r
         ∧ same_static tree tree'
         ∧ Roots tree' = {[rootNode]} ∪ Roots tree
         ∧ fold_left (addRootStep g (ID tree) rootNode l2r)
                     (SortedKeys (dom l2r)) (Leafs tree, []) = (Leafs tree', cbs').
Proof.
  unfold AddRoot.
  rewrite (leafToRoots_static (setRoots tree ({[rootNode]} ∪ Roots tree)) tree)
    by (by destruct tree).
  destruct (leafToRoots g tree) as [l2r|]; [|done].
  destruct (fold_left _ _ _) as [leafs cbs] eqn:Hfold.
  intros [= <- <-]. exists l2r. destruct tree; simpl in *. by split_and!.
Qed.

(** The invariant of a run of [AddRoot] calls. *)
Definition addRoots_inv (tree : RebuiltTree) (cbs : list AddedItem) : Prop :=
  (Roots tree = ∅ ∨ is_Some (leafToRoots g tree))
  ∧ (∀ l2r, leafToRoots g tree = Some l2r -> attached l2r tree)
  ∧ announced_once tree cbs.

Lemma addRoots_inv_AddRoot tree cbs rootNode tree' cbs' :
  addRoots_inv tree cbs -> AddRoot g tree rootNode = Some (tree', cbs') ->
  addRoots_inv tree' (cbs ++ cbs').
Proof.
  intros (_ & Hatt & Hann) Hadd.
  destruct (AddRoot_Some _ _ _ _ Hadd) as (l2r & Hl2r & Hst & Hroots & Hfold).
  pose proof (leafToRoots_static _ _ Hst) as Hl2r'. rewrite Hl2r in Hl2r'.
  assert (Hfold' : fold_left (addRootStep g (ID tree) rootNode l2r)
                     (SortedKeys (dom l2r)) (Leafs tree, cbs) = (Leafs tree', cbs ++ cbs')).
  { by rewrite addRoot_loop_acc, Hfold. }
  destruct (addRoot_loop _ _ _ _ _ _ _ _ Hfold')
    as (Hmono & Hreach & _ & Hann' & _).
  split_and!.
  - right. by rewrite <- Hl2r'.
  - intros l2r0 Hl2r0. rewrite <- Hl2r' in Hl2r0. injection Hl2r0 as <-.
    intros root leaf Hroot Hleaf Hin.
    rewrite Hroots in Hroot. apply elem_of_union in Hroot as [Hroot|Hroot].
    + apply elem_of_singleton in Hroot as ->.
      apply Hreach; [by apply elem_of_SortedKeys | done].
    + apply Hmono. by apply (Hatt l2r Hl2r root leaf).
  - intros leaf. destruct Hst as (<- & _). by apply Hann'.
Qed.

Lemma addRoots_inv_run roots : ∀ tree cbs tree' cbs',
  addRoots_inv tree cbs -> addRoots tree cbs roots = Some (tree', cbs') ->
  addRoots_inv tree' cbs'.
Proof.
  induction roots as [|r roots IH]; simpl; intros tree cbs tree' cbs' Hinv.
  - by intros [= <- <-].
  - destruct (AddRoot g tree r) as [[tree1 cbs1]|] eqn:Hadd; [|done].
    apply IH. by eapply addRoots_inv_AddRoot.
Qed.

(** C10: in a tree built by [AddRoot] calls from no roots and no leafs,
    adding again a root that the tree has leaves the tree as it is and
    makes no callback; and over the whole run the callbacks for a leaf
    are none, or the announcement of its items once (the latter exactly
    for the leafs of the tree). *)
Theorem AddRoot_again_and_announced_once (tree0 : RebuiltTree)
  (roots : list LogicalAddr) (tree : RebuiltTree) (cbs : list AddedItem) :
  Roots tree0 = ∅ -> Leafs tree0 = ∅ ->
  addRoots tree0 [] roots = Some (tree, cbs) ->
  (∀ rootNode, rootNode ∈ Roots tree -> AddRoot g tree rootNode = Some (tree, []))
  ∧ (∀ leaf, announced leaf cbs = [] ∨ announced leaf cbs = announce (ID tree) leaf)
  ∧ (∀ leaf, announced leaf cbs
             = if decide (leaf ∈ Leafs tree) then announce (ID tree) leaf else []).
Proof.
  intros Hroots0 Hleafs0 Hrun.
  assert (Hinv0 : addRoots_inv tree0 []).
  { split_and!; [by left | |].
    - intros l2r _ root leaf Hroot. rewrite Hroots0 in Hroot.
      by apply not_elem_of_empty in Hroot.
    - intros leaf. rewrite Hleafs0. by rewrite decide_False by apply not_elem_of_empty. }
  destruct (addRoots_inv_run _ _ _ _ _ Hinv0 Hrun) as (Hsome & Hatt & Hann).
  split_and!.
  - intros rootNode Hroot.
    destruct Hsome as [Hempty|[l2r Hl2r]].
    { rewrite Hempty in Hroot. by apply not_elem_of_empty in Hroot. }
    unfold AddRoot.
    rewrite (leafToRoots_static (setRoots tree ({[rootNode]} ∪ Roots tree)) tree)
      by (by destruct tree).
    rewrite Hl2r.
    destruct (fold_left _ _ _) as [leafs cbs1] eqn:Hfold.
    destruct (addRoot_loop _ _ _ _ _ _ _ _ Hfold) as (_ & _ & _ & _ & Hidem).
    destruct Hidem as [-> ->].
    { intros leaf Hleaf Hin. apply (Hatt l2r Hl2r rootNode leaf Hroot); [|done].
      by apply elem_of_SortedKeys in Hleaf. }
    assert (Hu : {[rootNode]} ∪ Roots tree = Roots tree).
    { apply subseteq_union_1_L. by apply singleton_subseteq_l. }
    destruct tree; simpl in *. by rewrite Hu.
  - intros leaf. rewrite Hann. destruct (decide _); auto.
  - exact Hann.
Qed.

End WithGraph.
End AddRoots.

(** ** Rebuilt trees: the fuel of indexNode

    The fuel of the embedding is enough: with [indexFuel] or more,
    [leafToRoots] is the same, so that its [None] is the panic on a loop
    of keypointers. *)

Module IndexFuel.
Import btrees.

Section WithGraph.
Variable g : pkggraph.Graph.

(** The fuel a call needs whose stack is [stack]. *)
Definition need (stack : list LogicalAddr) : nat :=
  S (size (fromNodes g ∖ list_to_set stack)).

Lemma elem_of_fromNodes node kps kp :
  pkggraph.EdgesTo g !! node = Some kps -> kp ∈ kps ->
  pkggraph.FromNode kp ∈ fromNodes g.
Proof.
  unfold fromNodes. revert node kps kp.
  apply (map_fold_weak_ind
           (fun acc (m : gmap LogicalAddr (list pkggraph.Edge)) =>
              ∀ node kps kp, m !! node = Some kps -> kp ∈ kps ->
                             pkggraph.FromNode kp ∈ acc)).
  - intros node kps kp Hl. by rewrite lookup_empty in Hl.
  - intros i x m r Hnone IH node kps kp Hl Hkp. apply elem_of_union.
    destruct (decide (i = node)) as [->|Hne].
    + rewrite lookup_insert_eq in Hl. injection Hl as ->. left.
      apply elem_of_list_to_set, list_elem_of_fmap. by exists kp.
    + rewrite lookup_insert_ne in Hl by done. right. by apply (IH node kps kp).
Qed.

Lemma need_push stack node :
  node ∈ fromNodes g -> node ∉ stack -> (need (stack ++ [node]) < need stack)%nat.
Proof.
  intros Hin Hnot. unfold need. apply -> Nat.succ_lt_mono. apply subset_size.
  split.
  - intros x [Hx Hs]%elem_of_difference. apply elem_of_difference. split; [done|].
    intros Hxs. apply Hs. apply elem_of_list_to_set, elem_of_app. left.
    by apply elem_of_list_to_set in Hxs.
  - intros Hsub. specialize (Hsub node).
    assert (Hn : node ∈ fromNodes g ∖ list_to_set stack).
    { apply elem_of_difference. split; [done|]. by rewrite elem_of_list_to_set. }
    apply Hsub, elem_of_difference in Hn as [_ Hn]. apply Hn.
    apply elem_of_list_to_set, elem_of_app. right. by apply list_elem_of_singleton.
Qed.

Lemma fold_left_ext_in {A B} (f f' : A -> B -> A) (l : list B) :
  (∀ a b, b ∈ l -> f a b = f' a b) -> ∀ a, fold_left f l a = fold_left f' l a.
Proof.
  induction l as [|b l IH]; intros Hf a; simpl; [done|].
  rewrite Hf by (by left). apply IH. intros a' b' Hb'. apply Hf. by right.
Qed.

Ltac same_fold :=
  match goal with
  | |- match fold_left ?f1 ?l ?a with _ => _ end
       = match fold_left ?f2 _ _ with _ => _ end =>
      replace (fold_left f1 l a) with (fold_left f2 l a);
      [reflexivity | symmetry; apply fold_left_ext_in]
  end.

Lemma kps_fromNodes tree node kp :
  kp ∈ filter (fun kp => nodeOwnerOK g tree (pkggraph.FromNode kp) = true)
              (default [] (pkggraph.EdgesTo g !! node)) ->
  pkggraph.FromNode kp ∈ fromNodes g.
Proof.
  intros [_ Hkp]%list_elem_of_filter.
  destruct (pkggraph.EdgesTo g !! node) as [kps|] eqn:Hl; simpl in Hkp.
  - by eapply elem_of_fromNodes.
  - by apply elem_of_nil in Hkp.
Qed.

Lemma indexNode_fuel tree fuel1 : ∀ fuel2 node index stack,
  node ∈ fromNodes g ->
  (need stack <= fuel1)%nat -> (need stack <= fuel2)%nat ->
  indexNode g fuel1 tree node index stack = indexNode g fuel2 tree node index stack.
Proof.
  induction fuel1 as [|fuel1 IH]; intros fuel2 node index stack Hnode H1 H2.
  { unfold need in H1. lia. }
  destruct fuel2 as [|fuel2]; [unfold need in H2; lia|].
  cbn [indexNode].
  destruct (bool_decide (is_Some (index !! node))); [done|].
  destruct (bool_decide (node ∈ stack)) eqn:Hstack; [done|].
  apply bool_decide_eq_false in Hstack.
  destruct (negb (nodeOwnerOK g tree node)); [done|].
  pose proof (need_push stack node Hnode Hstack) as Hpush.
  same_fold.
  intros [[index' roots]|] kp Hkp; [|done].
  rewrite (IH fuel2 (pkggraph.FromNode kp) index' (stack ++ [node]));
    [done | by eapply kps_fromNodes | lia | lia].
Qed.

Lemma indexNode_fuel_top tree fuel node index :
  (indexFuel g <= fuel)%nat ->
  indexNode g fuel tree node index [] = indexNode g (indexFuel g) tree node index [].
Proof.
  unfold indexFuel. intros Hfuel.
  destruct fuel as [|fuel]; [lia|].
  remember (S (size (fromNodes g))) as fuel0 eqn:Hfuel0.
  cbn [indexNode].
  destruct (bool_decide (is_Some (index !! node))); [done|].
  destruct (bool_decide (node ∈ [])); [done|].
  destruct (negb (nodeOwnerOK g tree node)); [done|].
  assert (Hneed : (need ([] ++ [node]) <= fuel0)%nat).
  { subst fuel0. unfold need. apply -> Nat.succ_le_mono. apply subseteq_size.
    intros x [Hx _]%elem_of_difference. done. }
  same_fold.
  intros [[index' roots]|] kp Hkp; [|done].
  rewrite (indexNode_fuel tree fuel0 fuel (pkggraph.FromNode kp) index' ([] ++ [node]));
    [done | by eapply kps_fromNodes | lia | lia].
Qed.

(** More fuel than [indexFuel] changes nothing. *)
Lemma leafToRoots_fuel tree fuel :
  (indexFuel g <= fuel)%nat -> leafToRootsFuel g fuel tree = leafToRoots g tree.
Proof.
  intros Hfuel. unfold leafToRoots, leafToRootsFuel.
  erewrite AddRoots.fold_left_ext; [reflexivity|].
  intros [index|] node; [|done]. by apply indexNode_fuel_top.
Qed.

End WithGraph.
End IndexFuel.

(** ** Rebuilt trees: Items and PotentialItems *)

Module ItemIndexes.
Import btrees.

Section WithGraph.
Variable g : pkggraph.Graph.

(** A tree together with the entries that the two caches of the
    forrest hold for it. *)
Record State := {
  stTree : RebuiltTree;
  incItems : option itemIndex;
  allItems : option itemIndex
}.

(** What happens to a tree and its cache entries: the three calls, and
    the eviction of an entry from either cache. *)
Inductive Call :=
| CallAddRoot (rootNode : LogicalAddr)
| CallItems
| CallPotentialItems
| EvictIncItems
| EvictAllItems.

Definition call (st : State) (c : Call) : option State :=
  match c with
  | CallAddRoot rootNode =>
      match AddRoot g (stTree st) rootNode with
      | None => None
      | Some (tree', _) =>
          Some {| stTree := tree'; incItems := incItems st; allItems := allItems st |}
      end
  | CallItems =>
      match Items g (stTree st) (incItems st) with
      | None => None
      | Some index =>
          Some {| stTree := stTree st; incItems := Some index; allItems := allItems st |}
      end
  | CallPotentialItems =>
      match PotentialItems g (stTree st) (allItems st) with
      | None => None
      | Some index =>
          Some {| stTree := stTree st; incItems := incItems st; allItems := Some index |}
      end
  | EvictIncItems =>
      Some {| stTree := stTree st; incItems := None; allItems := allItems st |}
  | EvictAllItems =>
      Some {| stTree := stTree st; incItems := incItems st; allItems := None |}
  end.

Fixpoint calls (st : State) (cs : list Call) : option State :=
  match cs with
  | [] => Some st
  | c :: cs' =>
      match call st c with
      | None => None
      | Some st' => calls st' cs'
      end
  end.

(** The leaf holds an item with the key. *)
Definition holds (leaf : LogicalAddr) (k : Key) : Prop :=
  k ∈ pkggraph.Items (pkggraph.node g leaf).

(** Every key of the index comes from a leaf the index has read, and
    those leafs are among [within]. *)
Definition index_sound (within : gset LogicalAddr) (index : itemIndex) : Prop :=
  ixLeafs index ⊆ within
  ∧ ∀ k, is_Some (ixItems index !! k) -> ∃ leaf, leaf ∈ ixLeafs index ∧ holds leaf k.

(** Every key of a leaf the index has read is in the index. *)
Definition index_complete (index : itemIndex) : Prop :=
  ∀ leaf k, leaf ∈ ixLeafs index -> holds leaf k -> is_Some (ixItems index !! k).

Definition state_inv (st : State) : Prop :=
  (∀ l2r, leafToRoots g (stTree st) = Some l2r -> Leafs (stTree st) ⊆ dom l2r)
  ∧ (∀ index, incItems st = Some index -> index_sound (Leafs (stTree st)) index)
  ∧ (∀ index, allItems st = Some index -> index_complete index).

Lemma itemsLeaf_spec tree leaf keys : ∀ j index index',
  itemsLeaf g tree leaf j keys index = Some index' ->
  ixLeafs index' = ixLeafs index
  ∧ ∀ k, is_Some (ixItems index' !! k) <-> is_Some (ixItems index !! k) ∨ k ∈ keys.
Proof.
  induction keys as [|itemKey keys IH]; intros j index index'; simpl.
  - intros [= <-]. split; [done|]. intros k. split; [by left|].
    by intros [?|?%elem_of_nil].
  - destruct (ixItems index !! itemKey) as [oldPtr|] eqn:Hold.
    + destruct (shouldReplace g tree (Node oldPtr) leaf) as [replace|]; [|done].
      intros Hrec. destruct (IH _ _ _ Hrec) as [Hl Hk]. simpl in *.
      split; [done|]. intros k. rewrite Hk, elem_of_cons.
      assert (Hsame : is_Some ((if replace
                                then <[itemKey := {| Node := leaf; Idx := j |}]>
                                       (ixItems index)
                                else ixItems index) !! k)
                      <-> is_Some (ixItems index !! k)).
      { destruct replace; [|done].
        destruct (decide (itemKey = k)) as [<-|Hne].
        - rewrite lookup_insert_eq, Hold. split; by eauto.
        - by rewrite lookup_insert_ne. }
      rewrite Hsame. split; [tauto|].
      intros [?|[->|?]]; [by left | | by right]. left. rewrite Hold. by eauto.
    + intros Hrec. destruct (IH _ _ _ Hrec) as [Hl Hk]. simpl in *.
      split; [done|]. intros k. rewrite Hk, elem_of_cons.
      destruct (decide (itemKey = k)) as [<-|Hne].
      * rewrite lookup_insert_eq. split; [by auto|]. intros _. left. by eauto.
      * rewrite lookup_insert_ne by done. split; [tauto|].
        intros [?|[->|?]]; [by left | done | by right].
Qed.

Lemma itemsStep_spec tree index leaf index' :
  itemsStep g tree (Some index) leaf = Some index' ->
  ixLeafs index' = {[leaf]} ∪ ixLeafs index
  ∧ (∀ within, leaf ∈ within -> index_sound within index -> index_sound within index')
  ∧ (index_complete index -> index_complete index').
Proof.
  unfold itemsStep. destruct (bool_decide (leaf ∈ ixLeafs index)) eqn:Hin.
  - apply bool_decide_eq_true in Hin. intros [= <-]. split_and!; auto.
    symmetry. apply subseteq_union_1_L. by apply singleton_subseteq_l.
  - apply bool_decide_eq_false in Hin. intros Hleaf.
    apply itemsLeaf_spec in Hleaf as [Hl Hk]. simpl in *.
    split_and!; [done| |].
    + intros within Hw [Hsub Hsound]. split.
      * rewrite Hl. apply union_subseteq. split; [by apply singleton_subseteq_l | done].
      * intros k [Hk'|Hk']%Hk.
        -- destruct (Hsound k Hk') as (leaf' & Hleaf' & Hh). exists leaf'.
           split; [|done]. rewrite Hl. apply elem_of_union. by right.
        -- exists leaf. split; [|done]. rewrite Hl. apply elem_of_union. left.
           by apply elem_of_singleton.
    + intros Hcomp leaf' k Hleaf' Hh. apply Hk.
      rewrite Hl in Hleaf'. apply elem_of_union in Hleaf' as [->%elem_of_singleton|Hleaf'].
      * by right.
      * left. by apply (Hcomp leaf').
Qed.

Lemma items_None tree leafs : fold_left (itemsStep g tree) leafs None = None.
Proof. by induction leafs. Qed.

Lemma items_fold_spec tree leafs : ∀ index index',
  fold_left (itemsStep g tree) leafs (Some index) = Some index' ->
  (∀ leaf, leaf ∈ leafs -> leaf ∈ ixLeafs index')
  ∧ (∀ within, (∀ leaf, leaf ∈ leafs -> leaf ∈ within) ->
               index_sound within index -> index_sound within index')
  ∧ (index_complete index -> index_complete index').
Proof.
  induction leafs as [|leaf leafs IH]; intros index index'; cbn [fold_left].
  - intros [= <-]. split_and!; auto. by intros leaf ?%elem_of_nil.
  - destruct (itemsStep g tree (Some index) leaf) as [index1|] eqn:Hstep;
      [|by rewrite items_None].
    intros Hfold. destruct (IH _ _ Hfold) as (Hin & Hsound & Hcomp).
    destruct (itemsStep_spec _ _ _ _ Hstep) as (Hl1 & Hsound1 & Hcomp1).
    split_and!.
    + intros leaf' [->|Hleaf']%elem_of_cons; [|by auto].
      assert (Hsub : ∀ index2 leafs2,
                 fold_left (itemsStep g tree) leafs2 (Some index1) = Some index2 ->
                 ixLeafs index1 ⊆ ixLeafs index2).
      { clear. intros index2 leafs2. revert index1.
        induction leafs2 as [|l ls IHl]; intros index1; cbn [fold_left].
        - by intros [= <-].
        - destruct (itemsStep g tree (Some index1) l) as [index3|] eqn:Hs;
            [|by rewrite items_None].
          intros Hf. etrans; [|by apply (IHl _ Hf)].
          apply itemsStep_spec in Hs as (-> & _). apply union_subseteq_r. }
      apply (Hsub _ _ Hfold). rewrite Hl1. apply elem_of_union. left.
      by apply elem_of_singleton.
    + intros within Hw Hs. apply Hsound; [intros l Hl; apply Hw; by right|].
      apply Hsound1; [apply Hw; by left | done].
    + intros Hc. by apply Hcomp, Hcomp1.
Qed.

Lemma index_sound_new within : index_sound within newItemIndex.
Proof.
  split; simpl; [apply empty_subseteq|].
  intros k [ptr Hptr]. by rewrite lookup_empty in Hptr.
Qed.

Lemma index_complete_new : index_complete newItemIndex.
Proof. intros leaf k Hleaf. simpl in Hleaf. by apply not_elem_of_empty in Hleaf. Qed.

Lemma items_spec tree cache leafs index' :
  items g tree cache leafs = Some index' ->
  (∀ leaf, leaf ∈ leafs -> leaf ∈ ixLeafs index')
  ∧ (∀ within, (∀ leaf, leaf ∈ leafs -> leaf ∈ within) ->
               (∀ index, cache = Some index -> index_sound within index) ->
               index_sound within index')
  ∧ ((∀ index, cache = Some index -> index_complete index) -> index_complete index').
Proof.
  unfold items. intros Hfold.
  destruct (items_fold_spec _ _ _ _ Hfold) as (Hin & Hsound & Hcomp).
  split_and!; [done| |].
  - intros within Hw Hc. apply Hsound; [done|].
    destruct cache as [index|]; simpl; [by apply Hc | apply index_sound_new].
  - intros Hc. apply Hcomp.
    destruct cache as [index|]; simpl; [by apply Hc | apply index_complete_new].
Qed.

Lemma state_inv_call st c st' : state_inv st -> call st c = Some st' -> state_inv st'.
Proof.
  intros (Hleafs & Hinc & Hall). destruct c as [rootNode| | | |]; simpl.
  - destruct (AddRoot g (stTree st) rootNode) as [[tree' cbs]|] eqn:Hadd; [|done].
    intros [= <-]; unfold state_inv; cbn [stTree incItems allItems].
    destruct (AddRoots.AddRoot_Some g _ _ _ _ Hadd) as (l2r & Hl2r & Hst & _ & Hfold).
    pose proof (AddRoots.leafToRoots_static g _ _ Hst) as Hl2r'. rewrite Hl2r in Hl2r'.
    destruct (AddRoots.addRoot_loop g _ _ _ _ _ _ _ _ Hfold) as (Hmono & _ & Hfrom & _).
    split_and!; [| |done].
    + intros l2r0 Hl2r0. rewrite <- Hl2r' in Hl2r0. injection Hl2r0 as <-.
      intros leaf [Hleaf|Hleaf]%Hfrom.
      * by apply (Hleafs l2r Hl2r).
      * by apply AddRoots.elem_of_SortedKeys in Hleaf.
    + intros index Hindex. destruct (Hinc index Hindex) as [Hsub Hsound].
      split; [by etrans | done].
  - destruct (Items g (stTree st) (incItems st)) as [index|] eqn:Hitems; [|done].
    intros [= <-]; unfold state_inv; cbn [stTree incItems allItems]. split_and!; [done| |done].
    intros index' [= <-]. unfold Items in Hitems.
    apply items_spec in Hitems as (_ & Hsound & _). apply Hsound; [|done].
    intros leaf Hleaf. by apply AddRoots.elem_of_SortedKeys in Hleaf.
  - destruct (PotentialItems g (stTree st) (allItems st)) as [index|] eqn:Hitems; [|done].
    intros [= <-]; unfold state_inv; cbn [stTree incItems allItems]. split_and!; [done|done|].
    intros index' [= <-]. unfold PotentialItems in Hitems.
    destruct (leafToRoots g (stTree st)); [|done].
    apply items_spec in Hitems as (_ & _ & Hcomp). by apply Hcomp.
  - intros [= <-]; unfold state_inv; cbn [stTree incItems allItems]. by split_and!.
  - intros [= <-]; unfold state_inv; cbn [stTree incItems allItems]. by split_and!.
Qed.

Lemma state_inv_calls cs : ∀ st st',
  state_inv st -> calls st cs = Some st' -> state_inv st'.
Proof.
  induction cs as [|c cs IH]; simpl; intros st st' Hinv.
  - by intros [= <-].
  - destruct (call st c) as [st1|] eqn:Hcall; [|done].
    apply IH. by eapply state_inv_call.
Qed.

(** C4, as amended: for a tree that starts without leafs and goes
    through any calls of [AddRoot], [Items] and [PotentialItems] and any
    evictions from the two caches, every key of the index that [Items]
    returns is a key of the index that [PotentialItems] returns. *)
Theorem Items_keys_in_PotentialItems (tree0 : RebuiltTree) (cs : list Call) (st : State)
  (inc all : itemIndex) (k : Key) :
  Leafs tree0 = ∅ ->
  calls {| stTree := tree0; incItems := None; allItems := None |} cs = Some st ->
  Items g (stTree st) (incItems st) = Some inc ->
  PotentialItems g (stTree st) (allItems st) = Some all ->
  is_Some (ixItems inc !! k) -> is_Some (ixItems all !! k).
Proof.
  intros Hleafs0 Hcalls Hitems Hpot Hk.
  assert (Hinv0 : state_inv {| stTree := tree0; incItems := None; allItems := None |}).
  { split_and!; simpl; [|done|done].
    intros l2r _. rewrite Hleafs0. apply empty_subseteq. }
  destruct (state_inv_calls _ _ _ Hinv0 Hcalls) as (Hleafs & Hinc & Hall).
  unfold Items in Hitems. apply items_spec in Hitems as (_ & Hsound & _).
  destruct (Hsound (Leafs (stTree st))) as [Hsub Hkeys]; [|done|].
  { intros leaf Hleaf. by apply AddRoots.elem_of_SortedKeys in Hleaf. }
  destruct (Hkeys k Hk) as (leaf & Hleaf & Hholds).
  unfold PotentialItems in Hpot.
  destruct (leafToRoots g (stTree st)) as [l2r|] eqn:Hl2r; [|done].
  apply items_spec in Hpot as (Hin & _ & Hcomp).
  apply (Hcomp Hall leaf k); [|done].
  apply Hin, AddRoots.elem_of_SortedKeys, (Hleafs l2r eq_refl), Hsub, Hleaf.
Qed.

End WithGraph.
End ItemIndexes.

(** Two orphan leafs of tree 5 holding the same key, the second of a
    later generation. *)
Definition dupKey : Key := mkKey 256 1 0.

Definition dupGraph : pkggraph.Graph :=
  {| pkggraph.Nodes :=
       {[ 100 := {| pkggraph.Level := 0; pkggraph.Generation := 10;
                    pkggraph.Owner := 5; pkggraph.Items := [dupKey] |};
          200 := {| pkggraph.Level := 0; pkggraph.Generation := 20;
                    pkggraph.Owner := 5; pkggraph.Items := [dupKey] |} ]};
     pkggraph.EdgesTo := ∅ |}.

Definition dupTree0 : btrees.RebuiltTree := btrees.mkTree 5 None 0 ∅ ∅.

(** The tree after [AddRoot(100)]. *)
Definition dupTree : btrees.RebuiltTree := btrees.mkTree 5 None 0 {[100]} {[100]}.

(** The indexes that [Items] and [PotentialItems] return for it. *)
Definition dupInc : btrees.itemIndex :=
  default btrees.newItemIndex (btrees.Items dupGraph dupTree None).

Definition dupAll : btrees.itemIndex :=
  default btrees.newItemIndex (btrees.PotentialItems dupGraph dupTree None).

(** C4 (the claim fails): after [AddRoot(100)], [Items] maps the key to
    slot 0 of leaf 100, the only attached leaf, and [PotentialItems]
    maps it to slot 0 of leaf 200, whose generation is higher. *)
Lemma Items_PotentialItems_pointers_differ :
  btrees.AddRoot dupGraph dupTree0 100
    = Some (dupTree, [{| btrees.aiLeaf := 100; btrees.aiTree := 5;
                         btrees.aiKey := dupKey |}])
  ∧ (btrees.ixItems <$> btrees.Items dupGraph dupTree None)
    = Some {[ dupKey := {| Node := 100; Idx := 0 |} ]}
  ∧ (btrees.ixItems <$> btrees.PotentialItems dupGraph dupTree None)
    = Some {[ dupKey := {| Node := 200; Idx := 0 |} ]}
  ∧ ¬ (∀ inc all ptr,
         btrees.Items dupGraph dupTree None = Some inc ->
         btrees.PotentialItems dupGraph dupTree None = Some all ->
         btrees.ixItems inc !! dupKey = Some ptr ->
         btrees.ixItems all !! dupKey = Some ptr).
Proof.
  split_and!; [vm_compute; reflexivity ..|].
  intros H.
  assert (Hinc : btrees.Items dupGraph dupTree None = Some dupInc)
    by (vm_compute; reflexivity).
  assert (Hall : btrees.PotentialItems dupGraph dupTree None = Some dupAll)
    by (vm_compute; reflexivity).
  assert (Hptr : btrees.ixItems dupInc !! dupKey = Some {| Node := 100; Idx := 0 |})
    by (vm_compute; reflexivity).
  specialize (H dupInc dupAll _ Hinc Hall Hptr).
  vm_compute in H. discriminate H.
Qed.

(** ** The theorems at concrete inputs *)

(** A decidable statement about concrete values, settled by evaluating
    its decision procedure. *)
Ltac by_evaluation := refine (bool_decide_unpack _ _); vm_compute; exact I.

(** The RAID mask of the block group flags, bits 3 to 10, and the
    flag RAID1. *)
Definition raidMask : BlockGroupFlags := 0x7f8.
Definition flagRAID1 : BlockGroupFlags := 0x10.

(** Two chunks on device 1. *)
Definition twoChunksOps : list Op :=
  [OpAddPhysicalVolume 1 nullVolume;
   OpAddMapping (mapping 0 1 0 0x1000 false None);
   OpAddMapping (mapping 0x2000 1 0x2000 0x1000 false None)].

Definition twoChunks : LogicalVolume :=
  default newLogicalVolume (run raidMask false newLogicalVolume twoChunksOps).

Definition chunkAt (laddr : LogicalAddr) : chunkMapping.t :=
  {| chunkMapping.LAddr := laddr; chunkMapping.PAddrs := [{| Dev := 1; Addr := laddr |}];
     chunkMapping.Size := 0x1000; chunkMapping.SizeLocked := false;
     chunkMapping.Flags := None |}.

Lemma chunk_ranges_disjoint_witness :
  run raidMask false newLogicalVolume twoChunksOps = Some twoChunks
  ∧ chunkAt 0 ∈ chunks twoChunks ∧ chunkAt 0x2000 ∈ chunks twoChunks
  ∧ ¬ (chunkMapping.LAddr (chunkAt 0) <= 0x10
         < chunkMapping.LAddr (chunkAt 0) + chunkMapping.Size (chunkAt 0)
       ∧ chunkMapping.LAddr (chunkAt 0x2000) <= 0x10
         < chunkMapping.LAddr (chunkAt 0x2000) + chunkMapping.Size (chunkAt 0x2000)).
Proof.
  assert (H1 : run raidMask false newLogicalVolume twoChunksOps = Some twoChunks)
    by (vm_compute; reflexivity).
  assert (H2 : chunkAt 0 ∈ chunks twoChunks)
    by by_evaluation.
  assert (H3 : chunkAt 0x2000 ∈ chunks twoChunks)
    by by_evaluation.
  assert (H4 : is_int64 (chunkMapping.LAddr (chunkAt 0) + chunkMapping.Size (chunkAt 0)))
    by by_evaluation.
  assert (H5 : is_int64 (chunkMapping.LAddr (chunkAt 0x2000)
                         + chunkMapping.Size (chunkAt 0x2000)))
    by by_evaluation.
  split_and!; [exact H1 | exact H2 | exact H3 |].
  apply (chunk_ranges_disjoint raidMask false twoChunksOps twoChunks
           (chunkAt 0) (chunkAt 0x2000) 0x10 H1 H2 H3); [discriminate | exact H4 | exact H5].
Defined.

(** C5 (the claim as stated fails): two chunks at the top of the
    address space.  The end of the first passes the [int64] maximum
    and wraps in [cmpRange], so the second is found not to overlap it
    and is stored beside it; address [2^63-11] lies in the range
    [laddr, laddr+size) of both. *)
Definition topOps : list Op :=
  [OpAddPhysicalVolume 1 nullVolume;
   OpAddMapping (mapping 0x7ffffffffffffff0 1 0 0x100 false None);
   OpAddMapping (mapping 0x7ffffffffffffff5 1 0x1000 5 false None)].

Definition topChunks : LogicalVolume :=
  default newLogicalVolume (run raidMask false newLogicalVolume topOps).

Lemma chunk_ranges_overlap_at_the_top :
  run raidMask false newLogicalVolume topOps = Some topChunks
  ∧ chunks topChunks = [chunkOf (mapping 0x7ffffffffffffff0 1 0 0x100 false None);
                        chunkOf (mapping 0x7ffffffffffffff5 1 0x1000 5 false None)]
  ∧ (0x7ffffffffffffff0 <= 0x7ffffffffffffff5 < 0x7ffffffffffffff0 + 0x100)
  ∧ (0x7ffffffffffffff5 <= 0x7ffffffffffffff5 < 0x7ffffffffffffff5 + 5)
  ∧ ¬ (∀ c1 c2 x, c1 ∈ chunks topChunks -> c2 ∈ chunks topChunks -> c1 ≠ c2 ->
         ¬ (chunkMapping.LAddr c1 <= x < chunkMapping.LAddr c1 + chunkMapping.Size c1
            ∧ chunkMapping.LAddr c2 <= x
              < chunkMapping.LAddr c2 + chunkMapping.Size c2)).
Proof.
  assert (Hc : chunks topChunks
               = [chunkOf (mapping 0x7ffffffffffffff0 1 0 0x100 false None);
                  chunkOf (mapping 0x7ffffffffffffff5 1 0x1000 5 false None)])
    by (vm_compute; reflexivity).
  split; [vm_compute; reflexivity|]. split; [exact Hc|].
  split; [lia|]. split; [lia|].
  intros H.
  apply (H (chunkOf (mapping 0x7ffffffffffffff0 1 0 0x100 false None))
           (chunkOf (mapping 0x7ffffffffffffff5 1 0x1000 5 false None))
           0x7ffffffffffffff5).
  - rewrite Hc. by left.
  - rewrite Hc. right. by left.
  - discriminate.
  - simpl. lia.
Qed.

(** The size-locked chunk [0, 0x1000) on device 1. *)
Definition lockedEngine : LogicalVolume :=
  fst (AddMapping raidMask false engine1 (mapping 0 1 0 0x1000 true None)).

Lemma conflict_leaves_engine_unchanged_witness :
  AddMapping raidMask false lockedEngine (mapping 0x800 1 0x800 0x1000 true None)
    = (lockedEngine, Err ErrSizeLockedConflict)
  ∧ lockedEngine = init lockedEngine.
Proof.
  assert (H : AddMapping raidMask false lockedEngine (mapping 0x800 1 0x800 0x1000 true None)
              = (lockedEngine, Err ErrSizeLockedConflict))
    by (vm_compute; reflexivity).
  split; [exact H|].
  exact (proj1 (proj1 conflict_leaves_engine_unchanged raidMask false lockedEngine
                  (mapping 0x800 1 0x800 0x1000 true None) lockedEngine
                  ErrSizeLockedConflict H eq_refl)).
Defined.

Lemma AddMapping_again_is_refused_witness :
  Z.land 1 raidMask = 0
  ∧ snd (AddMapping raidMask false
           (fst (AddMapping raidMask false engine1 (mapping 0 1 0 0x1000 false (Some 1))))
           (mapping 0x800 1 0x900 0x1000 false (Some 1))) = Ok tt.
Proof.
  split; [reflexivity|].
  exact (proj1 (AddMapping_again_is_refused raidMask eq_refl)).
Defined.

(** A RAID1 chunk with one stripe on each of two devices, the devices
    holding the same bytes. *)
Definition zeroVolume : PhysicalVolume := {| pvReadAt := fun n _ => Some (replicate n x00) |}.

Definition mirrorOps : list Op :=
  [OpAddPhysicalVolume 1 zeroVolume;
   OpAddPhysicalVolume 2 zeroVolume;
   OpAddMapping (mapping 0 1 0 0x1000 false (Some flagRAID1));
   OpAddMapping (mapping 0 2 0 0x1000 false (Some flagRAID1))].

Definition mirror : LogicalVolume :=
  default newLogicalVolume (run raidMask false newLogicalVolume mirrorOps).





Lemma devext_conflict_is_never_reported_witness :
  devextMapping.union (devextOf (mapping 0 1 0 0x1000 false None))
                      [devextOf (mapping 0 1 0x2000 0x1000 false None)]
    = Err ErrDontOverlap
  ∧ ErrDontOverlap ≠ ErrDevExtConflict.
Proof.
  assert (H : devextMapping.union (devextOf (mapping 0 1 0 0x1000 false None))
                [devextOf (mapping 0 1 0x2000 0x1000 false None)] = Err ErrDontOverlap)
    by (vm_compute; reflexivity).
  split; [exact H|].
  exact (proj1 devext_conflict_is_never_reported _ _ _ H).
Defined.

Definition mirrorStripes : gset QualifiedPhysicalAddr := fst (Resolve mirror 0x10).
Definition mirrorMaxlen : AddrDelta := snd (Resolve mirror 0x10).

(** The last byte of the mirrored chunk: of a buffer of two bytes one
    is covered. *)
Definition lastStripes : gset QualifiedPhysicalAddr := fst (Resolve mirror 0xfff).
Definition lastMaxlen : AddrDelta := snd (Resolve mirror 0xfff).

Lemma ReadAt_replicated_stripes_witness :
  (2 <= size lastStripes)%nat
  ∧ lastMaxlen = 1
  ∧ maybeShortReadAt mirror (elements lastStripes) [x01; x02] 0xfff = Ok [x00].
Proof.
  assert (H1 : Resolve mirror 0xfff = (lastStripes, lastMaxlen))
    by (vm_compute; reflexivity).
  assert (H2 : elements lastStripes ≡ₚ elements lastStripes) by reflexivity.
  assert (H3 : (2 <= size lastStripes)%nat) by by_evaluation.
  assert (H4 : 0 <= lastMaxlen) by by_evaluation.
  assert (H5 : Forall (fun p => stripeBytes mirror 1 p = Some [x00])
                      (elements lastStripes)) by by_evaluation.
  assert (H6 : ∀ p, p ∈ lastStripes -> stripeBytes mirror 1 p = Some [x00]).
  { intros p Hp. apply elem_of_elements in Hp.
    exact (proj1 (Forall_forall _ _) H5 p Hp). }
  split; [exact H3|]. split; [vm_compute; reflexivity|].
  refine (proj1 (proj2 (ReadAt_replicated_stripes mirror (elements lastStripes)
                          [x01; x02] 0xfff lastStripes lastMaxlen H1 H2 H3 H4 _))
                [x00] H6).
  intros p Hp. exists [x00]. exact (H6 p Hp).
Defined.

(** C9 (the claim as stated fails): a mirrored chunk at the lowest
    address with size [-1].  Its end wraps to the highest address, so
    the lowest address resolves to its two stripes, and to the length
    [-1]: cutting the buffer to that length is the Go panic for a slice
    bound out of range, so the read returns neither the error nor the
    bytes on which the two devices agree. *)
Definition lowOps : list Op :=
  [OpAddPhysicalVolume 1 zeroVolume;
   OpAddPhysicalVolume 2 zeroVolume;
   OpAddMapping (mapping (-0x8000000000000000) 1 0 (-1) false (Some flagRAID1));
   OpAddMapping (mapping (-0x8000000000000000) 2 0 (-1) false (Some flagRAID1))].

Definition lowMirror : LogicalVolume :=
  default newLogicalVolume (run raidMask false newLogicalVolume lowOps).

Lemma ReadAt_panics_on_negative_length :
  run raidMask false newLogicalVolume lowOps = Some lowMirror
  ∧ Resolve lowMirror (-0x8000000000000000)
    = ({[ {| Dev := 1; Addr := 0 |}; {| Dev := 2; Addr := 0 |} ]}, -1)
  ∧ stripeBytes lowMirror 1 {| Dev := 1; Addr := 0 |} = Some [x00]
  ∧ stripeBytes lowMirror 1 {| Dev := 2; Addr := 0 |} = Some [x00]
  ∧ maybeShortReadAt lowMirror [{| Dev := 1; Addr := 0 |}; {| Dev := 2; Addr := 0 |}]
                     [x01] (-0x8000000000000000) = Panic
  ∧ ReadAt 1 lowMirror (fun _ => [{| Dev := 1; Addr := 0 |}; {| Dev := 2; Addr := 0 |}])
           [x01] (-0x8000000000000000) = Panic
  ∧ ¬ (∀ b, (∀ p, p ∈ fst (Resolve lowMirror (-0x8000000000000000)) ->
                  stripeBytes lowMirror 1 p = Some b) ->
            ReadAt 1 lowMirror
                   (fun _ => [{| Dev := 1; Addr := 0 |}; {| Dev := 2; Addr := 0 |}])
                   [x01] (-0x8000000000000000) = Ok b).
Proof.
  assert (Hr : ReadAt 1 lowMirror
                 (fun _ => [{| Dev := 1; Addr := 0 |}; {| Dev := 2; Addr := 0 |}])
                 [x01] (-0x8000000000000000) = Panic) by (vm_compute; reflexivity).
  split; [vm_compute; reflexivity|]. split; [vm_compute; reflexivity|].
  split; [vm_compute; reflexivity|]. split; [vm_compute; reflexivity|].
  split; [vm_compute; reflexivity|]. split; [exact Hr|].
  intros H. specialize (H [x00]). rewrite Hr in H.
  assert (Hb : Forall (fun p => stripeBytes lowMirror 1 p = Some [x00])
                      (elements (fst (Resolve lowMirror (-0x8000000000000000)))))
    by by_evaluation.
  discriminate H. intros p Hp. apply elem_of_elements in Hp.
  exact (proj1 (Forall_forall _ _) Hb p Hp).
Qed.

(** An internal node 300 of tree 5 with the leafs 100 and 200 below it,
    and an orphan leaf 400. *)
Definition familyGraph : pkggraph.Graph :=
  {| pkggraph.Nodes :=
       {[ 100 := {| pkggraph.Level := 0; pkggraph.Generation := 10;
                    pkggraph.Owner := 5; pkggraph.Items := [mkKey 256 1 0; mkKey 256 12 256] |};
          200 := {| pkggraph.Level := 0; pkggraph.Generation := 10;
                    pkggraph.Owner := 5; pkggraph.Items := [mkKey 257 1 0] |};
          300 := {| pkggraph.Level := 1; pkggraph.Generation := 10;
                    pkggraph.Owner := 5; pkggraph.Items := [] |};
          400 := {| pkggraph.Level := 0; pkggraph.Generation := 9;
                    pkggraph.Owner := 5; pkggraph.Items := [mkKey 258 1 0] |} ]};
     pkggraph.EdgesTo :=
       {[ 100 := [{| pkggraph.FromNode := 300; pkggraph.ToNode := 100 |}];
          200 := [{| pkggraph.FromNode := 300; pkggraph.ToNode := 200 |}] ]} |}.

Definition familyTree : btrees.RebuiltTree :=
  btrees.mkTree 5 None 0 {[300; 400]} {[100; 200; 400]}.

Definition familyAnnounced : list btrees.AddedItem :=
  [{| btrees.aiLeaf := 100; btrees.aiTree := 5; btrees.aiKey := mkKey 256 1 0 |};
   {| btrees.aiLeaf := 100; btrees.aiTree := 5; btrees.aiKey := mkKey 256 12 256 |};
   {| btrees.aiLeaf := 200; btrees.aiTree := 5; btrees.aiKey := mkKey 257 1 0 |};
   {| btrees.aiLeaf := 400; btrees.aiTree := 5; btrees.aiKey := mkKey 258 1 0 |}].

Lemma AddRoot_again_and_announced_once_witness :
  AddRoots.addRoots familyGraph dupTree0 [] [300; 400; 300]
    = Some (familyTree, familyAnnounced)
  ∧ btrees.AddRoot familyGraph familyTree 300 = Some (familyTree, []).
Proof.
  assert (H : AddRoots.addRoots familyGraph dupTree0 [] [300; 400; 300]
              = Some (familyTree, familyAnnounced)) by (vm_compute; reflexivity).
  split; [exact H|].
  refine (proj1 (AddRoots.AddRoot_again_and_announced_once familyGraph dupTree0
                   [300; 400; 300] familyTree familyAnnounced eq_refl eq_refl H) 300 _).
  by_evaluation.
Defined.

Definition dupState : ItemIndexes.State :=
  {| ItemIndexes.stTree := dupTree; ItemIndexes.incItems := None;
     ItemIndexes.allItems := None |}.

Lemma Items_keys_in_PotentialItems_witness :
  is_Some (btrees.ixItems dupInc !! dupKey) ∧ is_Some (btrees.ixItems dupAll !! dupKey).
Proof.
  assert (H1 : ItemIndexes.calls dupGraph
                 {| ItemIndexes.stTree := dupTree0; ItemIndexes.incItems := None;
                    ItemIndexes.allItems := None |}
                 [ItemIndexes.CallAddRoot 100] = Some dupState)
    by (vm_compute; reflexivity).
  assert (H2 : btrees.Items dupGraph dupTree None = Some dupInc)
    by (vm_compute; reflexivity).
  assert (H3 : btrees.PotentialItems dupGraph dupTree None = Some dupAll)
    by (vm_compute; reflexivity).
  assert (H4 : is_Some (btrees.ixItems dupInc !! dupKey)) by by_evaluation.
  split; [exact H4|].
  exact (ItemIndexes.Items_keys_in_PotentialItems dupGraph dupTree0
           [ItemIndexes.CallAddRoot 100] dupState dupInc dupAll dupKey
           eq_refl H1 H2 H3 H4).
Defined.

(** * Further properties of the mapping engine *)

(** ** The dev-extent index *)

(** X1: in every state the engine reaches, two distinct dev-extent
    mappings of one device, the end [paddr + size] of each within
    [int64], have no physical address in common: their ranges
    [paddr, paddr + size) are disjoint. *)
Theorem devext_ranges_disjoint mask paranoid (ops : list Op) (lv : LogicalVolume)
  (dev : DeviceID) (e1 e2 : devextMapping.t) (x : PhysicalAddr) :
  run mask paranoid newLogicalVolume ops = Some lv ->
  e1 ∈ devexts lv dev -> e2 ∈ devexts lv dev -> e1 ≠ e2 ->
  is_int64 (devextMapping.PAddr e1 + devextMapping.Size e1) ->
  is_int64 (devextMapping.PAddr e2 + devextMapping.Size e2) ->
  ¬ (devextMapping.PAddr e1 <= x < devextMapping.PAddr e1 + devextMapping.Size e1
     ∧ devextMapping.PAddr e2 <= x < devextMapping.PAddr e2 + devextMapping.Size e2).
Proof.
  intros Hrun H1 H2 Hne Hb1 Hb2.
  destruct (engine_ok_run _ _ _ _ _ engine_ok_new Hrun) as [_ Hexts].
  destruct (Hexts dev) as [_ Hdis].
  pose proof (Hdis e1 e2 H1 H2 Hne x) as Hx.
  unfold inside, devextStop, Add in Hx. by rewrite !wrap64_id in Hx.
Qed.

Definition devextAt (paddr : PhysicalAddr) : devextMapping.t :=
  {| devextMapping.PAddr := paddr; devextMapping.LAddr := paddr;
     devextMapping.Size := 0x1000; devextMapping.SizeLocked := false;
     devextMapping.Flags := None |}.

Lemma devext_ranges_disjoint_witness :
  devextAt 0 ∈ devexts twoChunks 1 ∧ devextAt 0x2000 ∈ devexts twoChunks 1
  ∧ ¬ (devextMapping.PAddr (devextAt 0) <= 0x10
       < devextMapping.PAddr (devextAt 0) + devextMapping.Size (devextAt 0)
       ∧ devextMapping.PAddr (devextAt 0x2000) <= 0x10
         < devextMapping.PAddr (devextAt 0x2000) + devextMapping.Size (devextAt 0x2000)).
Proof.
  assert (H1 : run raidMask false newLogicalVolume twoChunksOps = Some twoChunks)
    by (vm_compute; reflexivity).
  assert (H2 : devextAt 0 ∈ devexts twoChunks 1) by by_evaluation.
  assert (H3 : devextAt 0x2000 ∈ devexts twoChunks 1) by by_evaluation.
  assert (H4 : devextAt 0 ≠ devextAt 0x2000) by discriminate.
  assert (H5 : is_int64 (devextMapping.PAddr (devextAt 0) + devextMapping.Size (devextAt 0)))
    by by_evaluation.
  assert (H6 : is_int64 (devextMapping.PAddr (devextAt 0x2000)
                         + devextMapping.Size (devextAt 0x2000)))
    by by_evaluation.
  split; [exact H2|]. split; [exact H3|].
  exact (devext_ranges_disjoint raidMask false twoChunksOps twoChunks 1
           (devextAt 0) (devextAt 0x2000) 0x10 H1 H2 H3 H4 H5 H6).
Defined.

(** ** The errors of addMapping and the dry run *)

Lemma chunk_lockedLoop_err retSize chunks : ∀ locked e,
  chunkMapping.lockedLoop retSize locked chunks = Err e -> e = ErrSizeLockedConflict.
Proof.
  induction chunks as [|c chunks IH]; simpl; intros locked e; [done|].
  destruct (chunkMapping.SizeLocked c); [|by apply IH].
  destruct (negb _); [by intros [= <-] | by apply IH].
Qed.

Lemma chunk_flagsLoop_err chunks : ∀ retFlags e,
  chunkMapping.flagsLoop retFlags chunks = Err e -> e = ErrFlagsConflict.
Proof.
  induction chunks as [|c chunks IH]; simpl; intros retFlags e; [done|].
  destruct (chunkMapping.Flags c); [|by apply IH].
  destruct (negb _); [by intros [= <-] | by apply IH].
Qed.

Lemma chunk_lockedLoop_no_panic retSize chunks : ∀ locked,
  chunkMapping.lockedLoop retSize locked chunks ≠ Panic.
Proof.
  induction chunks as [|c chunks IH]; simpl; intros locked; [done|].
  destruct (chunkMapping.SizeLocked c); [|by apply IH].
  destruct (negb _); [done | by apply IH].
Qed.

Lemma chunk_flagsLoop_no_panic chunks : ∀ retFlags,
  chunkMapping.flagsLoop retFlags chunks ≠ Panic.
Proof.
  induction chunks as [|c chunks IH]; simpl; intros retFlags; [done|].
  destruct (chunkMapping.Flags c); [|by apply IH].
  destruct (negb _); [done | by apply IH].
Qed.

(** The union of a value with values that overlap it does not fail
    the sanity check. *)
Lemma chunk_union_overlaps_err (a : chunkMapping.t) (t : list chunkMapping.t) e :
  chunkMapping.union a (RBTree.Subrange (chunkMapping.cmpRange a) t) = Err e ->
  e = ErrSizeLockedConflict ∨ e = ErrFlagsConflict.
Proof.
  unfold chunkMapping.union.
  assert (Hall : forallb (fun chunk => chunkMapping.cmpRange a chunk =? 0)
                         (RBTree.Subrange (chunkMapping.cmpRange a) t) = true).
  { apply forallb_forall. intros c Hc. apply list_elem_of_In in Hc.
    unfold RBTree.Subrange in Hc. apply list_elem_of_filter in Hc as [Hc _].
    by apply Z.eqb_eq. }
  rewrite Hall. simpl negb. cbv iota.
  destruct (chunkMapping.rangeLoop _ _) as [beg end_].
  destruct (chunkMapping.lockedLoop _ _ _) as [locked|e'|] eqn:Hl; [| |done].
  - destruct (chunkMapping.flagsLoop _ _) as [flags|e'|] eqn:Hf; [done| |done].
    intros [= <-]. right. by eapply chunk_flagsLoop_err.
  - intros [= <-]. left. by eapply chunk_lockedLoop_err.
Qed.

Lemma devext_union_overlaps_err (a : devextMapping.t) (t : list devextMapping.t) e :
  devextMapping.union a (RBTree.Subrange (devextMapping.cmpRange a) t) = Err e ->
  e = ErrSizeLockedConflict ∨ e = ErrFlagsConflict.
Proof.
  unfold devextMapping.union.
  assert (Hall : forallb (fun ext => devextMapping.cmpRange a ext =? 0)
                         (RBTree.Subrange (devextMapping.cmpRange a) t) = true).
  { apply forallb_forall. intros c Hc. apply list_elem_of_In in Hc.
    unfold RBTree.Subrange in Hc. apply list_elem_of_filter in Hc as [Hc _].
    by apply Z.eqb_eq. }
  rewrite Hall. simpl negb. cbv iota.
  destruct (devextMapping.rangeLoop _ _) as [beg end_].
  destruct (devextMapping.lockedLoop _ _ _) as [locked|e'|] eqn:Hl; [| |done].
  - destruct (laddrLoop_first_never_fails
                (a :: RBTree.Subrange (devextMapping.cmpRange a) t) beg 0) as [laddr ->].
    destruct (devextMapping.flagsLoop _ _) as [flags|e'|] eqn:Hf; [done| |done].
    intros [= <-]. right. by eapply devext_flagsLoop_err.
  - intros [= <-]. left. by eapply devext_lockedLoop_err.
Qed.

Lemma fsck_err lv e : fsck lv = Err e -> e = ErrFsckNoVolume ∨ e = ErrFsckSkew.
Proof.
  unfold fsck. destruct (fsckScan lv) as [p2l|e'|] eqn:Hs; [| |done].
  - destruct (negb _); [intros [= <-]; by right|].
    destruct (negb _); [intros [= <-]; by right | done].
  - intros [= <-]. left. by eapply fsckScan_err.
Qed.

(** X2: the errors [addMapping] can return.  It reports a missing
    physical volume exactly when the device of the mapping is not
    registered; for a registered device the error is a size-lock or
    flags conflict or the refusal of multiple stripes, or, with
    PARANOID set and after the trees are written, an error of [fsck].
    It never reports "chunks don't overlap" nor the dev-extent
    conflict. *)
Theorem addMapping_errors mask paranoid lv m dryRun lv' e :
  addMapping mask paranoid lv m dryRun = (lv', Err e) ->
  (id2pv lv !! Dev (mPAddr m) = None ∧ e = ErrNoPhysicalVolume)
  ∨ (is_Some (id2pv lv !! Dev (mPAddr m))
     ∧ (e = ErrSizeLockedConflict ∨ e = ErrFlagsConflict ∨ e = ErrMultipleStripes
        ∨ (paranoid = true ∧ dryRun = false
           ∧ (e = ErrFsckNoVolume ∨ e = ErrFsckSkew)))).
Proof.
  unfold addMapping.
  change {| chunkMapping.LAddr := mLAddr m; chunkMapping.PAddrs := [mPAddr m];
            chunkMapping.Size := mSize m; chunkMapping.SizeLocked := mSizeLocked m;
            chunkMapping.Flags := mFlags m |} with (chunkOf m).
  change {| devextMapping.PAddr := Addr (mPAddr m); devextMapping.LAddr := mLAddr m;
            devextMapping.Size := mSize m; devextMapping.SizeLocked := mSizeLocked m;
            devextMapping.Flags := mFlags m |} with (devextOf m).
  cbv zeta. change (id2pv (init lv)) with (id2pv lv).
  destruct (id2pv lv !! Dev (mPAddr m)) as [pv|] eqn:Hpv;
    [|intros [= <- <-]; by left].
  intros H. right. split; [by eexists|]. revert H.
  destruct (chunkMapping.union _ _) as [newChunk|e'|] eqn:Hc; [| |done].
  2:{ intros [= <- <-]. apply chunk_union_overlaps_err in Hc. tauto. }
  destruct (devextMapping.union _ _) as [newExt|e'|] eqn:He; [| |done].
  2:{ intros [= <- <-]. apply devext_union_overlaps_err in He. tauto. }
  destruct (negb _); [done|].
  match goal with
  | |- context [match ?chk with Ok _ => _ | Err _ => _ | Panic => _ end] =>
      destruct chk as [?|e'|] eqn:Hchk; [| |done]
  end.
  2:{ intros [= <- <-]. right. right. left.
      destruct (_ =? _)%nat; [done|]. destruct (_ <? _)%nat; [|done].
      destruct (chunkMapping.Flags newChunk); [|done].
      destruct (_ =? 0); [|done]. by injection Hchk as <-. }
  destruct dryRun; [done|].
  destruct (_ && _); [done|].
  destruct paranoid; [|done].
  destruct (fsck _) as [[]|e'|] eqn:Hf; [done| |done].
  intros [= <- <-]. apply fsck_err in Hf. tauto.
Qed.

Lemma addMapping_errors_witness :
  AddMapping raidMask false newLogicalVolume (mapping 0 1 0 0x1000 false None)
    = (init newLogicalVolume, Err ErrNoPhysicalVolume)
  ∧ id2pv newLogicalVolume !! 1 = None.
Proof.
  assert (H : AddMapping raidMask false newLogicalVolume (mapping 0 1 0 0x1000 false None)
              = (init newLogicalVolume, Err ErrNoPhysicalVolume))
    by (vm_compute; reflexivity).
  split; [exact H|].
  destruct (addMapping_errors raidMask false newLogicalVolume
              (mapping 0 1 0 0x1000 false None) false _ _ H) as [[Hnone _]|[Hsome Herr]].
  - exact Hnone.
  - exfalso. destruct Herr as [Herr|[Herr|[Herr|(Herr & _)]]]; discriminate Herr.
Defined.

(** X3: a dry run decides what the real run returns.  [CouldAddMapping]
    leaves the engine as [init] leaves it, whatever PARANOID is; it
    answers true when [AddMapping], PARANOID unset, returns no error,
    false when that returns an error, and panics when that panics. *)
Theorem CouldAddMapping_agrees mask paranoid lv m :
  fst (CouldAddMapping mask paranoid lv m) = init lv
  ∧ snd (CouldAddMapping mask paranoid lv m)
    = match snd (AddMapping mask false lv m) with
      | Ok _ => Ok true
      | Err _ => Ok false
      | Panic => Panic
      end.
Proof.
  unfold CouldAddMapping, AddMapping, addMapping.
  cbv zeta.
  destruct (id2pv (init lv) !! Dev (mPAddr m)); [|by split].
  destruct (chunkMapping.union _ _) as [newChunk|e'|]; [|by split ..].
  destruct (devextMapping.union _ _) as [newExt|e'|]; [|by split ..].
  destruct (negb _); [by split|].
  match goal with
  | |- context [match ?chk with Ok _ => _ | Err _ => _ | Panic => _ end] =>
      destruct chk as [[]|e'|]; [|by split ..]
  end.
  destruct (_ && _); by split.
Qed.

(** * Further properties of the rebuilt trees *)

Module TreeFacts.
Import btrees.

(** Induction along the chain of parents. *)
Lemma parent_chain_ind (P : RebuiltTree -> Prop) :
  (∀ id parentGen roots leafs, P (mkTree id None parentGen roots leafs)) ->
  (∀ id parent parentGen roots leafs,
     P parent -> P (mkTree id (Some parent) parentGen roots leafs)) ->
  ∀ tree, P tree.
Proof.
  intros Hroot Hchild. fix IH 1.
  intros [id [parent|] parentGen roots leafs]; [apply Hchild, IH | apply Hroot].
Qed.

(** X4: [isOwnerOK] accepts the tree's own id at every generation, and
    an owner it accepts at one generation it accepts at every lower
    one. *)
Theorem isOwnerOK_lower_generation (tree : RebuiltTree) (owner : ObjID)
  (gen gen' : Generation) :
  isOwnerOK tree (ID tree) gen = true
  ∧ (isOwnerOK tree owner gen = true -> gen' <= gen ->
     isOwnerOK tree owner gen' = true).
Proof.
  split.
  - destruct tree as [id parent parentGen roots leafs]; simpl. by rewrite Z.eqb_refl.
  - induction tree as [id parentGen roots leafs|id parent parentGen roots leafs IH]
      using parent_chain_ind; simpl.
    + by destruct (owner =? id).
    + destruct (owner =? id); [done|].
      destruct (Z.geb_spec gen parentGen) as [|Hlt]; [done|].
      intros Hok Hle. destruct (Z.geb_spec gen' parentGen) as [|_]; [lia|].
      by apply IH.
Qed.

Lemma isOwnerOK_lower_generation_witness :
  isOwnerOK OwnerOK.tree257 256 9 = true ∧ isOwnerOK OwnerOK.tree257 256 3 = true.
Proof.
  assert (H : isOwnerOK OwnerOK.tree257 256 9 = true) by reflexivity.
  split; [exact H|].
  apply (proj2 (isOwnerOK_lower_generation OwnerOK.tree257 256 9 3) H). lia.
Defined.

(** The chain of a tree: itself, then its ancestors. *)
Definition chain (tree : RebuiltTree) : list RebuiltTree :=
  tree :: OwnerOK.ancestors tree.

Lemma COWDistance_loop_find (tree : RebuiltTree) (parentID : ObjID) : ∀ dist,
  COWDistance_loop tree parentID dist
  = match list_find (fun t => ID t = parentID) (chain tree) with
    | Some (i, _) => (dist + Z.of_nat i, true)
    | None => (0, false)
    end.
Proof.
  induction tree as [id parentGen roots leafs|id parent parentGen roots leafs IH]
    using parent_chain_ind; intros dist.
  - unfold chain; simpl.
    destruct (Z.eqb_spec parentID id) as [->|Hne].
    + rewrite decide_True by done. f_equal. lia.
    + by rewrite decide_False by (simpl; congruence).
  - change (chain (mkTree id (Some parent) parentGen roots leafs))
      with (mkTree id (Some parent) parentGen roots leafs :: chain parent).
    cbn [COWDistance_loop list_find].
    destruct (Z.eqb_spec parentID id) as [->|Hne].
    + rewrite decide_True by done. f_equal. lia.
    + rewrite decide_False by (simpl; congruence).
      rewrite IH.
      destruct (list_find _ (chain parent)) as [[i t]|];
        cbn -[Z.of_nat]; [f_equal; lia | done].
Qed.

(** X5: [COWDistance] is the position of the nearest tree of that id
    on the chain of parents, counted from the tree itself, and it
    reports (0, false) when the chain has no tree of that id. *)
Theorem COWDistance_nearest (tree : RebuiltTree) (parentID : ObjID) :
  COWDistance tree parentID
  = match list_find (fun t => ID t = parentID) (chain tree) with
    | Some (i, _) => (Z.of_nat i, true)
    | None => (0, false)
    end.
Proof. unfold COWDistance. by rewrite COWDistance_loop_find. Qed.

(** X6: an owner that [isOwnerOK] accepts is the id of the tree or of
    one of its ancestors, so [COWDistance] finds it, at a distance of
    at most the number of ancestors. *)
Theorem isOwnerOK_COWDistance (tree : RebuiltTree) (owner : ObjID) (gen : Generation) :
  isOwnerOK tree owner gen = true ->
  snd (COWDistance tree owner) = true
  ∧ 0 <= fst (COWDistance tree owner) <= Z.of_nat (length (OwnerOK.ancestors tree)).
Proof.
  intros Hok. rewrite COWDistance_nearest.
  assert (Hex : ∃ t, t ∈ chain tree ∧ ID t = owner).
  { revert Hok.
    induction tree as [id parentGen roots leafs|id parent parentGen roots leafs IH]
      using parent_chain_ind; unfold chain; simpl.
    - destruct (Z.eqb_spec owner id) as [->|]; [|done].
      intros _. eexists. split; [left|done].
    - destruct (Z.eqb_spec owner id) as [->|].
      + intros _. eexists. split; [left|done].
      + destruct (gen >=? parentGen); [done|]. intros Hok.
        destruct (IH Hok) as (t & Ht & Hid). exists t. split; [by right | done]. }
  destruct Hex as (t & Ht & Hid).
  destruct (list_find _ (chain tree)) as [[i t']|] eqn:Hfind.
  - apply list_find_Some in Hfind as (Hi & _ & _). simpl.
    apply lookup_lt_Some in Hi. unfold chain in Hi. simpl in Hi. split; [done|lia].
  - apply list_find_None in Hfind.
    exfalso. by eapply (proj1 (Forall_forall _ _) Hfind t Ht).
Qed.

Lemma isOwnerOK_COWDistance_witness :
  isOwnerOK OwnerOK.tree257 256 9 = true ∧ COWDistance OwnerOK.tree257 256 = (1, true).
Proof.
  assert (H : isOwnerOK OwnerOK.tree257 256 9 = true) by reflexivity.
  split; [exact H|].
  pose proof (isOwnerOK_COWDistance OwnerOK.tree257 256 9 H) as [Hok _].
  apply injective_projections; [reflexivity | exact Hok].
Defined.

(** X7: [shouldReplace] never prefers each of two leafs over the
    other: it answers "replace" for (old, new) exactly when it answers
    "retain" for (new, old), and it panics for one order exactly when
    it panics for the other. *)
Theorem shouldReplace_antisymmetric (g : pkggraph.Graph) (tree : RebuiltTree)
  (a b : LogicalAddr) :
  (shouldReplace g tree a b = Some true <-> shouldReplace g tree b a = Some false)
  ∧ (shouldReplace g tree a b = None <-> shouldReplace g tree b a = None).
Proof.
  unfold shouldReplace.
  set (da := fst (COWDistance tree (pkggraph.Owner (pkggraph.node g a)))).
  set (db := fst (COWDistance tree (pkggraph.Owner (pkggraph.node g b)))).
  set (ga := pkggraph.Generation (pkggraph.node g a)).
  set (gb := pkggraph.Generation (pkggraph.node g b)).
  unfold Z.gtb.
  destruct (Z.ltb_spec db da), (Z.ltb_spec da db),
    (Z.compare_spec db da), (Z.compare_spec da db),
    (Z.compare_spec gb ga), (Z.compare_spec ga gb),
    (Z.ltb_spec gb ga), (Z.ltb_spec ga gb);
    try lia; split; split; congruence.
Qed.

End TreeFacts.

(** * Further properties of the old rebuilt forrest *)

Module CheckOwnerFacts.
Import btrfsutil.

(** X8: failing open only turns errors into acceptance.  With
    [failOpen] the check never reports that it could not determine the
    answer, and whatever the strict check accepts the fail-open check
    accepts, given the same forrest. *)
Theorem TreeCheckOwner_fail_open (fuel : nat) (forrest : OldRebuiltForrest)
  (tree : oldRebuiltTree) (owner : ObjID) (gen : Generation) :
  TreeCheckOwner fuel forrest tree true owner gen ≠ Some (Err ErrOwnerUndetermined)
  ∧ (TreeCheckOwner fuel forrest tree false owner gen = Some (Ok tt) ->
     TreeCheckOwner fuel forrest tree true owner gen = Some (Ok tt)).
Proof.
  revert tree. induction fuel as [|fuel IH]; intros tree; simpl; [by split|].
  destruct (owner =? ID tree); [by split|].
  destruct (ParentUUID tree =? 0); [by split|].
  destruct (gen >? ParentGen tree); [by split|].
  destruct (RootErr (RebuiltTree forrest UUID_TREE_OBJECTID)); [by split|].
  destruct (treeLookupUUID forrest (ParentUUID tree)) as [|objID|]; [by split| |by split].
  destruct (RootErr (RebuiltTree forrest objID)); [by split|].
  apply IH.
Qed.

Lemma TreeCheckOwner_fail_open_witness :
  TreeCheckOwner 3 OwnerOK.oldForrest (RebuiltTree OwnerOK.oldForrest 257) false 256 10
    = Some (Ok tt)
  ∧ TreeCheckOwner 3 OwnerOK.oldForrest (RebuiltTree OwnerOK.oldForrest 257) true 256 10
    = Some (Ok tt).
Proof.
  assert (H : TreeCheckOwner 3 OwnerOK.oldForrest (RebuiltTree OwnerOK.oldForrest 257)
                false 256 10 = Some (Ok tt)) by reflexivity.
  split; [exact H|].
  exact (proj2 (TreeCheckOwner_fail_open 3 OwnerOK.oldForrest
                  (RebuiltTree OwnerOK.oldForrest 257) 256 10) H).
Defined.

(** X9: an owner and generation that [TreeCheckOwner] accepts it also
    accepts at every lower generation; the generation equal to the
    parent generation is within the accepted ones. *)
Theorem TreeCheckOwner_lower_generation (fuel : nat) (forrest : OldRebuiltForrest)
  (tree : oldRebuiltTree) (failOpen : bool) (owner : ObjID) (gen gen' : Generation) :
  TreeCheckOwner fuel forrest tree failOpen owner gen = Some (Ok tt) ->
  gen' <= gen ->
  TreeCheckOwner fuel forrest tree failOpen owner gen' = Some (Ok tt).
Proof.
  intros Hok Hle. revert tree Hok.
  induction fuel as [|fuel IH]; intros tree; simpl; [done|].
  destruct (owner =? ID tree); [done|].
  destruct (ParentUUID tree =? 0); [done|].
  unfold Z.gtb.
  destruct (Z.compare_spec gen (ParentGen tree)) as [Heq|Hlt|Hgt]; [| |done];
    (destruct (Z.compare_spec gen' (ParentGen tree)); [| |lia]);
    (destruct (RootErr (RebuiltTree forrest UUID_TREE_OBJECTID)); [done|]);
    (destruct (treeLookupUUID forrest (ParentUUID tree)) as [|objID|]; [done| |done]);
    (destruct (RootErr (RebuiltTree forrest objID)); [done|]); apply IH.
Qed.

Lemma TreeCheckOwner_lower_generation_witness :
  TreeCheckOwner 3 OwnerOK.oldForrest (RebuiltTree OwnerOK.oldForrest 257) false 256 10
    = Some (Ok tt)
  ∧ TreeCheckOwner 3 OwnerOK.oldForrest (RebuiltTree OwnerOK.oldForrest 257) false 256 4
    = Some (Ok tt).
Proof.
  assert (H : TreeCheckOwner 3 OwnerOK.oldForrest (RebuiltTree OwnerOK.oldForrest 257)
                false 256 10 = Some (Ok tt)) by reflexivity.
  split; [exact H|].
  apply (TreeCheckOwner_lower_generation 3 OwnerOK.oldForrest
           (RebuiltTree OwnerOK.oldForrest 257) false 256 10 4 H). lia.
Defined.

End CheckOwnerFacts.

(** * Further properties of the unions *)

(** The order of [QualifiedPhysicalAddr.Cmp]: by device, then by
    address. *)
Definition qlt (p q : QualifiedPhysicalAddr) : Prop :=
  Dev p < Dev q ∨ (Dev p = Dev q ∧ Addr p < Addr q).

Lemma QCmp_lt p q : QCmp p q <? 0 = true <-> qlt p q.
Proof.
  unfold QCmp, qlt.
  destruct (Z.ltb_spec (Dev p) (Dev q)); [split; [lia | done]|].
  destruct (Z.ltb_spec (Dev q) (Dev p)); [split; [done | lia]|].
  destruct (Z.ltb_spec (Addr p) (Addr q)); [split; [lia | done]|].
  destruct (Z.ltb_spec (Addr q) (Addr p)); split; try done; lia.
Qed.

Lemma QCmp_eq p q : QCmp p q =? 0 = true <-> p = q.
Proof.
  unfold QCmp. destruct p as [d1 a1], q as [d2 a2]; simpl.
  destruct (Z.ltb_spec d1 d2); [split; [done | intros [=]; lia]|].
  destruct (Z.ltb_spec d2 d1); [split; [done | intros [=]; lia]|].
  destruct (Z.ltb_spec a1 a2); [split; [done | intros [=]; lia]|].
  destruct (Z.ltb_spec a2 a1); [split; [done | intros [=]; lia]|].
  split; [intros _; f_equal; lia | done].
Qed.

Lemma qlt_trans p q r : qlt p q -> qlt q r -> qlt p r.
Proof. unfold qlt. lia. Qed.

Lemma elem_of_paddrsInsert k x s : x ∈ paddrsInsert k s <-> x = k ∨ x ∈ s.
Proof.
  induction s as [|y s IH]; simpl.
  - rewrite list_elem_of_singleton. split; [by left | intros [|?%elem_of_nil]; done].
  - destruct (QCmp k y <? 0) eqn:Hlt; [by rewrite elem_of_cons|].
    destruct (QCmp k y =? 0) eqn:Heq.
    + apply QCmp_eq in Heq as ->. rewrite elem_of_cons. tauto.
    + rewrite !elem_of_cons, IH. tauto.
Qed.

Lemma paddrsInsert_sorted k s :
  StronglySorted qlt s -> StronglySorted qlt (paddrsInsert k s).
Proof.
  induction s as [|y s IH]; simpl; intros Hs.
  - repeat constructor.
  - apply StronglySorted_inv in Hs as [Hs Hy].
    destruct (QCmp k y <? 0) eqn:Hlt.
    + apply QCmp_lt in Hlt. constructor; [by constructor|].
      constructor; [done|]. eapply Forall_impl; [exact Hy|].
      intros z Hz. by eapply qlt_trans.
    + destruct (QCmp k y =? 0) eqn:Heq; [by constructor|].
      constructor; [by apply IH|].
      apply Forall_forall. intros z [->|Hz]%elem_of_paddrsInsert.
      * assert (Hne : k ≠ y) by (intros ->; by rewrite (proj2 (QCmp_eq y y)) in Heq).
        assert (Hnlt : ¬ qlt k y) by (rewrite <- QCmp_lt; congruence).
        unfold qlt in *. destruct k as [d1 a1], y as [d2 a2]; simpl in *.
        destruct (decide (d2 < d1)); [by left|]. right.
        assert (d1 = d2) as -> by lia. split; [done|].
        destruct (decide (a2 < a1)); [done|]. exfalso. apply Hne. f_equal; lia.
      * by eapply (proj1 (Forall_forall _ _) Hy).
Qed.

(** The stripe of a member of a union as the union holds it: moved back
    by the offset of the member within the union. *)
Definition backStripe (retLAddr : LogicalAddr) (c : chunkMapping.t)
  (s : QualifiedPhysicalAddr) : QualifiedPhysicalAddr :=
  {| Dev := Dev s;
     Addr := Add (Addr s) (wrap64 (- Sub (chunkMapping.LAddr c) retLAddr)) |}.

Lemma stripesOf_spec retLAddr c : ∀ acc,
  StronglySorted qlt acc ->
  StronglySorted qlt (chunkMapping.stripesOf retLAddr c acc)
  ∧ ∀ p, p ∈ chunkMapping.stripesOf retLAddr c acc
         <-> p ∈ acc ∨ ∃ s, s ∈ chunkMapping.PAddrs c ∧ p = backStripe retLAddr c s.
Proof.
  unfold chunkMapping.stripesOf.
  induction (chunkMapping.PAddrs c) as [|s ss IH]; intros acc Hacc; simpl.
  - split; [done|]. intros p. split; [by left|].
    intros [?|(s & ?%elem_of_nil & _)]; done.
  - destruct (IH (paddrsInsert (backStripe retLAddr c s) acc)) as [Hs Hm].
    { by apply paddrsInsert_sorted. }
    split; [exact Hs|]. intros p. unfold backStripe in Hm at 1. rewrite Hm.
    rewrite elem_of_paddrsInsert. split.
    + intros [[->|Hp]|(s' & Hs' & ->)]; [right|by left|right].
      * exists s. split; [by left | done].
      * exists s'. split; [by right | done].
    + intros [Hp|(s' & [->|Hs']%elem_of_cons & ->)]; [by left; right| by left; left|].
      right. by exists s'.
Qed.

Lemma stripesLoop_spec retLAddr chunks :
  StronglySorted qlt (chunkMapping.stripesLoop retLAddr chunks)
  ∧ ∀ p, p ∈ chunkMapping.stripesLoop retLAddr chunks
         <-> ∃ c s, c ∈ chunks ∧ s ∈ chunkMapping.PAddrs c ∧ p = backStripe retLAddr c s.
Proof.
  unfold chunkMapping.stripesLoop.
  assert (H : ∀ acc, StronglySorted qlt acc ->
            StronglySorted qlt
              (fold_left (fun paddrs chunk => chunkMapping.stripesOf retLAddr chunk paddrs)
                         chunks acc)
            ∧ ∀ p, p ∈ fold_left (fun paddrs chunk =>
                                    chunkMapping.stripesOf retLAddr chunk paddrs) chunks acc
                   <-> p ∈ acc ∨ ∃ c s, c ∈ chunks ∧ s ∈ chunkMapping.PAddrs c
                                        ∧ p = backStripe retLAddr c s).
  { induction chunks as [|c chunks IH]; intros acc Hacc; simpl.
    - split; [done|]. intros p. split; [by left|].
      intros [?|(c & s & ?%elem_of_nil & _)]; done.
    - destruct (stripesOf_spec retLAddr c acc Hacc) as [Hs Hm].
      destruct (IH _ Hs) as [Hs' Hm']. split; [exact Hs'|].
      intros p. rewrite Hm', Hm. split.
      + intros [[Hp|(s & Hs0 & ->)]|(c' & s & Hc' & Hs0 & ->)]; [by left|right|right].
        * exists c, s. split; [by left | done].
        * exists c', s. split; [by right | done].
      + intros [Hp|(c' & s & [->|Hc']%elem_of_cons & Hs0 & ->)];
          [by left; left | left; right; by exists s |].
        right. by exists c', s. }
  destruct (H [] (SSorted_nil _)) as [Hs Hm]. split; [exact Hs|].
  intros p. rewrite Hm. split; [|by right].
  intros [?%elem_of_nil|?]; done.
Qed.

(** X10: the stripes of a union are the stripes of its members, each
    moved back by the offset of its member within the union, in
    ascending order of (device, address) and without duplicates. *)
Theorem chunk_union_stripes (a u : chunkMapping.t) (rest : list chunkMapping.t) :
  chunkMapping.union a rest = Ok u ->
  StronglySorted qlt (chunkMapping.PAddrs u)
  ∧ ∀ p, p ∈ chunkMapping.PAddrs u
         <-> ∃ c s, c ∈ a :: rest ∧ s ∈ chunkMapping.PAddrs c
                    ∧ p = backStripe (chunkMapping.LAddr u) c s.
Proof.
  unfold chunkMapping.union. destruct (negb _); [done|].
  destruct (chunkMapping.rangeLoop _ _) as [beg end_].
  destruct (chunkMapping.lockedLoop _ _ _); [|done..].
  destruct (chunkMapping.flagsLoop _ _); [|done..].
  intros [= <-]. cbn [chunkMapping.PAddrs chunkMapping.LAddr].
  apply stripesLoop_spec.
Qed.

Definition unionExample : chunkMapping.t :=
  {| chunkMapping.LAddr := 0;
     chunkMapping.PAddrs := [{| Dev := 1; Addr := 0x800 |}; {| Dev := 1; Addr := 0x1000 |}];
     chunkMapping.Size := 0x1800; chunkMapping.SizeLocked := false;
     chunkMapping.Flags := None |}.

Lemma chunk_union_stripes_witness :
  chunkMapping.union (chunkOf (mapping 0x800 1 0x1000 0x1000 false None))
                     [chunkOf (mapping 0 1 0x1000 0x1000 false None)] = Ok unionExample
  ∧ StronglySorted qlt (chunkMapping.PAddrs unionExample).
Proof.
  assert (H : chunkMapping.union (chunkOf (mapping 0x800 1 0x1000 0x1000 false None))
                [chunkOf (mapping 0 1 0x1000 0x1000 false None)] = Ok unionExample)
    by (vm_compute; reflexivity).
  split; [exact H|].
  exact (proj1 (chunk_union_stripes _ _ _ H)).
Defined.

Lemma hull_bounds {T} (start stop : T -> Z) (items : list T) : ∀ beg end_ beg' end',
  hull start stop items (beg, end_) = (beg', end') ->
  beg' <= beg ∧ end_ <= end'
  ∧ ∀ c, c ∈ items -> beg' <= start c ∧ stop c <= end'.
Proof.
  induction items as [|c items IH]; intros beg end_ beg' end'; simpl.
  - intros [= <- <-]. split_and!; [lia | lia |]. by intros c ?%elem_of_nil.
  - intros Hh. apply IH in Hh as (Hb & He & Hall).
    rewrite Min_spec in Hb. rewrite Max_spec in He.
    split_and!; [lia | lia |].
    intros c' [->|Hc']%elem_of_cons; [lia | by apply Hall].
Qed.

(** X11: a union covers its members: it starts at or before each of
    them and ends at or after each of them, the ends as [cmpRange]
    computes them. *)
Theorem chunk_union_covers (a u : chunkMapping.t) (rest : list chunkMapping.t)
  (c : chunkMapping.t) :
  chunkMapping.union a rest = Ok u -> c ∈ a :: rest ->
  chunkMapping.LAddr u <= chunkMapping.LAddr c ∧ chunkStop c <= chunkStop u.
Proof.
  intros Hu Hc. apply chunk_union_range in Hu. symmetry in Hu.
  apply hull_bounds in Hu as (_ & _ & Hall). by apply Hall.
Qed.

Lemma chunk_union_covers_witness :
  chunkMapping.LAddr unionExample <= 0x800
  ∧ chunkStop (chunkOf (mapping 0x800 1 0x1000 0x1000 false None)) <= chunkStop unionExample.
Proof.
  assert (H : chunkMapping.union (chunkOf (mapping 0x800 1 0x1000 0x1000 false None))
                [chunkOf (mapping 0 1 0x1000 0x1000 false None)] = Ok unionExample)
    by (vm_compute; reflexivity).
  apply (chunk_union_covers _ _ _ (chunkOf (mapping 0x800 1 0x1000 0x1000 false None)) H).
  by left.
Defined.

Lemma chunk_lockedLoop_Ok retSize chunks : ∀ locked locked',
  chunkMapping.lockedLoop retSize locked chunks = Ok locked' ->
  (locked' = true <-> locked = true ∨ ∃ c, c ∈ chunks ∧ chunkMapping.SizeLocked c = true)
  ∧ ∀ c, c ∈ chunks -> chunkMapping.SizeLocked c = true -> chunkMapping.Size c = retSize.
Proof.
  induction chunks as [|c chunks IH]; intros locked locked'; simpl.
  - intros [= <-]. split.
    + split; [by left|]. intros [?|(c & ?%elem_of_nil & _)]; done.
    + by intros c ?%elem_of_nil.
  - destruct (chunkMapping.SizeLocked c) eqn:Hc.
    + destruct (Z.eqb_spec retSize (chunkMapping.Size c)) as [Heq|]; [|done]. simpl.
      intros [Hiff Hall]%IH. split.
      * rewrite Hiff. split; [|tauto]. intros _. right. exists c. split; [by left|done].
      * intros c' [->|Hc']%elem_of_cons; [done | by apply Hall].
    + intros [Hiff Hall]%IH. split.
      * rewrite Hiff. split.
        -- intros [?|(c' & Hc' & Hl)]; [by left|]. right. exists c'. split; [by right|done].
        -- intros [?|(c' & [->|Hc']%elem_of_cons & Hl)]; [by left|congruence|].
           right. by exists c'.
      * intros c' [->|Hc']%elem_of_cons; [congruence | by apply Hall].
Qed.

Lemma chunk_flagsLoop_Ok chunks : ∀ retFlags flags,
  chunkMapping.flagsLoop retFlags chunks = Ok flags ->
  (∀ f, retFlags = Some f -> flags = Some f)
  ∧ (∀ c f, c ∈ chunks -> chunkMapping.Flags c = Some f -> flags = Some f)
  ∧ (∀ f, flags = Some f ->
          retFlags = Some f ∨ ∃ c, c ∈ chunks ∧ chunkMapping.Flags c = Some f).
Proof.
  induction chunks as [|c chunks IH]; intros retFlags flags; simpl.
  - intros [= <-]. split_and!; [done | by intros c f ?%elem_of_nil | by left].
  - destruct (chunkMapping.Flags c) as [f|] eqn:Hc.
    + destruct retFlags as [f0|]; simpl.
      * destruct (decide (Some f0 = Some f)) as [[= ->]|Hne].
        -- rewrite bool_decide_eq_true_2 by done. simpl.
           intros (H1 & H2 & H3)%IH. split_and!; [done| |].
           ++ intros c' f' [->|Hc']%elem_of_cons Hf; [|by eapply H2].
              rewrite Hc in Hf. injection Hf as <-. by apply H1.
           ++ intros f' Hf'. destruct (H3 f' Hf') as [?|(c' & Hc' & Hf)]; [by left|].
              right. exists c'. split; [by right|done].
        -- by rewrite bool_decide_eq_false_2 by done.
      * rewrite bool_decide_eq_true_2 by done. simpl.
        intros (H1 & H2 & H3)%IH. split_and!; [done| |].
        -- intros c' f' [->|Hc']%elem_of_cons Hf; [|by eapply H2].
           rewrite Hc in Hf. injection Hf as <-. by apply H1.
        -- intros f' Hf'. right. destruct (H3 f' Hf') as [[= ->]|(c' & Hc' & Hf)].
           ++ exists c. split; [by left|done].
           ++ exists c'. split; [by right|done].
    + intros (H1 & H2 & H3)%IH. split_and!; [done| |].
      * intros c' f' [->|Hc']%elem_of_cons Hf; [congruence | by eapply H2].
      * intros f' Hf'. destruct (H3 f' Hf') as [?|(c' & Hc' & Hf)]; [by left|].
        right. exists c'. split; [by right|done].
Qed.

(** X12: the members of a union agree with it.  The union is size
    locked exactly when one of its members is, every size-locked member
    has the size of the union, and every member that has flags has the
    flags of the union, which come from some member. *)
Theorem chunk_union_agrees (a u : chunkMapping.t) (rest : list chunkMapping.t) :
  chunkMapping.union a rest = Ok u ->
  (chunkMapping.SizeLocked u = true
   <-> ∃ c, c ∈ a :: rest ∧ chunkMapping.SizeLocked c = true)
  ∧ (∀ c, c ∈ a :: rest -> chunkMapping.SizeLocked c = true ->
          chunkMapping.Size c = chunkMapping.Size u)
  ∧ (∀ c f, c ∈ a :: rest -> chunkMapping.Flags c = Some f ->
            chunkMapping.Flags u = Some f)
  ∧ (∀ f, chunkMapping.Flags u = Some f ->
          ∃ c, c ∈ a :: rest ∧ chunkMapping.Flags c = Some f).
Proof.
  unfold chunkMapping.union. destruct (negb _); [done|].
  destruct (chunkMapping.rangeLoop _ _) as [beg end_].
  destruct (chunkMapping.lockedLoop _ _ _) as [locked| |] eqn:Hl; [|done..].
  destruct (chunkMapping.flagsLoop _ _) as [flags| |] eqn:Hf; [|done..].
  intros [= <-]. cbn [chunkMapping.SizeLocked chunkMapping.Size chunkMapping.Flags].
  apply chunk_lockedLoop_Ok in Hl as [Hiff Hsize].
  apply chunk_flagsLoop_Ok in Hf as (_ & Hflags & Hfrom).
  split_and!; [|done|done|].
  - rewrite Hiff. split; [|by right]. by intros [?|?].
  - intros f Hfl. by destruct (Hfrom f Hfl).
Qed.

Definition lockedExample : chunkMapping.t :=
  {| chunkMapping.LAddr := 0; chunkMapping.PAddrs := [{| Dev := 1; Addr := 0 |}];
     chunkMapping.Size := 0x1000; chunkMapping.SizeLocked := true;
     chunkMapping.Flags := Some 1 |}.

Lemma chunk_union_agrees_witness :
  chunkMapping.union (chunkOf (mapping 0x800 1 0x800 0x800 false None))
                     [chunkOf (mapping 0 1 0 0x1000 true (Some 1))] = Ok lockedExample
  ∧ chunkMapping.Flags lockedExample = Some 1.
Proof.
  assert (H : chunkMapping.union (chunkOf (mapping 0x800 1 0x800 0x800 false None))
                [chunkOf (mapping 0 1 0 0x1000 true (Some 1))] = Ok lockedExample)
    by (vm_compute; reflexivity).
  split; [exact H|].
  apply (proj1 (proj2 (proj2 (chunk_union_agrees _ _ _ H)))
           (chunkOf (mapping 0 1 0 0x1000 true (Some 1))) 1); [|reflexivity].
  right. by left.
Defined.

(** * The order of the chunk index, [Mappings] and [Size] *)

(** [Mappings()]: one entry for each stripe of each chunk, in the
    order [Range] visits the index; [SizeLocked] is not copied. *)
Definition Mappings (lv : LogicalVolume) : list Mapping :=
  flat_map (fun chunk =>
              map (fun slice =>
                     {| mLAddr := chunkMapping.LAddr chunk; mPAddr := slice;
                        mSize := chunkMapping.Size chunk; mSizeLocked := false;
                        mFlags := chunkMapping.Flags chunk |})
                  (chunkMapping.PAddrs chunk))
           (RBTree.Range (chunks lv)).

(** [Size()]: the state [init] leaves and the end of the last chunk,
    [0] for an empty index. *)
Definition Size (lv : LogicalVolume) : LogicalVolume * LogicalAddr :=
  let lv := init lv in
  (lv,
   match RBTree.Max (chunks lv) with
   | None => 0
   | Some lastChunk =>
       Add (chunkMapping.LAddr lastChunk) (chunkMapping.Size lastChunk)
   end).

Section Sorted.
Context {T : Type} (start : T -> Z).

Definition key_lt (a b : T) : Prop := start a < start b.

Lemma key_sorted_NoDup (t : list T) :
  StronglySorted key_lt t -> NoDup (map start t).
Proof.
  induction 1 as [|a t Hs IH Ha]; simpl; constructor; [|done].
  intros (b & Hb & Hin)%list_elem_of_fmap.
  rewrite Forall_forall in Ha. specialize (Ha b Hin). unfold key_lt in Ha. lia.
Qed.

Lemma sorted_sublist (R : relation T) (s t : list T) :
  sublist s t -> StronglySorted R t -> StronglySorted R s.
Proof.
  induction 1 as [|x s t Hsub IH|x s t Hsub IH]; intros Ht; [done| |].
  - apply StronglySorted_inv in Ht as [Ht Hx]. constructor; [by apply IH|].
    rewrite Forall_forall in Hx |- *. intros y Hy. apply Hx.
    by eapply elem_of_sublist.
  - apply StronglySorted_inv in Ht as [Ht _]. by apply IH.
Qed.

Lemma insertOrdered_sorted (u : T) (t : list T) :
  (∀ v, v ∈ t -> start v ≠ start u) -> StronglySorted key_lt t ->
  StronglySorted key_lt (RBTree.insertOrdered (cmpKey start) u t).
Proof.
  induction t as [|v t IH]; simpl; intros Hne Hs.
  - repeat constructor.
  - apply StronglySorted_inv in Hs as [Hs Hv].
    assert (Hvu : start v ≠ start u) by (apply Hne; by left).
    unfold cmpKey at 1.
    destruct (Z.ltb_spec (start u) (start v)) as [Hlt|Hge]; simpl.
    + constructor; [by constructor|]. constructor; [done|].
      eapply Forall_impl; [exact Hv|]. unfold key_lt. intros; lia.
    + assert (Hlt : start v < start u) by lia.
      destruct (Z.ltb_spec (start v) (start u)) as [Hlt'|Hge']; simpl; [|lia].
      constructor.
      * apply IH; [|done]. intros w Hw. apply Hne. by right.
      * rewrite Forall_forall in Hv |- *. intros w Hw.
        apply (elem_of_insertOrdered start start) in Hw.
        destruct Hw as [->|Hw]; [done | by apply Hv].
Qed.

Lemma Insert_sorted (u : T) (t : list T) :
  StronglySorted key_lt t -> StronglySorted key_lt (RBTree.Insert (cmpKey start) u t).
Proof.
  intros Hs. unfold RBTree.Insert.
  destruct (RBTree.Search (cmpKey start u) t) as [v|] eqn:Hsearch; [done|].
  apply insertOrdered_sorted; [|done].
  intros v Hv. by eapply Search_key_None.
Qed.

Lemma rewrite_sorted (ov : list T) (u : T) (t : list T) :
  StronglySorted key_lt t ->
  StronglySorted key_lt (RBTree.Insert (cmpKey start) u (deleteAll start ov t)).
Proof.
  intros Hs. apply Insert_sorted.
  destruct (deleteAll_spec start ov t (key_sorted_NoDup t Hs)) as [Hsub _].
  by eapply sorted_sublist.
Qed.

End Sorted.

(** The chunk index is kept in ascending order of the logical address;
    the stripes of each chunk are in ascending order of (device,
    address) and there is at least one. *)
Definition stripes_ok (c : chunkMapping.t) : Prop :=
  StronglySorted qlt (chunkMapping.PAddrs c) ∧ chunkMapping.PAddrs c ≠ [].

Definition chunks_sorted (t : list chunkMapping.t) : Prop :=
  StronglySorted (key_lt chunkMapping.LAddr) t ∧ Forall stripes_ok t.

Lemma chunk_union_PAddrs (a u : chunkMapping.t) (rest : list chunkMapping.t) :
  chunkMapping.union a rest = Ok u ->
  chunkMapping.PAddrs u = chunkMapping.stripesLoop (chunkMapping.LAddr u) (a :: rest).
Proof.
  unfold chunkMapping.union. destruct (negb _); [done|].
  destruct (chunkMapping.rangeLoop _ _) as [beg end_].
  destruct (chunkMapping.lockedLoop _ _ _); [|done..].
  destruct (chunkMapping.flagsLoop _ _); [|done..].
  by intros [= <-].
Qed.

Lemma chunk_union_stripes_ok (m : Mapping) (u : chunkMapping.t)
  (rest : list chunkMapping.t) :
  chunkMapping.union (chunkOf m) rest = Ok u -> stripes_ok u.
Proof.
  intros Hu. apply chunk_union_PAddrs in Hu. unfold stripes_ok. rewrite Hu.
  destruct (stripesLoop_spec (chunkMapping.LAddr u) (chunkOf m :: rest)) as [Hs Hm].
  split; [exact Hs|]. intros Hnil.
  assert (Hin : backStripe (chunkMapping.LAddr u) (chunkOf m) (mPAddr m)
                  ∈ chunkMapping.stripesLoop (chunkMapping.LAddr u) (chunkOf m :: rest)).
  { apply Hm. exists (chunkOf m), (mPAddr m). split_and!; [by left | by left | done]. }
  rewrite Hnil in Hin. by apply elem_of_nil in Hin.
Qed.

Lemma chunks_AddPhysicalVolume lv id dev :
  chunks (fst (AddPhysicalVolume lv id dev)) = chunks lv.
Proof.
  unfold AddPhysicalVolume. destruct (id2pv (init lv) !! id); simpl.
  - apply chunks_init.
  - unfold chunks at 1; simpl. apply chunks_init.
Qed.

(** A property of the chunk index that the empty index has and that
    the rewrite of [addMapping] keeps holds in every state a run
    reaches. *)
Lemma chunks_run_ind mask paranoid (P : list chunkMapping.t -> Prop) :
  P [] ->
  (∀ t m u, P t ->
     chunkMapping.union (chunkOf m)
       (RBTree.Subrange (chunkMapping.cmpRange (chunkOf m)) t) = Ok u ->
     P (RBTree.Insert chunkMapping.Compare u
          (deleteAll chunkMapping.LAddr
             (RBTree.Subrange (chunkMapping.cmpRange (chunkOf m)) t) t))) ->
  ∀ ops lv lv', P (chunks lv) -> run mask paranoid lv ops = Some lv' -> P (chunks lv').
Proof.
  intros Hnil Hstep.
  assert (Hadd : ∀ lv m dryRun lv' r, P (chunks lv) ->
            addMapping mask paranoid lv m dryRun = (lv', r) -> P (chunks lv')).
  { intros lv m dryRun lv' r HP Hadd.
    apply addMapping_cases in Hadd as [->|(u & v & Hu & _ & _ & _ & ->)].
    - by rewrite chunks_init.
    - rewrite chunks_init in Hu. rewrite chunks_applied. by apply Hstep. }
  induction ops as [|op ops IH]; simpl; intros lv lv' HP.
  - by intros [= <-].
  - destruct (exec _ _ _ _) as [lv1|] eqn:Hex; [|discriminate].
    apply IH. destruct op as [id dev|m|m|]; simpl in Hex.
    + injection Hex as <-. by rewrite chunks_AddPhysicalVolume.
    + unfold AddMapping in Hex.
      destruct (addMapping _ _ _ _ _) as [lv2 r] eqn:Hadd2.
      assert (lv1 = lv2) as -> by (destruct r; congruence).
      by eapply Hadd.
    + destruct (addMapping _ _ _ _ _) as [lv2 r] eqn:Hadd2.
      assert (lv1 = lv2) as -> by (destruct r; congruence).
      by eapply Hadd.
    + injection Hex as <-. exact Hnil.
Qed.

Lemma chunks_sorted_run mask paranoid ops lv :
  run mask paranoid newLogicalVolume ops = Some lv -> chunks_sorted (chunks lv).
Proof.
  apply (chunks_run_ind mask paranoid chunks_sorted).
  - split; constructor.
  - intros t m u [Hs Hst] Hu. split.
    + exact (rewrite_sorted chunkMapping.LAddr _ u t Hs).
    + rewrite Forall_forall in Hst |- *. intros c Hc.
      destruct (Insert_spec chunkMapping.LAddr chunkMapping.LAddr u
                  (deleteAll chunkMapping.LAddr
                     (RBTree.Subrange (chunkMapping.cmpRange (chunkOf m)) t) t)) as [_ Hin].
      { eapply NoDup_keys_sublist; [|exact (key_sorted_NoDup _ _ Hs)].
        apply (deleteAll_spec chunkMapping.LAddr). exact (key_sorted_NoDup _ _ Hs). }
      destruct (Hin c Hc) as [->|Hc'].
      * by eapply chunk_union_stripes_ok.
      * apply Hst.
        by apply (deleteAll_spec chunkMapping.LAddr _ _ (key_sorted_NoDup _ _ Hs)) in Hc'
          as [Hc' _].
  - split; constructor.
Qed.

(** The order of the entries of [Mappings()]: by logical address, then
    by stripe. *)
Definition mapping_lt (a b : Mapping) : Prop :=
  mLAddr a < mLAddr b ∨ (mLAddr a = mLAddr b ∧ qlt (mPAddr a) (mPAddr b)).

Lemma sorted_irrefl_NoDup {A} (R : relation A) (l : list A) :
  (∀ x, ¬ R x x) -> StronglySorted R l -> NoDup l.
Proof.
  intros Hirr. induction 1 as [|a l Hs IH Ha]; constructor; [|done].
  intros Hin. rewrite Forall_forall in Ha. exact (Hirr a (Ha a Hin)).
Qed.

(** X13: in every state the engine reaches, [Mappings()] lists the
    stripes in strictly ascending order of (logical address, device,
    physical address); so no entry is listed twice. *)
Theorem Mappings_ascending mask paranoid (ops : list Op) (lv : LogicalVolume) :
  run mask paranoid newLogicalVolume ops = Some lv ->
  StronglySorted mapping_lt (Mappings lv) ∧ NoDup (Mappings lv).
Proof.
  intros Hrun. apply chunks_sorted_run in Hrun as [Hs Hst].
  assert (Hsorted : StronglySorted mapping_lt (Mappings lv)).
  { unfold Mappings, RBTree.Range.
    induction Hs as [|c t Hs IH Hc]; simpl; [constructor|].
    apply Forall_cons in Hst as [[Hc1 _] Hst].
    apply StronglySorted_app_2.
    - intros x1 x2 (s1 & -> & _)%list_elem_of_fmap Hx2.
      apply list_elem_of_In, in_flat_map in Hx2 as (c' & Hc' & Hx2).
      apply list_elem_of_In, list_elem_of_fmap in Hx2 as (s2 & -> & _).
      left; simpl. rewrite Forall_forall in Hc. apply Hc. by apply list_elem_of_In.
    - apply (StronglySorted_fmap _ qlt); [|done].
      intros x y Hxy. right; simpl. done.
    - by apply IH. }
  split; [exact Hsorted|].
  eapply sorted_irrefl_NoDup; [|exact Hsorted].
  intros x. unfold mapping_lt, qlt. lia.
Qed.

Lemma Mappings_ascending_witness :
  StronglySorted mapping_lt (Mappings mirror) ∧ NoDup (Mappings mirror).
Proof.
  assert (H : run raidMask false newLogicalVolume mirrorOps = Some mirror)
    by (vm_compute; reflexivity).
  exact (Mappings_ascending _ _ _ _ H).
Defined.

(** A chunk whose range, with the end [cmpRange] computes, holds at
    least one address. *)
Definition chunk_nonempty (c : chunkMapping.t) : Prop :=
  chunkMapping.LAddr c < chunkStop c.

#[global] Instance chunk_nonempty_dec c : Decision (chunk_nonempty c).
Proof. unfold chunk_nonempty. apply _. Defined.

(** The chunk [Resolve] searches with. *)
Definition probe (laddr : LogicalAddr) : chunkMapping.t :=
  {| chunkMapping.LAddr := laddr; chunkMapping.PAddrs := [];
     chunkMapping.Size := 1; chunkMapping.SizeLocked := false;
     chunkMapping.Flags := None |}.

Lemma cmpRange_probe laddr c :
  chunkMapping.cmpRange (probe laddr) c = 0
  <-> ¬ (Add laddr 1 <= chunkMapping.LAddr c) ∧ laddr < chunkStop c.
Proof.
  unfold chunkMapping.cmpRange, chunkStop; simpl.
  destruct (Z.leb_spec (Add laddr 1) (chunkMapping.LAddr c)); [split; [done | lia]|].
  destruct (Z.leb_spec (Add (chunkMapping.LAddr c) (chunkMapping.Size c)) laddr);
    [split; [done | lia]|].
  split; [lia | done].
Qed.

Lemma Resolve_cases lv laddr :
  (RBTree.Search (chunkMapping.cmpRange (probe laddr)) (chunks lv) = None
   ∧ Resolve lv laddr = (∅, 0))
  ∨ ∃ c, RBTree.Search (chunkMapping.cmpRange (probe laddr)) (chunks lv) = Some c
         ∧ c ∈ chunks lv
         ∧ chunkMapping.cmpRange (probe laddr) c = 0
         ∧ Resolve lv laddr =
             (list_to_set (map (fun stripe => QAdd stripe (Sub laddr (chunkMapping.LAddr c)))
                               (chunkMapping.PAddrs c)),
              wrap64 (chunkMapping.Size c - Sub laddr (chunkMapping.LAddr c))).
Proof.
  unfold Resolve. fold (probe laddr).
  destruct (RBTree.Search _ (chunks lv)) as [c|] eqn:Hs; [right | by left].
  exists c. destruct (Search_Some _ _ _ Hs) as [Hin Hz]. done.
Qed.

(** X14: in a reachable state where no chunk is empty, [Size()] is at
    or past the end of every chunk, and past every address that
    [Resolve] maps. *)
Theorem Size_past_every_chunk mask paranoid (ops : list Op) (lv : LogicalVolume) :
  run mask paranoid newLogicalVolume ops = Some lv ->
  Forall chunk_nonempty (chunks lv) ->
  (∀ c, c ∈ chunks lv -> chunkStop c <= snd (Size lv))
  ∧ (∀ laddr, fst (Resolve lv laddr) ≠ ∅ -> laddr < snd (Size lv)).
Proof.
  intros Hrun Hne.
  destruct (engine_ok_run _ _ _ _ _ engine_ok_new Hrun) as [[_ Hdis] _].
  destruct (chunks_sorted_run _ _ _ _ Hrun) as [Hs _].
  assert (Hall : ∀ c, c ∈ chunks lv -> chunkStop c <= snd (Size lv)).
  { intros c Hc. unfold Size, RBTree.Max; simpl. rewrite chunks_init.
    destruct (last (chunks lv)) as [l|] eqn:Hl.
    - apply last_Some in Hl as [t' Ht']. fold (chunkStop l).
      rewrite Ht' in Hc, Hs, Hne, Hdis.
      apply elem_of_app in Hc as [Hc|Hc%list_elem_of_singleton]; [|subst; lia].
      assert (Hlt : chunkMapping.LAddr c < chunkMapping.LAddr l).
      { eapply (StronglySorted_app_1_elem_of _ _ _ _ _ Hs); [done | by left]. }
      assert (Hl : chunk_nonempty l).
      { rewrite Forall_forall in Hne. apply Hne. apply elem_of_app. right. by left. }
      unfold chunk_nonempty in Hl.
      assert (Hcl : c ≠ l) by (intros ->; lia).
      specialize (Hdis c l). unfold disjoint, inside in Hdis.
      specialize (Hdis ltac:(apply elem_of_app; by left)
                       ltac:(apply elem_of_app; right; by left) Hcl
                       (chunkMapping.LAddr l)).
      lia.
    - apply last_None in Hl. rewrite Hl in Hc. by apply elem_of_nil in Hc. }
  split; [exact Hall|].
  intros laddr Hres.
  destruct (Resolve_cases lv laddr) as [[_ Hr]|(c & _ & Hc & Hz & _)].
  - rewrite Hr in Hres. done.
  - apply cmpRange_probe in Hz as [_ Hz]. specialize (Hall c Hc). lia.
Qed.

Lemma Size_past_every_chunk_witness :
  fst (Resolve mirror 0xfff) ≠ ∅ ∧ 0xfff < snd (Size mirror).
Proof.
  assert (H : run raidMask false newLogicalVolume mirrorOps = Some mirror)
    by (vm_compute; reflexivity).
  assert (Hne : Forall chunk_nonempty (chunks mirror)) by by_evaluation.
  assert (Hres : fst (Resolve mirror 0xfff) ≠ ∅) by by_evaluation.
  split; [exact Hres|].
  exact (proj2 (Size_past_every_chunk _ _ _ _ H Hne) 0xfff Hres).
Defined.





(** * What [AddMapping] stores can be resolved *)

(** A successful [AddMapping] either finds the union already stored as
    the only overlap, or writes it. *)
Lemma AddMapping_Ok_cases mask paranoid lv m lv' :
  AddMapping mask paranoid lv m = (lv', Ok tt) ->
  ∃ u v,
    chunkMapping.union (chunkOf m)
      (RBTree.Subrange (chunkMapping.cmpRange (chunkOf m)) (chunks lv)) = Ok u
    ∧ ((lv' = init lv
        ∧ RBTree.Subrange (chunkMapping.cmpRange (chunkOf m)) (chunks lv) = [u])
       ∨ lv' = applied lv m u v).
Proof.
  unfold AddMapping, addMapping.
  change {| chunkMapping.LAddr := mLAddr m; chunkMapping.PAddrs := [mPAddr m];
            chunkMapping.Size := mSize m; chunkMapping.SizeLocked := mSizeLocked m;
            chunkMapping.Flags := mFlags m |} with (chunkOf m).
  change {| devextMapping.PAddr := Addr (mPAddr m); devextMapping.LAddr := mLAddr m;
            devextMapping.Size := mSize m; devextMapping.SizeLocked := mSizeLocked m;
            devextMapping.Flags := mFlags m |} with (devextOf m).
  cbv zeta. rewrite chunks_init.
  destruct (id2pv (init lv) !! Dev (mPAddr m)); [|discriminate].
  destruct (chunkMapping.union _ _) as [u| |] eqn:Hc; [|discriminate..].
  destruct (devextMapping.union _ _) as [v| |] eqn:He; [|discriminate..].
  destruct (negb _); [discriminate|].
  match goal with
  | |- context [match ?chk with Ok _ => _ | Err _ => _ | Panic => _ end] =>
      destruct chk; [|discriminate..]
  end.
  destruct (bool_decide (RBTree.Subrange _ _ = [u])) eqn:Hopt; simpl.
  - apply bool_decide_eq_true in Hopt.
    destruct (bool_decide _).
    + intros [= <-]. exists u, v. split; [done|]. by left.
    + intros Hr. exists u, v. split; [done|]. right.
      destruct paranoid; [destruct (fsck _)|]; by inversion Hr.
  - intros Hr. exists u, v. split; [done|]. right.
    destruct paranoid; [destruct (fsck _)|]; by inversion Hr.
Qed.

Lemma hull_attained {T} (start stop : T -> Z) (items : list T) : ∀ beg end_ beg' end',
  hull start stop items (beg, end_) = (beg', end') ->
  beg' = beg ∨ ∃ c, c ∈ items ∧ beg' = start c.
Proof.
  induction items as [|c items IH]; intros beg end_ beg' end'; simpl.
  - intros [= <- <-]. by left.
  - intros Hh. apply IH in Hh as [->|(c' & Hc' & ->)].
    + rewrite Min_spec. destruct (Z.min_spec beg (start c)) as [[_ ->]|[_ ->]];
        [by left | right; exists c; split; [by left | done]].
    + right. exists c'. split; [by right | done].
Qed.

Lemma wrap64_sub_wrap a b : wrap64 (wrap64 a - wrap64 b) = wrap64 (a - b).
Proof.
  replace (wrap64 a - wrap64 b) with (wrap64 a + - wrap64 b) by lia.
  rewrite wrap64_add_wrap_l.
  unfold wrap64. rewrite <- (Z.add_opp_r a b).
  replace (a + - ((b + 2 ^ 63) mod 2 ^ 64 - 2 ^ 63) + 2 ^ 63)
    with ((a + 2 ^ 64) - (b + 2 ^ 63) mod 2 ^ 64) by lia.
  rewrite Zminus_mod_idemp_r.
  replace (a + 2 ^ 64 - (b + 2 ^ 63)) with (a + - b + 2 ^ 63) by lia.
  reflexivity.
Qed.

Lemma chunk_union_Size (a u : chunkMapping.t) (rest : list chunkMapping.t) :
  chunkMapping.union a rest = Ok u ->
  chunkMapping.Size u = Sub (chunkStop u) (chunkMapping.LAddr u).
Proof.
  unfold chunkMapping.union. destruct (negb _); [discriminate|].
  pose proof (hull_end_int64 chunkMapping.LAddr chunkStop (a :: rest)
                (fun c => wrap64_range _) (chunkMapping.LAddr a) (chunkStop a)
                (wrap64_range _)) as Hend.
  change (chunkMapping.rangeLoop (a :: rest)
            (chunkMapping.LAddr a, Add (chunkMapping.LAddr a) (chunkMapping.Size a)))
    with (hull chunkMapping.LAddr chunkStop (a :: rest) (chunkMapping.LAddr a, chunkStop a)).
  destruct (hull _ _ _ _) as [beg end_]. simpl in Hend.
  destruct (chunkMapping.lockedLoop _ _ _); try discriminate.
  destruct (chunkMapping.flagsLoop _ _); try discriminate.
  intros [= <-]. unfold chunkStop; simpl. by rewrite Add_Sub_cancel.
Qed.

(** X17: in a reachable state where no chunk is empty, after
    [AddMapping] has accepted a mapping of positive size whose
    addresses stay within [int64], [Resolve] of the mapping's logical
    address returns its physical address among the stripes; for a
    logical address that is not negative, the length it returns is at
    least the mapping's size. *)
Theorem AddMapping_then_Resolve mask paranoid (ops : list Op) (lv lv' : LogicalVolume)
  (m : Mapping) :
  run mask paranoid newLogicalVolume ops = Some lv ->
  Forall chunk_nonempty (chunks lv) ->
  is_int64 (mLAddr m) -> 0 < mSize m -> is_int64 (mLAddr m + mSize m) ->
  is_int64 (Addr (mPAddr m)) ->
  AddMapping mask paranoid lv m = (lv', Ok tt) ->
  mPAddr m ∈ fst (Resolve lv' (mLAddr m))
  ∧ (0 <= mLAddr m -> mSize m <= snd (Resolve lv' (mLAddr m))).
Proof.
  intros Hrun Hne Hl Hsz Hend Hp Hadd.
  pose proof (engine_ok_run _ _ _ _ _ engine_ok_new Hrun) as Hok.
  pose proof (engine_ok_addMapping _ _ _ _ _ _ _ Hok Hadd) as [[_ Hdis'] _].
  destruct Hok as [[Hnd Hdis] _].
  apply AddMapping_Ok_cases in Hadd as (u & v & Hu & Hcase).
  set (ov := RBTree.Subrange (chunkMapping.cmpRange (chunkOf m)) (chunks lv)) in *.
  assert (Hmstop : chunkStop (chunkOf m) = mLAddr m + mSize m).
  { unfold chunkStop, Add; simpl. by apply wrap64_id. }
  pose proof (chunk_union_range _ _ _ Hu) as Hrange. symmetry in Hrange.
  pose proof (hull_bounds _ _ _ _ _ _ _ Hrange) as (_ & _ & Hcov).
  destruct (Hcov (chunkOf m) ltac:(by left)) as [Hcov1 Hcov2].
  simpl in Hcov1. rewrite Hmstop in Hcov2.
  (* the union is in the index *)
  assert (Hin : u ∈ chunks lv').
  { destruct Hcase as [[-> Hov] | ->].
    - rewrite chunks_init.
      assert (Hu' : u ∈ ov) by (rewrite Hov; by left).
      unfold ov, RBTree.Subrange in Hu'. by apply list_elem_of_filter in Hu' as [_ ?].
    - rewrite chunks_applied. fold ov. unfold RBTree.Insert.
      change chunkMapping.Compare with (cmpKey chunkMapping.LAddr).
      destruct (RBTree.Search _ _) as [w|] eqn:Hs.
      + exfalso. apply (Search_key_Some chunkMapping.LAddr) in Hs as [Hw Hkey].
        apply (deleteAll_spec chunkMapping.LAddr _ _ Hnd) in Hw as [Hw Hnot].
        apply hull_attained in Hrange as [Hbeg|(c & Hc & Hbeg)].
        * simpl in Hbeg.
          assert (Hwne : chunk_nonempty w) by (rewrite Forall_forall in Hne; by apply Hne).
          unfold chunk_nonempty in Hwne.
          apply (Hnot w); [|done].
          unfold ov, RBTree.Subrange. apply list_elem_of_filter. split; [|done].
          apply (cmpR_0 chunkMapping.LAddr chunkStop). rewrite Hmstop. simpl. lia.
        * apply elem_of_cons in Hc as [->|Hc].
          -- simpl in Hbeg.
             assert (Hwne : chunk_nonempty w) by (rewrite Forall_forall in Hne; by apply Hne).
             unfold chunk_nonempty in Hwne.
             apply (Hnot w); [|done].
             unfold ov, RBTree.Subrange. apply list_elem_of_filter. split; [|done].
             apply (cmpR_0 chunkMapping.LAddr chunkStop). rewrite Hmstop. simpl. lia.
          -- apply (Hnot c Hc). congruence.
      + apply (elem_of_insertOrdered chunkMapping.LAddr chunkMapping.LAddr). by left. }
  (* it is the chunk the search finds *)
  assert (Hl1 : Add (mLAddr m) 1 = mLAddr m + 1).
  { unfold Add. apply wrap64_id. unfold is_int64, MinInt64, MaxInt64 in *. lia. }
  assert (Hzero : chunkMapping.cmpRange (probe (mLAddr m)) u = 0).
  { apply cmpRange_probe. rewrite Hl1. lia. }
  destruct (Resolve_cases lv' (mLAddr m)) as [[Hnone _]|(c' & _ & Hc' & Hz & Hr)].
  { destruct (Search_is_Some _ _ _ Hin Hzero) as [w Hw]. congruence. }
  assert (c' = u) as ->.
  { destruct (decide (c' = u)) as [|Hcu]; [done|]. exfalso.
    apply cmpRange_probe in Hz as [Hz1 Hz2]. rewrite Hl1 in Hz1.
    apply (Hdis' c' u Hc' Hin Hcu (mLAddr m)). unfold inside. lia. }
  rewrite Hr; simpl. split.
  - apply elem_of_list_to_set, list_elem_of_fmap.
    exists (backStripe (chunkMapping.LAddr u) (chunkOf m) (mPAddr m)). split.
    + unfold QAdd, backStripe; simpl. destruct (mPAddr m) as [d a]; simpl in *.
      f_equal. unfold Add.
      rewrite wrap64_add_wrap_l.
      replace (a + wrap64 (- Sub (mLAddr m) (chunkMapping.LAddr u))
               + Sub (mLAddr m) (chunkMapping.LAddr u))
        with (a + Sub (mLAddr m) (chunkMapping.LAddr u)
              + wrap64 (- Sub (mLAddr m) (chunkMapping.LAddr u))) by lia.
      rewrite wrap64_add_wrap.
      replace (a + Sub (mLAddr m) (chunkMapping.LAddr u)
               + - Sub (mLAddr m) (chunkMapping.LAddr u)) with a by lia.
      symmetry. by apply wrap64_id.
    + rewrite (chunk_union_PAddrs _ _ _ Hu).
      apply stripesLoop_spec. exists (chunkOf m), (mPAddr m).
      split_and!; [by left | by left | done].
  - intros Hpos. rewrite (chunk_union_Size _ _ _ Hu). unfold Sub.
    rewrite wrap64_sub_wrap.
    replace (chunkStop u - chunkMapping.LAddr u - (mLAddr m - chunkMapping.LAddr u))
      with (chunkStop u - mLAddr m) by lia.
    pose proof (wrap64_range (chunkMapping.LAddr u + chunkMapping.Size u)) as Hur.
    fold (Add (chunkMapping.LAddr u) (chunkMapping.Size u)) in Hur. fold (chunkStop u) in Hur.
    rewrite wrap64_id; [lia|].
    unfold is_int64, MinInt64, MaxInt64 in *. lia.
Qed.

Lemma AddMapping_then_Resolve_witness :
  {| Dev := 1; Addr := 0x1000 |}
    ∈ fst (Resolve (fst (AddMapping raidMask false twoChunks
                           (mapping 0x800 1 0x1000 0x1000 false None))) 0x800).
Proof.
  assert (H : run raidMask false newLogicalVolume twoChunksOps = Some twoChunks)
    by (vm_compute; reflexivity).
  assert (Hne : Forall chunk_nonempty (chunks twoChunks)) by by_evaluation.
  assert (Hadd : AddMapping raidMask false twoChunks (mapping 0x800 1 0x1000 0x1000 false None)
                 = (fst (AddMapping raidMask false twoChunks
                           (mapping 0x800 1 0x1000 0x1000 false None)), Ok tt))
    by (vm_compute; reflexivity).
  exact (proj1 (AddMapping_then_Resolve _ _ _ _ _ (mapping 0x800 1 0x1000 0x1000 false None)
                  H Hne ltac:(by_evaluation) ltac:(simpl; lia) ltac:(by_evaluation)
                  ltac:(by_evaluation) Hadd)).
Defined.

(** * Further properties of rebuilt trees *)

Module TreeRoots.
Import btrees AddRoots.

Section WithGraph.
Variable g : pkggraph.Graph.

(** LeafToRoots returns the list of potential roots (to pass to
    .AddRoot) that include a given leaf-node.  [None] is one of the two
    panics (or the panic of [leafToRoots]); the loop ranges over the
    set in the order of [elements]; a [nil] result and an empty set are
    the same [∅]. *)
Definition LeafToRoots (tree : RebuiltTree) (leaf : LogicalAddr)
  : option (gset LogicalAddr) :=
  if negb (pkggraph.Level (pkggraph.node g leaf) =? 0) then None
  else
    match leafToRoots g tree with
    | None => None
    | Some leafToRoots =>
        fold_left (fun acc root =>
                     match acc with
                     | None => None
                     | Some ret =>
                         if bool_decide (root ∈ Roots tree) then None
                         else Some ({[root]} ∪ ret)
                     end)
                  (elements (default ∅ (leafToRoots !! leaf))) (Some ∅)
    end.

(** The trees that [AddRoot] calls build from a tree without roots and
    leafs. *)
Definition built (tree : RebuiltTree) : Prop :=
  ∃ tree0 roots cbs,
    Roots tree0 = ∅ ∧ Leafs tree0 = ∅ ∧ addRoots g tree0 [] roots = Some (tree, cbs).

(** The loop of [AddRoot] attaches only leafs that the root reaches. *)
Lemma addRoot_loop_only treeID rootNode l2r (keys : list LogicalAddr) :
  ∀ leafs cbs leafs' cbs',
    fold_left (addRootStep g treeID rootNode l2r) keys (leafs, cbs) = (leafs', cbs') ->
    ∀ leaf, leaf ∈ leafs' ->
            leaf ∈ leafs ∨ (leaf ∈ keys ∧ rootNode ∈ default ∅ (l2r !! leaf)).
Proof.
  induction keys as [|k keys IH]; intros leafs cbs leafs' cbs'; simpl.
  - intros [= <- <-] leaf Hl. by left.
  - destruct (bool_decide (k ∈ leafs)
              || negb (bool_decide (rootNode ∈ default ∅ (l2r !! k)))) eqn:Hskip.
    + intros Hfold leaf Hl.
      destruct (IH _ _ _ _ Hfold leaf Hl) as [?|[? ?]]; [by left|].
      right. split; [by right | done].
    + apply orb_false_iff in Hskip as [_ Hr].
      apply negb_false_iff, bool_decide_eq_true in Hr.
      intros Hfold leaf Hl.
      destruct (IH _ _ _ _ Hfold leaf Hl) as [[->%elem_of_singleton|?]%elem_of_union|[? ?]].
      * right. split; [by left | done].
      * by left.
      * right. split; [by right | done].
Qed.

(** The leafs of the tree are reached from its roots. *)
Definition reached (leafToRoots : gmap LogicalAddr (gset LogicalAddr))
  (tree : RebuiltTree) : Prop :=
  ∀ leaf, leaf ∈ Leafs tree ->
          ∃ root, root ∈ Roots tree ∧ root ∈ default ∅ (leafToRoots !! leaf).

Lemma reached_AddRoot tree rootNode tree' cbs' l2r :
  leafToRoots g tree = Some l2r -> reached l2r tree ->
  AddRoot g tree rootNode = Some (tree', cbs') -> reached l2r tree'.
Proof.
  intros Hl2r Hreach Hadd.
  destruct (AddRoot_Some g _ _ _ _ Hadd) as (l2r' & Hl2r' & _ & Hroots & Hfold).
  rewrite Hl2r in Hl2r'. injection Hl2r' as <-.
  intros leaf Hleaf.
  destruct (addRoot_loop_only _ _ _ _ _ _ _ _ Hfold leaf Hleaf) as [Hold|[_ Hnew]].
  - destruct (Hreach leaf Hold) as (root & Hroot & Hin).
    exists root. split; [|done]. rewrite Hroots. apply elem_of_union. by right.
  - exists rootNode. split; [|done]. rewrite Hroots. apply elem_of_union. left.
    by apply elem_of_singleton.
Qed.

Lemma reached_run roots : ∀ tree cbs tree' cbs' l2r,
  leafToRoots g tree = Some l2r -> reached l2r tree ->
  addRoots g tree cbs roots = Some (tree', cbs') ->
  reached l2r tree' ∧ leafToRoots g tree' = Some l2r
  ∧ Roots tree' = list_to_set roots ∪ Roots tree.
Proof.
  induction roots as [|r roots IH]; simpl; intros tree cbs tree' cbs' l2r Hl2r Hreach.
  - intros [= <- <-]. split_and!; [done | done |]. by rewrite union_empty_l_L.
  - destruct (AddRoot g tree r) as [[tree1 cbs1]|] eqn:Hadd; [|done]. intros Hrun.
    destruct (AddRoot_Some g _ _ _ _ Hadd) as (l2r' & Hl2r' & Hst & Hroots & _).
    pose proof (leafToRoots_static g _ _ Hst) as Hsame. rewrite Hl2r in Hsame.
    destruct (IH tree1 _ _ _ l2r (eq_sym Hsame)
                (reached_AddRoot _ _ _ _ _ Hl2r Hreach Hadd) Hrun) as (H1 & H2 & H3).
    split_and!; [done | done |]. rewrite H3, Hroots.
    by rewrite (assoc_L (∪)), (comm_L (∪) (list_to_set roots)).
Qed.

Lemma built_spec tree l2r :
  built tree -> leafToRoots g tree = Some l2r ->
  attached l2r tree ∧ reached l2r tree ∧ ∃ cbs, announced_once g tree cbs.
Proof.
  intros (tree0 & roots & cbs & Hroots0 & Hleafs0 & Hrun) Hl2r.
  assert (Hinv0 : addRoots_inv g tree0 []).
  { split_and!; [by left | |].
    - intros l2r0 _ root leaf Hroot. rewrite Hroots0 in Hroot.
      by apply not_elem_of_empty in Hroot.
    - intros leaf. rewrite Hleafs0. by rewrite decide_False by apply not_elem_of_empty. }
  destruct (addRoots_inv_run g _ _ _ _ _ Hinv0 Hrun) as (_ & Hatt & Hann).
  split_and!; [by apply Hatt | | by exists cbs].
  destruct roots as [|r roots].
  - simpl in Hrun. injection Hrun as <- <-. intros leaf Hleaf.
    rewrite Hleafs0 in Hleaf. by apply not_elem_of_empty in Hleaf.
  - simpl in Hrun.
    destruct (AddRoot g tree0 r) as [[tree1 cbs1]|] eqn:Hadd; [|done].
    destruct (AddRoot_Some g _ _ _ _ Hadd) as (l2r0 & Hl2r0 & _).
    assert (Hr0 : reached l2r0 tree0).
    { intros leaf Hleaf. rewrite Hleafs0 in Hleaf. by apply not_elem_of_empty in Hleaf. }
    assert (Hrun' : addRoots g tree0 [] (r :: roots) = Some (tree, cbs)).
    { simpl. by rewrite Hadd. }
    destruct (reached_run _ _ _ _ _ _ Hl2r0 Hr0 Hrun') as (H1 & H2 & _).
    rewrite Hl2r in H2. injection H2 as ->. done.
Qed.

(** X18: in a tree built by [AddRoot] calls from no roots and no leafs,
    the leafs are exactly the leafs that [leafToRoots] reaches from one
    of the roots of the tree. *)
Theorem Leafs_are_the_reached_leafs (tree0 : RebuiltTree) (roots : list LogicalAddr)
  (tree : RebuiltTree) (cbs : list AddedItem)
  (l2r : gmap LogicalAddr (gset LogicalAddr)) (leaf : LogicalAddr) :
  Roots tree0 = ∅ -> Leafs tree0 = ∅ ->
  addRoots g tree0 [] roots = Some (tree, cbs) ->
  leafToRoots g tree = Some l2r ->
  leaf ∈ Leafs tree
  <-> ∃ root, root ∈ Roots tree ∧ root ∈ default ∅ (l2r !! leaf).
Proof.
  intros Hroots0 Hleafs0 Hrun Hl2r.
  assert (Hbuilt : built tree) by (by exists tree0, roots, cbs).
  destruct (built_spec _ _ Hbuilt Hl2r) as (Hatt & Hreach & _).
  split; [apply Hreach|].
  intros (root & Hroot & Hin). apply (Hatt root leaf Hroot); [|done].
  apply elem_of_dom. destruct (l2r !! leaf); [done|].
  by apply not_elem_of_empty in Hin.
Qed.

Lemma LeafToRoots_loop (roots : gset LogicalAddr) (rs : list LogicalAddr) :
  ∀ acc : option (gset LogicalAddr),
  fold_left (fun acc root =>
               match acc with
               | None => None
               | Some ret =>
                   if bool_decide (root ∈ roots) then None else Some ({[root]} ∪ ret)
               end) rs acc
  = match acc with
    | None => None
    | Some ret => if bool_decide (Exists (fun root => root ∈ roots) rs) then None
                  else Some (list_to_set rs ∪ ret)
    end.
Proof.
  induction rs as [|r rs IH]; intros acc; cbn [fold_left].
  - destruct acc as [ret|]; [|done].
    rewrite bool_decide_eq_false_2 by (by intros ?%Exists_nil).
    by rewrite list_to_set_nil, union_empty_l_L.
  - rewrite IH. destruct acc as [ret|]; [|done]. rewrite list_to_set_cons.
    destruct (bool_decide (r ∈ roots)) eqn:Hr.
    + apply bool_decide_eq_true in Hr.
      by rewrite bool_decide_eq_true_2 by (by left).
    + apply bool_decide_eq_false in Hr.
      destruct (bool_decide (Exists _ rs)) eqn:Hrs.
      * apply bool_decide_eq_true in Hrs.
        by rewrite bool_decide_eq_true_2 by (by right).
      * apply bool_decide_eq_false in Hrs.
        rewrite bool_decide_eq_false_2 by (by intros [?|?]%Exists_cons).
        f_equal. by rewrite (assoc_L (∪)), (comm_L (∪) (list_to_set rs) {[r]}).
Qed.

(** X19: for a level-0 node of a tree built by [AddRoot] calls,
    [LeafToRoots] panics exactly when the node is a leaf of the tree;
    otherwise it returns the roots that [leafToRoots] has for the node,
    and [AddRoot] of any of them attaches the node and announces its
    items. *)
Theorem LeafToRoots_roots_attach (tree0 : RebuiltTree) (roots : list LogicalAddr)
  (tree : RebuiltTree) (cbs0 : list AddedItem)
  (l2r : gmap LogicalAddr (gset LogicalAddr)) (leaf : LogicalAddr) :
  Roots tree0 = ∅ -> Leafs tree0 = ∅ ->
  addRoots g tree0 [] roots = Some (tree, cbs0) ->
  leafToRoots g tree = Some l2r ->
  pkggraph.Level (pkggraph.node g leaf) = 0 ->
  (LeafToRoots tree leaf = None <-> leaf ∈ Leafs tree)
  ∧ (leaf ∉ Leafs tree -> LeafToRoots tree leaf = Some (default ∅ (l2r !! leaf)))
  ∧ ∀ rs root, LeafToRoots tree leaf = Some rs -> root ∈ rs ->
      ∃ tree' cbs', AddRoot g tree root = Some (tree', cbs')
                    ∧ leaf ∈ Leafs tree'
                    ∧ announced leaf cbs' = announce g (ID tree) leaf.
Proof.
  intros Hroots0 Hleafs0 Hrun Hl2r Hlevel.
  assert (Hbuilt : built tree) by (by exists tree0, roots, cbs0).
  destruct (built_spec _ _ Hbuilt Hl2r) as (Hatt & Hreach & cbs & Hcbs).
  assert (Hdom : ∀ root, root ∈ default ∅ (l2r !! leaf) -> leaf ∈ dom l2r).
  { intros root Hin. apply elem_of_dom. destruct (l2r !! leaf); [done|].
    by apply not_elem_of_empty in Hin. }
  assert (Hcall : LeafToRoots tree leaf =
            if bool_decide (Exists (fun root => root ∈ Roots tree)
                                   (elements (default ∅ (l2r !! leaf))))
            then None else Some (default ∅ (l2r !! leaf))).
  { unfold LeafToRoots. rewrite Hlevel, Hl2r; simpl. rewrite LeafToRoots_loop.
    destruct (bool_decide _); [done|].
    by rewrite union_empty_r_L, list_to_set_elements_L. }
  assert (Hpanic : LeafToRoots tree leaf = None <-> leaf ∈ Leafs tree).
  { rewrite Hcall. split.
    - destruct (bool_decide _) eqn:Hex; [|done]. intros _.
      apply bool_decide_eq_true, Exists_exists in Hex as (root & Hin & Hroot).
      apply elem_of_elements in Hin. apply (Hatt root leaf Hroot); [|done].
      by eapply Hdom.
    - intros Hleaf. destruct (Hreach leaf Hleaf) as (root & Hroot & Hin).
      rewrite bool_decide_eq_true_2; [done|].
      apply Exists_exists. exists root. split; [|done]. by apply elem_of_elements. }
  split_and!; [exact Hpanic | |].
  - intros Hnot. rewrite Hcall. rewrite bool_decide_eq_false_2; [done|].
    intros Hex. apply Hnot, Hpanic. rewrite Hcall. by rewrite bool_decide_eq_true_2.
  - intros rs root Hrs Hroot.
    assert (Hnot : leaf ∉ Leafs tree).
    { intros Hleaf. apply Hpanic in Hleaf. congruence. }
    rewrite Hcall in Hrs. destruct (bool_decide _); [done|]. injection Hrs as <-.
    unfold AddRoot.
    rewrite (leafToRoots_static g (setRoots tree ({[root]} ∪ Roots tree)) tree)
      by (by destruct tree).
    rewrite Hl2r.
    destruct (fold_left _ _ _) as [leafs cbs1] eqn:Hfold.
    exists (setLeafs (setRoots tree ({[root]} ∪ Roots tree)) leafs), cbs1.
    split; [done|].
    assert (Hid : ID (setRoots tree ({[root]} ∪ Roots tree)) = ID tree) by (by destruct tree).
    rewrite Hid in Hfold.
    assert (Hleafs1 : Leafs (setRoots tree ({[root]} ∪ Roots tree)) = Leafs tree)
      by (by destruct tree).
    rewrite Hleafs1 in Hfold.
    assert (Hfold' : fold_left (addRootStep g (ID tree) root l2r)
                       (SortedKeys (dom l2r)) (Leafs tree, cbs) = (leafs, cbs ++ cbs1)).
    { by rewrite addRoot_loop_acc, Hfold. }
    destruct (addRoot_loop g _ _ _ _ _ _ _ _ Hfold') as (_ & Hreach' & _ & Hann & _).
    assert (Hin : leaf ∈ leafs).
    { apply Hreach'; [|done]. apply elem_of_SortedKeys. by eapply Hdom. }
    split; [by destruct tree|].
    specialize (Hann Hcbs leaf). rewrite decide_True in Hann by done.
    unfold announced in Hann. rewrite filter_app in Hann.
    fold (announced leaf cbs) in Hann. rewrite (Hcbs leaf) in Hann.
    by rewrite decide_False in Hann by done.
Qed.

End WithGraph.

(** The family of [familyGraph] with the root 300 only: the leafs 100
    and 200 are attached, the orphan 400 is not. *)
Definition partTree : RebuiltTree := mkTree 5 None 0 {[300]} {[100; 200]}.

Definition partAnnounced : list AddedItem :=
  default [] (snd <$> addRoots familyGraph dupTree0 [] [300]).

Definition familyRoots : gmap LogicalAddr (gset LogicalAddr) :=
  default ∅ (leafToRoots familyGraph partTree).

Lemma Leafs_are_the_reached_leafs_witness :
  100 ∈ Leafs partTree
  <-> ∃ root, root ∈ Roots partTree ∧ root ∈ default ∅ (familyRoots !! 100).
Proof.
  assert (H : addRoots familyGraph dupTree0 [] [300] = Some (partTree, partAnnounced))
    by (vm_compute; reflexivity).
  assert (H' : leafToRoots familyGraph partTree = Some familyRoots)
    by (vm_compute; reflexivity).
  exact (Leafs_are_the_reached_leafs familyGraph dupTree0 [300] partTree partAnnounced
           familyRoots 100 eq_refl eq_refl H H').
Defined.

Lemma LeafToRoots_roots_attach_witness :
  LeafToRoots familyGraph partTree 400 = Some (default ∅ (familyRoots !! 400))
  ∧ LeafToRoots familyGraph partTree 100 = None.
Proof.
  assert (H : addRoots familyGraph dupTree0 [] [300] = Some (partTree, partAnnounced))
    by (vm_compute; reflexivity).
  assert (H' : leafToRoots familyGraph partTree = Some familyRoots)
    by (vm_compute; reflexivity).
  split.
  - refine (proj1 (proj2 (LeafToRoots_roots_attach familyGraph dupTree0 [300] partTree
                            partAnnounced familyRoots 400 eq_refl eq_refl H H' _)) _).
    + vm_compute; reflexivity.
    + by_evaluation.
  - refine (proj2 (proj1 (LeafToRoots_roots_attach familyGraph dupTree0 [300] partTree
                            partAnnounced familyRoots 100 eq_refl eq_refl H H' _)) _).
    + vm_compute; reflexivity.
    + by_evaluation.
Defined.

End TreeRoots.

(** * The pointers of the item indexes *)

Module ItemPointers.
Import btrees ItemIndexes.

Section WithGraph.
Variable g : pkggraph.Graph.

(** The item in slot [i] of the node has the key. *)
Definition at_slot (leaf : LogicalAddr) (i : nat) (k : Key) : Prop :=
  pkggraph.Items (pkggraph.node g leaf) !! i = Some k.

(** What [shouldReplace] compares: the COW distance of the owner, then
    the generation.  [prefer tree a b]: an item of node [a] replaces
    one of node [b]. *)
Definition dist (tree : RebuiltTree) (n : LogicalAddr) : Z :=
  fst (COWDistance tree (pkggraph.Owner (pkggraph.node g n))).

Definition prefer (tree : RebuiltTree) (a b : LogicalAddr) : Prop :=
  dist tree a < dist tree b
  ∨ (dist tree a = dist tree b
     ∧ pkggraph.Generation (pkggraph.node g a) > pkggraph.Generation (pkggraph.node g b)).

Lemma shouldReplace_prefer tree oldNode newNode :
  (shouldReplace g tree oldNode newNode = Some true <-> prefer tree newNode oldNode)
  ∧ (shouldReplace g tree oldNode newNode = Some false <-> prefer tree oldNode newNode).
Proof.
  unfold shouldReplace, prefer. fold (dist tree oldNode). fold (dist tree newNode).
  destruct (Z.ltb_spec (dist tree newNode) (dist tree oldNode));
    [split; split; intros ?; try discriminate; try done; lia|].
  destruct (Z.gtb_spec (dist tree newNode) (dist tree oldNode));
    [split; split; intros ?; try discriminate; try done; lia|].
  destruct (Z.gtb_spec (pkggraph.Generation (pkggraph.node g newNode))
                       (pkggraph.Generation (pkggraph.node g oldNode)));
    [split; split; intros ?; try discriminate; try done; lia|].
  destruct (Z.ltb_spec (pkggraph.Generation (pkggraph.node g newNode))
                       (pkggraph.Generation (pkggraph.node g oldNode)));
    [split; split; intros ?; try discriminate; try done; lia|].
  split; split; intros ?; try discriminate; lia.
Qed.

Lemma prefer_trans tree a b c : prefer tree a b -> prefer tree b c -> prefer tree a c.
Proof. unfold prefer. lia. Qed.

Lemma prefer_static t1 t2 a b :
  AddRoots.same_static t1 t2 -> prefer t1 a b <-> prefer t2 a b.
Proof.
  intros (Hid & Hp & _). unfold prefer, dist, COWDistance.
  destruct t1 as [id1 p1 pg1 r1 l1], t2 as [id2 p2 pg2 r2 l2]; simpl in *. by subst.
Qed.

(** The index [m] after the slots [done] have been read: every pointer
    is to a slot that was read and that holds the key, and for every
    slot read the index has its key, with a pointer to that slot or to
    a node that [shouldReplace] prefers. *)
Definition good (tree : RebuiltTree) (done : LogicalAddr -> nat -> Prop)
  (m : gmap Key ItemPtr) : Prop :=
  (∀ k ptr, m !! k = Some ptr -> done (Node ptr) (Idx ptr) ∧ at_slot (Node ptr) (Idx ptr) k)
  ∧ (∀ leaf i k, done leaf i -> at_slot leaf i k ->
       ∃ ptr, m !! k = Some ptr
              ∧ (ptr = {| Node := leaf; Idx := i |} ∨ prefer tree (Node ptr) leaf)).

Lemma good_weaken tree (done done' : LogicalAddr -> nat -> Prop) m :
  (∀ l i, done l i -> done' l i) ->
  (∀ l i k, done' l i -> at_slot l i k -> done l i) ->
  good tree done m -> good tree done' m.
Proof.
  intros H1 H2 [Hv Hb]. split.
  - intros k ptr Hk. destruct (Hv k ptr Hk). split; [by apply H1 | done].
  - intros leaf i k Hd Hs. apply Hb; [by eapply H2 | done].
Qed.

(** Reading one more slot. *)
Lemma good_step tree (done : LogicalAddr -> nat -> Prop) m leaf j k m' :
  good tree done m -> at_slot leaf j k ->
  match m !! k with
  | None => Some (<[k := {| Node := leaf; Idx := j |}]> m)
  | Some oldPtr =>
      match shouldReplace g tree (Node oldPtr) leaf with
      | None => None
      | Some replace =>
          Some (if replace then <[k := {| Node := leaf; Idx := j |}]> m else m)
      end
  end = Some m' ->
  good tree (fun l i => done l i ∨ (l = leaf ∧ i = j)) m'.
Proof.
  intros [Hv Hb] Hslot Hstep.
  assert (Hins : (m !! k = None ∨ ∃ old, m !! k = Some old ∧ prefer tree leaf (Node old)) ->
                 good tree (fun l i => done l i ∨ (l = leaf ∧ i = j))
                      (<[k := {| Node := leaf; Idx := j |}]> m)).
  { intros Hold. split.
    - intros k' ptr. destruct (decide (k = k')) as [<-|Hne].
      + rewrite lookup_insert_eq. intros [= <-]; simpl. split; [by right | done].
      + rewrite lookup_insert_ne by done. intros Hk'.
        destruct (Hv k' ptr Hk'). split; [by left | done].
    - intros l i k' [Hd|[-> ->]] Hs.
      + destruct (Hb l i k' Hd Hs) as (ptr & Hptr & Hbest).
        destruct (decide (k = k')) as [<-|Hne].
        * rewrite lookup_insert_eq. eexists; split; [done|]. right; simpl.
          destruct Hold as [Hnone|(old & Hsome & Hpref)]; [congruence|].
          assert (old = ptr) as -> by congruence.
          destruct Hbest as [->|Hbest]; [done | by eapply prefer_trans].
        * rewrite lookup_insert_ne by done. by exists ptr.
      + assert (k' = k) as -> by (unfold at_slot in *; congruence).
        rewrite lookup_insert_eq. eexists; split; [done|]. by left. }
  destruct (m !! k) as [old|] eqn:Hk.
  - destruct (shouldReplace g tree (Node old) leaf) as [[|]|] eqn:Hsr; [| |done].
    + injection Hstep as <-. apply Hins. right. exists old. split; [done|].
      by apply (proj1 (shouldReplace_prefer _ _ _)).
    + injection Hstep as <-. apply (proj2 (shouldReplace_prefer _ _ _)) in Hsr. split.
      * intros k' ptr Hk'. destruct (Hv k' ptr Hk'). split; [by left | done].
      * intros l i k' [Hd|[-> ->]] Hs; [by apply Hb|].
        assert (k' = k) as -> by (unfold at_slot in *; congruence).
        exists old. split; [done | by right].
  - injection Hstep as <-. apply Hins. by left.
Qed.

(** The inner loop of [items] over the slots of one leaf from [j] on. *)
Lemma itemsLeaf_good tree leaf (D : LogicalAddr -> nat -> Prop) :
  ∀ keys j index index',
    (∀ i k, keys !! i = Some k -> at_slot leaf (j + i) k) ->
    good tree (fun l i => D l i ∨ (l = leaf ∧ (i < j)%nat)) (ixItems index) ->
    itemsLeaf g tree leaf j keys index = Some index' ->
    ixLeafs index' = ixLeafs index
    ∧ good tree (fun l i => D l i ∨ (l = leaf ∧ (i < j + length keys)%nat))
           (ixItems index').
Proof.
  induction keys as [|k keys IH]; intros j index index' Hkeys Hgood; cbn [itemsLeaf].
  - intros [= <-]. split; [done|].
    eapply good_weaken; [| |exact Hgood]; simpl.
    + intros l i [?|[? ?]]; [by left | right; split; [done | lia]].
    + intros l i _ [?|[? ?]] _; [by left | right; split; [done | lia]].
  - assert (Hslot : at_slot leaf j k).
    { specialize (Hkeys 0%nat k eq_refl). by rewrite Nat.add_0_r in Hkeys. }
    assert (Hkeys' : ∀ i k', keys !! i = Some k' -> at_slot leaf (S j + i) k').
    { intros i k' Hi. specialize (Hkeys (S i) k' Hi).
      by replace (j + S i)%nat with (S j + i)%nat in Hkeys by lia. }
    assert (Hnext : ∀ m', good tree (fun l i => (D l i ∨ (l = leaf ∧ (i < j)%nat))
                                               ∨ (l = leaf ∧ i = j)) m' ->
              good tree (fun l i => D l i ∨ (l = leaf ∧ (i < S j)%nat)) m').
    { intros m'. apply good_weaken.
      - intros l i [[?|[? ?]]|[? ?]]; [by left | right; split; [done | lia] ..].
      - intros l i _ [?|[? ?]] _; [by left; left|].
        destruct (decide (i = j)); [by right | left; right; split; [done | lia]]. }
    assert (Hstep : ∀ m',
              match ixItems index !! k with
              | None => Some (<[k := {| Node := leaf; Idx := j |}]> (ixItems index))
              | Some oldPtr =>
                  match shouldReplace g tree (Node oldPtr) leaf with
                  | None => None
                  | Some replace =>
                      Some (if replace
                            then <[k := {| Node := leaf; Idx := j |}]> (ixItems index)
                            else ixItems index)
                  end
              end = Some m' ->
              good tree (fun l i => D l i ∨ (l = leaf ∧ (i < S j)%nat)) m').
    { intros m' Hm'. apply Hnext. by eapply good_step. }
    assert (Hwiden : ∀ index1,
              good tree (fun l i => D l i ∨ (l = leaf ∧ (i < S j + length keys)%nat))
                   (ixItems index1) ->
              good tree (fun l i => D l i ∨ (l = leaf ∧ (i < j + length (k :: keys))%nat))
                   (ixItems index1)).
    { intros index1. apply good_weaken; simpl.
      - intros l i [?|[? ?]]; [by left | right; split; [done | lia]].
      - intros l i _ [?|[? ?]] _; [by left | right; split; [done | lia]]. }
    destruct (ixItems index !! k) as [old|] eqn:Hk; cbn beta iota.
    + cbn [Node]. destruct (shouldReplace g tree (Node old) leaf) as [replace|] eqn:Hsr;
        cbn beta iota; [|done].
      intros Hrest. specialize (Hstep _ eq_refl).
      match type of Hrest with
      | itemsLeaf _ _ _ _ _ ?ix = _ =>
          destruct (IH (S j) ix index' Hkeys' Hstep Hrest) as [Hl Hg]
      end.
      split; [done | by apply Hwiden].
    + intros Hrest. specialize (Hstep _ eq_refl).
      match type of Hrest with
      | itemsLeaf _ _ _ _ _ ?ix = _ =>
          destruct (IH (S j) ix index' Hkeys' Hstep Hrest) as [Hl Hg]
      end.
      split; [done | by apply Hwiden].
Qed.

(** The index after whole leafs have been read. *)
Definition index_good (tree : RebuiltTree) (index : itemIndex) : Prop :=
  good tree (fun l _ => l ∈ ixLeafs index) (ixItems index).

Lemma itemsStep_good tree index leaf index' :
  index_good tree index -> itemsStep g tree (Some index) leaf = Some index' ->
  index_good tree index' ∧ ixLeafs index' = {[leaf]} ∪ ixLeafs index.
Proof.
  unfold itemsStep, index_good. intros Hgood.
  destruct (bool_decide (leaf ∈ ixLeafs index)) eqn:Hin.
  - apply bool_decide_eq_true in Hin. intros [= <-]. split; [done|].
    symmetry. apply subseteq_union_1_L. by apply singleton_subseteq_l.
  - apply bool_decide_eq_false in Hin. intros Hleaf.
    apply (itemsLeaf_good tree leaf (fun l _ => l ∈ ixLeafs index)) in Hleaf
      as [Hl Hg]; simpl in *.
    + split; [|done]. rewrite Hl.
      eapply good_weaken; [| |exact Hg]; simpl.
      * intros l i [?|[-> _]]; apply elem_of_union; [by right | left].
        by apply elem_of_singleton.
      * intros l i k [->%elem_of_singleton|?]%elem_of_union Hs; [right | by left].
        split; [done|]. unfold at_slot in Hs. by apply lookup_lt_Some in Hs.
    + intros i k Hi. exact Hi.
    + eapply good_weaken; [| |exact Hgood]; simpl.
      * intros l i ?. by left.
      * intros l i k [?|[_ ?]] _; [done | lia].
Qed.

Lemma items_good tree leafs : ∀ index index',
  index_good tree index ->
  fold_left (itemsStep g tree) leafs (Some index) = Some index' ->
  index_good tree index' ∧ ixLeafs index' = list_to_set leafs ∪ ixLeafs index.
Proof.
  induction leafs as [|leaf leafs IH]; intros index index' Hgood; cbn [fold_left].
  - intros [= <-]. split; [done|]. by rewrite list_to_set_nil, union_empty_l_L.
  - destruct (itemsStep g tree (Some index) leaf) as [index1|] eqn:Hstep.
    + intros Hrest. destruct (itemsStep_good _ _ _ _ Hgood Hstep) as [Hg1 Hl1].
      destruct (IH _ _ Hg1 Hrest) as [Hg Hl]. split; [done|].
      rewrite Hl, Hl1, list_to_set_cons.
      by rewrite (assoc_L (∪)), (comm_L (∪) (list_to_set leafs) {[leaf]}).
    + by rewrite items_None.
Qed.

Lemma index_good_new tree : index_good tree newItemIndex.
Proof.
  split.
  - intros k ptr Hk. simpl in Hk. by rewrite lookup_empty in Hk.
  - intros leaf i k Hd. simpl in Hd. by apply not_elem_of_empty in Hd.
Qed.

Lemma index_good_static t1 t2 index :
  AddRoots.same_static t1 t2 -> index_good t1 index -> index_good t2 index.
Proof.
  intros Hst [Hv Hb]. split; [done|].
  intros leaf i k Hd Hs. destruct (Hb leaf i k Hd Hs) as (ptr & Hptr & Hbest).
  exists ptr. split; [done|]. destruct Hbest as [?|Hp]; [by left | right].
  by apply (prefer_static t1 t2).
Qed.

(** The entry of the cache of [Items] is an index of leafs of the
    tree. *)
Definition inc_inv (st : State) : Prop :=
  ∀ index, incItems st = Some index ->
           ixLeafs index ⊆ Leafs (stTree st) ∧ index_good (stTree st) index.

Lemma Items_good tree cache index' :
  (∀ index, cache = Some index -> ixLeafs index ⊆ Leafs tree ∧ index_good tree index) ->
  Items g tree cache = Some index' ->
  ixLeafs index' = Leafs tree ∧ index_good tree index'.
Proof.
  intros Hcache. unfold Items, items. intros Hfold.
  assert (Hc : ixLeafs (default newItemIndex cache) ⊆ Leafs tree
               ∧ index_good tree (default newItemIndex cache)).
  { destruct cache as [index|]; simpl; [by apply Hcache|].
    split; [apply empty_subseteq | apply index_good_new]. }
  destruct Hc as [Hsub Hgood].
  destruct (items_good _ _ _ _ Hgood Hfold) as [Hg Hl]. split; [|done].
  rewrite Hl. apply set_eq. intros leaf. rewrite elem_of_union, elem_of_list_to_set.
  rewrite AddRoots.elem_of_SortedKeys. split; [intros [?|?]; [done | by apply Hsub] | by left].
Qed.

Lemma inc_inv_call st c st' : inc_inv st -> call g st c = Some st' -> inc_inv st'.
Proof.
  intros Hinv. destruct c as [rootNode| | | |]; simpl.
  - destruct (AddRoot g (stTree st) rootNode) as [[tree' cbs]|] eqn:Hadd; [|done].
    intros [= <-]. unfold inc_inv; cbn [stTree incItems].
    destruct (AddRoots.AddRoot_Some g _ _ _ _ Hadd) as (l2r & _ & Hst & _ & Hfold).
    destruct (AddRoots.addRoot_loop g _ _ _ _ _ _ _ _ Hfold) as (Hmono & _).
    intros index Hindex. destruct (Hinv index Hindex) as [Hsub Hgood].
    split; [by etrans | by eapply index_good_static].
  - destruct (Items g (stTree st) (incItems st)) as [index|] eqn:Hitems; [|done].
    intros [= <-]. unfold inc_inv; cbn [stTree incItems]. intros index' [= <-].
    destruct (Items_good _ _ _ Hinv Hitems) as [Hl Hg]. split; [by rewrite Hl | done].
  - destruct (PotentialItems g (stTree st) (allItems st)) as [index|]; [|done].
    by intros [= <-].
  - intros [= <-]. unfold inc_inv; cbn [stTree incItems]. done.
  - by intros [= <-].
Qed.

Lemma inc_inv_calls cs : ∀ st st',
  inc_inv st -> calls g st cs = Some st' -> inc_inv st'.
Proof.
  induction cs as [|c cs IH]; simpl; intros st st' Hinv.
  - by intros [= <-].
  - destruct (call g st c) as [st1|] eqn:Hcall; [|done].
    apply IH. by eapply inc_inv_call.
Qed.

Lemma Items_after_calls tree0 cs st inc :
  calls g {| stTree := tree0; incItems := None; allItems := None |} cs = Some st ->
  Items g (stTree st) (incItems st) = Some inc ->
  ixLeafs inc = Leafs (stTree st) ∧ index_good (stTree st) inc.
Proof.
  intros Hcalls Hitems.
  assert (Hinv0 : inc_inv {| stTree := tree0; incItems := None; allItems := None |})
    by (by intros index).
  pose proof (inc_inv_calls _ _ _ Hinv0 Hcalls) as Hinv.
  exact (Items_good _ _ _ Hinv Hitems).
Qed.

(** X20: for a tree that goes through any calls of [AddRoot], [Items]
    and [PotentialItems] and any evictions from the two caches, the
    index that [Items] returns has exactly the keys of the items of the
    leafs of the tree, and each pointer is to a slot of a leaf of the
    tree that holds the key. *)
Theorem Items_index_is_exact (tree0 : RebuiltTree) (cs : list Call) (st : State)
  (inc : itemIndex) :
  calls g {| stTree := tree0; incItems := None; allItems := None |} cs = Some st ->
  Items g (stTree st) (incItems st) = Some inc ->
  (∀ k, is_Some (ixItems inc !! k)
        <-> ∃ leaf, leaf ∈ Leafs (stTree st) ∧ holds g leaf k)
  ∧ (∀ k ptr, ixItems inc !! k = Some ptr ->
       Node ptr ∈ Leafs (stTree st)
       ∧ pkggraph.Items (pkggraph.node g (Node ptr)) !! Idx ptr = Some k).
Proof.
  intros Hcalls Hitems.
  destruct (Items_after_calls _ _ _ _ Hcalls Hitems) as [Hl [Hv Hb]].
  rewrite Hl in Hv, Hb. split; [|exact Hv].
  intros k. split.
  - intros [ptr Hptr]. destruct (Hv k ptr Hptr) as [Hin Hs].
    exists (Node ptr). split; [done|]. unfold holds.
    by eapply list_elem_of_lookup_2.
  - intros (leaf & Hleaf & Hholds). unfold holds in Hholds.
    apply list_elem_of_lookup_1 in Hholds as [i Hi].
    destruct (Hb leaf i k Hleaf Hi) as (ptr & Hptr & _). by exists ptr.
Qed.

(** X21: in the index that [Items] returns, the pointer for a key is to
    the item that [shouldReplace] prefers: for every slot of a leaf of
    the tree that holds the key, the pointer is to that slot, or
    [shouldReplace] answers that the pointer's node replaces that
    leaf. *)
Theorem Items_pointer_is_preferred (tree0 : RebuiltTree) (cs : list Call) (st : State)
  (inc : itemIndex) (k : Key) (ptr : ItemPtr) (leaf : LogicalAddr) (i : nat) :
  calls g {| stTree := tree0; incItems := None; allItems := None |} cs = Some st ->
  Items g (stTree st) (incItems st) = Some inc ->
  ixItems inc !! k = Some ptr ->
  leaf ∈ Leafs (stTree st) ->
  pkggraph.Items (pkggraph.node g leaf) !! i = Some k ->
  ptr = {| Node := leaf; Idx := i |}
  ∨ shouldReplace g (stTree st) leaf (Node ptr) = Some true.
Proof.
  intros Hcalls Hitems Hptr Hleaf Hi.
  destruct (Items_after_calls _ _ _ _ Hcalls Hitems) as [Hl [_ Hb]].
  rewrite Hl in Hb.
  destruct (Hb leaf i k Hleaf Hi) as (ptr' & Hptr' & Hbest).
  assert (ptr' = ptr) as -> by congruence.
  destruct Hbest as [?|Hp]; [by left | right].
  by apply (proj1 (shouldReplace_prefer _ _ _)).
Qed.

(** The entry of the cache of [PotentialItems] is an index of leafs
    that [leafToRoots] lists. *)
Definition all_inv (st : State) : Prop :=
  ∀ index, allItems st = Some index ->
           index_good (stTree st) index
           ∧ ∀ l2r, leafToRoots g (stTree st) = Some l2r -> ixLeafs index ⊆ dom l2r.

Lemma PotentialItems_good tree cache l2r index' :
  (∀ index, cache = Some index ->
            index_good tree index
            ∧ ∀ l2r, leafToRoots g tree = Some l2r -> ixLeafs index ⊆ dom l2r) ->
  leafToRoots g tree = Some l2r ->
  PotentialItems g tree cache = Some index' ->
  ixLeafs index' = dom l2r ∧ index_good tree index'.
Proof.
  intros Hcache Hl2r. unfold PotentialItems, items. rewrite Hl2r. intros Hfold.
  assert (Hc : ixLeafs (default newItemIndex cache) ⊆ dom l2r
               ∧ index_good tree (default newItemIndex cache)).
  { destruct cache as [index|]; simpl.
    - destruct (Hcache index eq_refl) as [Hg Hsub]. split; [by apply Hsub | done].
    - split; [apply empty_subseteq | apply index_good_new]. }
  destruct Hc as [Hsub Hgood].
  destruct (items_good _ _ _ _ Hgood Hfold) as [Hg Hl]. split; [|done].
  rewrite Hl. apply set_eq. intros leaf. rewrite elem_of_union, elem_of_list_to_set.
  rewrite AddRoots.elem_of_SortedKeys. split; [intros [?|?]; [done | by apply Hsub] | by left].
Qed.

Lemma all_inv_call st c st' : all_inv st -> call g st c = Some st' -> all_inv st'.
Proof.
  intros Hinv. destruct c as [rootNode| | | |]; simpl.
  - destruct (AddRoot g (stTree st) rootNode) as [[tree' cbs]|] eqn:Hadd; [|done].
    intros [= <-]. unfold all_inv; cbn [stTree allItems].
    destruct (AddRoots.AddRoot_Some g _ _ _ _ Hadd) as (l2r & Hl2r & Hst & _).
    pose proof (AddRoots.leafToRoots_static g _ _ Hst) as Hsame.
    intros index Hindex. destruct (Hinv index Hindex) as [Hgood Hsub].
    split; [by eapply index_good_static|].
    intros l2r' Hl2r'. apply Hsub. by rewrite Hsame.
  - destruct (Items g (stTree st) (incItems st)) as [index|]; [|done].
    by intros [= <-].
  - destruct (PotentialItems g (stTree st) (allItems st)) as [index|] eqn:Hitems; [|done].
    intros [= <-]. unfold all_inv; cbn [stTree allItems]. intros index' [= <-].
    assert (Hsome : is_Some (leafToRoots g (stTree st))).
    { unfold PotentialItems in Hitems. by destruct (leafToRoots g (stTree st)). }
    destruct Hsome as [l2r Hl2r].
    destruct (PotentialItems_good _ _ _ _ Hinv Hl2r Hitems) as [Hl Hg].
    split; [done|]. intros l2r' Hl2r'. assert (l2r' = l2r) as -> by congruence.
    by rewrite Hl.
  - by intros [= <-].
  - intros [= <-]. unfold all_inv; cbn [stTree allItems]. done.
Qed.

Lemma all_inv_calls cs : ∀ st st',
  all_inv st -> calls g st cs = Some st' -> all_inv st'.
Proof.
  induction cs as [|c cs IH]; simpl; intros st st' Hinv.
  - by intros [= <-].
  - destruct (call g st c) as [st1|] eqn:Hcall; [|done].
    apply IH. by eapply all_inv_call.
Qed.

Lemma PotentialItems_after_calls tree0 cs st l2r all :
  calls g {| stTree := tree0; incItems := None; allItems := None |} cs = Some st ->
  leafToRoots g (stTree st) = Some l2r ->
  PotentialItems g (stTree st) (allItems st) = Some all ->
  ixLeafs all = dom l2r ∧ index_good (stTree st) all.
Proof.
  intros Hcalls Hl2r Hitems.
  assert (Hinv0 : all_inv {| stTree := tree0; incItems := None; allItems := None |})
    by (by intros index).
  pose proof (all_inv_calls _ _ _ Hinv0 Hcalls) as Hinv.
  exact (PotentialItems_good _ _ _ _ Hinv Hl2r Hitems).
Qed.

(** X22: for a tree that goes through any calls of [AddRoot], [Items]
    and [PotentialItems] and any evictions from the two caches, the
    index that [PotentialItems] returns has exactly the keys of the
    items of the leafs that [leafToRoots] lists, and each pointer is to
    a slot of such a leaf that holds the key. *)
Theorem PotentialItems_index_is_exact (tree0 : RebuiltTree) (cs : list Call) (st : State)
  (l2r : gmap LogicalAddr (gset LogicalAddr)) (all : itemIndex) :
  calls g {| stTree := tree0; incItems := None; allItems := None |} cs = Some st ->
  leafToRoots g (stTree st) = Some l2r ->
  PotentialItems g (stTree st) (allItems st) = Some all ->
  (∀ k, is_Some (ixItems all !! k) <-> ∃ leaf, leaf ∈ dom l2r ∧ holds g leaf k)
  ∧ (∀ k ptr, ixItems all !! k = Some ptr ->
       Node ptr ∈ dom l2r
       ∧ pkggraph.Items (pkggraph.node g (Node ptr)) !! Idx ptr = Some k).
Proof.
  intros Hcalls Hl2r Hitems.
  destruct (PotentialItems_after_calls _ _ _ _ _ Hcalls Hl2r Hitems) as [Hl [Hv Hb]].
  rewrite Hl in Hv, Hb. split; [|exact Hv].
  intros k. split.
  - intros [ptr Hptr]. destruct (Hv k ptr Hptr) as [Hin Hs].
    exists (Node ptr). split; [done|]. unfold holds.
    by eapply list_elem_of_lookup_2.
  - intros (leaf & Hleaf & Hholds). unfold holds in Hholds.
    apply list_elem_of_lookup_1 in Hholds as [i Hi].
    destruct (Hb leaf i k Hleaf Hi) as (ptr & Hptr & _). by exists ptr.
Qed.

(** X23: for a tree that starts without leafs, the pointer that
    [PotentialItems] has for a key of [Items] is the pointer of
    [Items], or a pointer to a node that [shouldReplace] prefers to the
    node of the pointer of [Items]. *)
Theorem PotentialItems_pointer_no_worse (tree0 : RebuiltTree) (cs : list Call) (st : State)
  (inc all : itemIndex) (k : Key) (p : ItemPtr) :
  Leafs tree0 = ∅ ->
  calls g {| stTree := tree0; incItems := None; allItems := None |} cs = Some st ->
  Items g (stTree st) (incItems st) = Some inc ->
  PotentialItems g (stTree st) (allItems st) = Some all ->
  ixItems inc !! k = Some p ->
  ∃ q, ixItems all !! k = Some q
       ∧ (q = p ∨ shouldReplace g (stTree st) (Node p) (Node q) = Some true).
Proof.
  intros Hleafs0 Hcalls Hitems Hpot Hp.
  assert (Hinv0 : state_inv g {| stTree := tree0; incItems := None; allItems := None |}).
  { split_and!; simpl; [|done|done].
    intros l2r _. rewrite Hleafs0. apply empty_subseteq. }
  destruct (state_inv_calls g _ _ _ Hinv0 Hcalls) as (Hleafs & _ & _).
  assert (Hsome : is_Some (leafToRoots g (stTree st))).
  { unfold PotentialItems in Hpot. by destruct (leafToRoots g (stTree st)). }
  destruct Hsome as [l2r Hl2r].
  destruct (Items_after_calls _ _ _ _ Hcalls Hitems) as [Hl [Hv _]].
  destruct (PotentialItems_after_calls _ _ _ _ _ Hcalls Hl2r Hpot) as [Hl' [_ Hb]].
  destruct (Hv k p Hp) as [Hin Hslot]. rewrite Hl in Hin.
  apply (Hleafs l2r Hl2r) in Hin. rewrite <- Hl' in Hin.
  destruct (Hb (Node p) (Idx p) k Hin Hslot) as (q & Hq & Hbest).
  exists q. split; [done|]. destruct Hbest as [->|Hpref].
  - left. by destruct p.
  - right. by apply (proj1 (shouldReplace_prefer _ _ _)).
Qed.

End WithGraph.

(** Both leafs of [dupGraph] attached. *)
Definition dupBoth : State :=
  default dupState
    (calls dupGraph {| stTree := dupTree0; incItems := None; allItems := None |}
           [CallAddRoot 100; CallItems; CallAddRoot 200]).

Definition dupBothInc : itemIndex :=
  default newItemIndex (Items dupGraph (stTree dupBoth) (incItems dupBoth)).

Lemma Items_index_is_exact_witness :
  Node {| Node := 200; Idx := 0 |} ∈ Leafs (stTree dupBoth)
  ∧ pkggraph.Items (pkggraph.node dupGraph (Node {| Node := 200; Idx := 0 |}))
      !! Idx {| Node := 200; Idx := 0 |} = Some dupKey.
Proof.
  assert (H1 : calls dupGraph {| stTree := dupTree0; incItems := None; allItems := None |}
                 [CallAddRoot 100; CallItems; CallAddRoot 200] = Some dupBoth)
    by (vm_compute; reflexivity).
  assert (H2 : Items dupGraph (stTree dupBoth) (incItems dupBoth) = Some dupBothInc)
    by (vm_compute; reflexivity).
  assert (H3 : ixItems dupBothInc !! dupKey = Some {| Node := 200; Idx := 0 |})
    by (vm_compute; reflexivity).
  exact (proj2 (Items_index_is_exact dupGraph dupTree0 _ dupBoth dupBothInc H1 H2)
           dupKey _ H3).
Defined.

Lemma Items_pointer_is_preferred_witness :
  {| Node := 200; Idx := 0 |} = {| Node := 100; Idx := 0%nat |}
  ∨ shouldReplace dupGraph (stTree dupBoth) 100 (Node {| Node := 200; Idx := 0 |})
    = Some true.
Proof.
  assert (H1 : calls dupGraph {| stTree := dupTree0; incItems := None; allItems := None |}
                 [CallAddRoot 100; CallItems; CallAddRoot 200] = Some dupBoth)
    by (vm_compute; reflexivity).
  assert (H2 : Items dupGraph (stTree dupBoth) (incItems dupBoth) = Some dupBothInc)
    by (vm_compute; reflexivity).
  assert (H3 : ixItems dupBothInc !! dupKey = Some {| Node := 200; Idx := 0 |})
    by (vm_compute; reflexivity).
  assert (H4 : 100 ∈ Leafs (stTree dupBoth)) by by_evaluation.
  assert (H5 : pkggraph.Items (pkggraph.node dupGraph 100) !! 0%nat = Some dupKey)
    by (vm_compute; reflexivity).
  exact (Items_pointer_is_preferred dupGraph dupTree0 _ dupBoth dupBothInc dupKey
           _ 100 0%nat H1 H2 H3 H4 H5).
Defined.

Definition dupRoots : gmap LogicalAddr (gset LogicalAddr) :=
  default ∅ (leafToRoots dupGraph dupTree).

Lemma PotentialItems_index_is_exact_witness :
  Node {| Node := 200; Idx := 0 |} ∈ dom dupRoots
  ∧ pkggraph.Items (pkggraph.node dupGraph (Node {| Node := 200; Idx := 0 |}))
      !! Idx {| Node := 200; Idx := 0 |} = Some dupKey.
Proof.
  assert (H1 : calls dupGraph {| stTree := dupTree0; incItems := None; allItems := None |}
                 [CallAddRoot 100] = Some dupState)
    by (vm_compute; reflexivity).
  assert (H2 : leafToRoots dupGraph (stTree dupState) = Some dupRoots)
    by (vm_compute; reflexivity).
  assert (H3 : PotentialItems dupGraph (stTree dupState) (allItems dupState) = Some dupAll)
    by (vm_compute; reflexivity).
  assert (H4 : ixItems dupAll !! dupKey = Some {| Node := 200; Idx := 0 |})
    by (vm_compute; reflexivity).
  exact (proj2 (PotentialItems_index_is_exact dupGraph dupTree0 _ dupState dupRoots dupAll
                  H1 H2 H3) dupKey _ H4).
Defined.

Lemma PotentialItems_pointer_no_worse_witness :
  ∃ q, ixItems dupAll !! dupKey = Some q
       ∧ (q = {| Node := 100; Idx := 0 |}
          ∨ shouldReplace dupGraph (stTree dupState) (Node {| Node := 100; Idx := 0 |})
                          (Node q) = Some true).
Proof.
  assert (H1 : calls dupGraph {| stTree := dupTree0; incItems := None; allItems := None |}
                 [CallAddRoot 100] = Some dupState)
    by (vm_compute; reflexivity).
  assert (H2 : Items dupGraph (stTree dupState) (incItems dupState) = Some dupInc)
    by (vm_compute; reflexivity).
  assert (H3 : PotentialItems dupGraph (stTree dupState) (allItems dupState) = Some dupAll)
    by (vm_compute; reflexivity).
  assert (H4 : ixItems dupInc !! dupKey = Some {| Node := 100; Idx := 0 |})
    by (vm_compute; reflexivity).
  exact (PotentialItems_pointer_no_worse dupGraph dupTree0 _ dupState dupInc dupAll dupKey
           _ eq_refl H1 H2 H3 H4).
Defined.

End ItemPointers.

(** * The union of dev-extents *)

Lemma laddrLoop_last retPAddr exts : ∀ retLAddr,
  devextMapping.laddrLoop true retPAddr retLAddr exts
  = Ok (match last exts with
        | Some ext => backProjected retPAddr ext
        | None => retLAddr
        end).
Proof.
  induction exts as [|ext exts IH]; intros retLAddr; simpl; [done|].
  rewrite IH. destruct exts as [|ext' exts]; [done|].
  rewrite last_cons_cons.
  destruct (last (ext' :: exts)) eqn:Hl; [done|]. by apply last_None in Hl.
Qed.

Lemma devext_lockedLoop_Ok retSize exts : ∀ locked locked',
  devextMapping.lockedLoop retSize locked exts = Ok locked' ->
  (locked' = true <-> locked = true ∨ ∃ e, e ∈ exts ∧ devextMapping.SizeLocked e = true)
  ∧ ∀ e, e ∈ exts -> devextMapping.SizeLocked e = true -> devextMapping.Size e = retSize.
Proof.
  induction exts as [|c exts IH]; intros locked locked'; simpl.
  - intros [= <-]. split.
    + split; [by left|]. intros [?|(c & ?%elem_of_nil & _)]; done.
    + by intros c ?%elem_of_nil.
  - destruct (devextMapping.SizeLocked c) eqn:Hc.
    + destruct (Z.eqb_spec retSize (devextMapping.Size c)) as [Heq|]; [|done]. simpl.
      intros [Hiff Hall]%IH. split.
      * rewrite Hiff. split; [|tauto]. intros _. right. exists c. split; [by left|done].
      * intros c' [->|Hc']%elem_of_cons; [done | by apply Hall].
    + intros [Hiff Hall]%IH. split.
      * rewrite Hiff. split.
        -- intros [?|(c' & Hc' & Hl)]; [by left|]. right. exists c'. split; [by right|done].
        -- intros [?|(c' & [->|Hc']%elem_of_cons & Hl)]; [by left|congruence|].
           right. by exists c'.
      * intros c' [->|Hc']%elem_of_cons; [congruence | by apply Hall].
Qed.

(** X24: a union of dev-extents covers each of its members, is size
    locked exactly when one of them is (each locked member having the
    size of the union), and takes its logical address from its last
    member alone: the address that member implies for the start of the
    union. *)
Theorem devext_union_members (a u : devextMapping.t) (rest : list devextMapping.t) :
  devextMapping.union a rest = Ok u ->
  (∀ e, e ∈ a :: rest ->
        devextMapping.PAddr u <= devextMapping.PAddr e ∧ devextStop e <= devextStop u)
  ∧ devextMapping.LAddr u = backProjected (devextMapping.PAddr u) (List.last rest a)
  ∧ (devextMapping.SizeLocked u = true
     <-> ∃ e, e ∈ a :: rest ∧ devextMapping.SizeLocked e = true)
  ∧ (∀ e, e ∈ a :: rest -> devextMapping.SizeLocked e = true ->
          devextMapping.Size e = devextMapping.Size u).
Proof.
  intros Hu. pose proof (devext_union_range _ _ _ Hu) as Hrange. symmetry in Hrange.
  apply hull_bounds in Hrange as (_ & _ & Hcov).
  split; [exact Hcov|].
  revert Hu. unfold devextMapping.union. destruct (negb _); [done|].
  destruct (devextMapping.rangeLoop _ _) as [beg end_].
  destruct (devextMapping.lockedLoop _ _ _) as [locked| |] eqn:Hl; [|done..].
  rewrite laddrLoop_last.
  destruct (devextMapping.flagsLoop _ _) as [flags| |]; [|done..].
  intros [= <-].
  cbn [devextMapping.PAddr devextMapping.LAddr devextMapping.SizeLocked devextMapping.Size].
  apply devext_lockedLoop_Ok in Hl as [Hiff Hsize].
  split_and!; [| |done].
  - destruct rest as [|e rest]; [done|].
    rewrite last_cons_cons. clear.
    revert e. induction rest as [|e' rest IH]; intros e; [done|].
    rewrite last_cons_cons. apply IH.
  - rewrite Hiff. split; [|by right]. by intros [?|?].
Qed.

Definition devextAtLAddr (laddr : LogicalAddr) : devextMapping.t :=
  {| devextMapping.PAddr := 0x1000; devextMapping.LAddr := laddr;
     devextMapping.Size := 0x1000; devextMapping.SizeLocked := false;
     devextMapping.Flags := None |}.

Lemma devext_union_members_witness :
  devextMapping.union (devextAtLAddr 0x800) [devextAtLAddr 0] = Ok (devextAtLAddr 0)
  ∧ devextMapping.LAddr (devextAtLAddr 0)
    = backProjected (devextMapping.PAddr (devextAtLAddr 0))
                    (List.last [devextAtLAddr 0] (devextAtLAddr 0x800)).
Proof.
  assert (H : devextMapping.union (devextAtLAddr 0x800) [devextAtLAddr 0]
              = Ok (devextAtLAddr 0)) by (vm_compute; reflexivity).
  split; [exact H|].
  exact (proj1 (proj2 (devext_union_members _ _ _ H))).
Defined.

(** * Printing the address space *)

Module addrspace.

(** The lines that [PrintLogicalSpace] writes for the mappings, as
    values; the three totals it writes at the end are the fields
    [sumHole], [sumChunk] and [prevEnd] of the final state. *)
Inductive line :=
| logical_hole (laddr : LogicalAddr) (size : AddrDelta)
| chunk (laddr : LogicalAddr) (size : AddrDelta) (flags : option BlockGroupFlags)
| stripe (dev_id : DeviceID) (paddr : PhysicalAddr).

Record logicalState := {
  prevBeg : LogicalAddr;
  prevEnd : LogicalAddr;
  sumHole : AddrDelta;
  sumChunk : AddrDelta;
  out : list line
}.

(** The body of the loop over the mappings. *)
Definition printLogicalMapping (st : logicalState) (mapping : Mapping) : logicalState :=
  let hole := mLAddr mapping >? prevEnd st in
  let size := Sub (mLAddr mapping) (prevEnd st) in
  let out1 := if hole then out st ++ [logical_hole (prevEnd st) size] else out st in
  let sumHole1 := if hole then wrap64 (sumHole st + size) else sumHole st in
  let out2 := if negb (mLAddr mapping =? prevBeg st)
              then out1 ++ [chunk (mLAddr mapping) (mSize mapping) (mFlags mapping)]
              else out1 in
  {| prevBeg := mLAddr mapping;
     prevEnd := Add (mLAddr mapping) (mSize mapping);
     sumHole := sumHole1;
     sumChunk := wrap64 (sumChunk st + mSize mapping);
     out := out2 ++ [stripe (Dev (mPAddr mapping)) (Addr (mPAddr mapping))] |}.

Definition PrintLogicalSpace (lv : LogicalVolume) : logicalState :=
  fold_left printLogicalMapping (Mappings lv)
            {| prevBeg := 0; prevEnd := 0; sumHole := 0; sumChunk := 0; out := [] |}.

(** The entries of [Mappings] for one chunk. *)
Definition mappingsOf (c : chunkMapping.t) : list Mapping :=
  map (fun slice =>
         {| mLAddr := chunkMapping.LAddr c; mPAddr := slice;
            mSize := chunkMapping.Size c; mSizeLocked := false;
            mFlags := chunkMapping.Flags c |})
      (chunkMapping.PAddrs c).

Definition sumSizes (t : list chunkMapping.t) : Z :=
  foldr (fun c acc => chunkMapping.Size c + acc) 0 t.

Definition sumStripes (t : list chunkMapping.t) : Z :=
  foldr (fun c acc =>
           chunkMapping.Size c * Z.of_nat (length (chunkMapping.PAddrs c)) + acc) 0 t.

(** A chunk at an address that is not negative, of positive size,
    within [int64]. *)
Definition chunk_positive (c : chunkMapping.t) : Prop :=
  0 <= chunkMapping.LAddr c ∧ 0 < chunkMapping.Size c
  ∧ chunkMapping.LAddr c + chunkMapping.Size c <= MaxInt64.

#[global] Instance chunk_positive_dec c : Decision (chunk_positive c).
Proof. unfold chunk_positive. apply _. Defined.

Lemma chunk_positive_stop c :
  chunk_positive c -> chunkStop c = chunkMapping.LAddr c + chunkMapping.Size c.
Proof.
  intros (H1 & H2 & H3). unfold chunkStop, Add. apply wrap64_id.
  unfold is_int64, MinInt64, MaxInt64 in *. lia.
Qed.

(** One entry of a chunk, read when the previous end is at or before
    the chunk or is the end of the chunk itself. *)
Lemma print_step (c : chunkMapping.t) (s : QualifiedPhysicalAddr) (st : logicalState) :
  chunk_positive c ->
  0 <= sumHole st <= prevEnd st ->
  prevEnd st <= chunkMapping.LAddr c
  ∨ prevEnd st = chunkMapping.LAddr c + chunkMapping.Size c ->
  let st' := printLogicalMapping st
               {| mLAddr := chunkMapping.LAddr c; mPAddr := s;
                  mSize := chunkMapping.Size c; mSizeLocked := false;
                  mFlags := chunkMapping.Flags c |} in
  prevEnd st' = chunkMapping.LAddr c + chunkMapping.Size c
  ∧ sumHole st' = sumHole st + Z.max 0 (chunkMapping.LAddr c - prevEnd st)
  ∧ sumChunk st' = wrap64 (sumChunk st + chunkMapping.Size c).
Proof.
  intros (Hc1 & Hc2 & Hc3) Hsum Hprev. unfold printLogicalMapping; simpl.
  split_and!; [|  |done].
  - unfold Add. apply wrap64_id. unfold is_int64, MinInt64, MaxInt64 in *. lia.
  - destruct (Z.gtb_spec (chunkMapping.LAddr c) (prevEnd st)) as [Hgt|Hle].
    + unfold Sub. rewrite wrap64_add_wrap. rewrite wrap64_id; [lia|].
      unfold is_int64, MinInt64, MaxInt64 in *. lia.
    + lia.
Qed.

Lemma print_stripes (c : chunkMapping.t) (stripes : list QualifiedPhysicalAddr) :
  chunk_positive c ->
  ∀ st,
    0 <= sumHole st <= prevEnd st ->
    prevEnd st <= chunkMapping.LAddr c
    ∨ prevEnd st = chunkMapping.LAddr c + chunkMapping.Size c ->
    let st' := fold_left printLogicalMapping
                 (map (fun slice =>
                         {| mLAddr := chunkMapping.LAddr c; mPAddr := slice;
                            mSize := chunkMapping.Size c; mSizeLocked := false;
                            mFlags := chunkMapping.Flags c |}) stripes) st in
    (stripes ≠ [] ->
       prevEnd st' = chunkMapping.LAddr c + chunkMapping.Size c
       ∧ sumHole st' = sumHole st + Z.max 0 (chunkMapping.LAddr c - prevEnd st))
    ∧ wrap64 (sumChunk st') =
        wrap64 (sumChunk st + chunkMapping.Size c * Z.of_nat (length stripes)).
Proof.
  intros Hc. pose proof Hc as (Hc1 & Hc2 & Hc3).
  induction stripes as [|s stripes IH]; intros st Hsum Hprev; cbn [map fold_left length].
  - split; [done|]. f_equal. lia.
  - destruct (print_step c s st Hc Hsum Hprev) as (H1 & H2 & H3).
    cbv zeta in H1, H2, H3.
    set (st1 := printLogicalMapping st _) in *.
    destruct (IH st1) as [Hne Hch]; [lia | right; lia |].
    cbv zeta in Hne, Hch. split.
    + intros _. destruct stripes as [|s' stripes]; [by cbn [map fold_left]|].
      destruct (Hne ltac:(done)) as [Hp Hh]. split; [done|].
      rewrite Hh, H2, H1. lia.
    + rewrite Hch, H3, wrap64_add_wrap_l. f_equal. lia.
Qed.

(** The entries of a list of chunks that lie one after the other. *)
Lemma print_chunks (t : list chunkMapping.t) :
  Forall chunk_positive t ->
  Forall (fun c => chunkMapping.PAddrs c ≠ []) t ->
  StronglySorted (fun a b => chunkStop a <= chunkMapping.LAddr b) t ->
  ∀ st,
    (∀ c, c ∈ t -> prevEnd st <= chunkMapping.LAddr c) ->
    0 <= sumHole st <= prevEnd st ->
    let st' := fold_left printLogicalMapping (flat_map mappingsOf t) st in
    prevEnd st' = default (prevEnd st) (chunkStop <$> last t)
    ∧ sumHole st' + sumSizes t = sumHole st + (prevEnd st' - prevEnd st)
    ∧ wrap64 (sumChunk st') = wrap64 (sumChunk st + sumStripes t).
Proof.
  intros Hpos Hne Hsep.
  induction Hsep as [|c t Hsep IH Hc]; intros st Hprev Hsum;
    cbn [flat_map fold_left sumSizes sumStripes foldr].
  - cbv zeta. split_and!; [done | lia | f_equal; lia].
  - apply Forall_cons in Hpos as [Hcpos Hpos]. apply Forall_cons in Hne as [Hcne Hne].
    rewrite fold_left_app.
    destruct (print_stripes c (chunkMapping.PAddrs c) Hcpos st Hsum) as [Hfirst Hch].
    { left. apply Hprev. by left. }
    cbv zeta in Hfirst, Hch. fold (mappingsOf c) in Hfirst, Hch.
    destruct (Hfirst Hcne) as [Hp Hh].
    set (st1 := fold_left printLogicalMapping (mappingsOf c) st) in *.
    assert (Hle : prevEnd st <= chunkMapping.LAddr c) by (apply Hprev; by left).
    destruct Hcpos as (Hc1 & Hc2 & Hc3).
    destruct (IH Hpos Hne st1) as (Hp' & Hh' & Hch').
    { intros c' Hc'. rewrite Hp. rewrite Forall_forall in Hc. specialize (Hc c' Hc').
      unfold chunkStop, Add in Hc. rewrite wrap64_id in Hc; [done|].
      unfold is_int64, MinInt64, MaxInt64 in *. lia. }
    { lia. }
    cbv zeta in Hp', Hh', Hch'.
    fold (sumSizes t). fold (sumStripes t). split_and!.
    + rewrite Hp'. destruct t as [|c' t].
      * simpl. rewrite Hp. unfold chunkStop, Add. symmetry. apply wrap64_id.
        unfold is_int64, MinInt64, MaxInt64 in *. lia.
      * rewrite last_cons_cons.
        destruct (last (c' :: t)) eqn:Hl; [done | by apply last_None in Hl].
    + lia.
    + rewrite Hch'. rewrite <- wrap64_add_wrap_l, Hch, wrap64_add_wrap_l. f_equal. lia.
Qed.

Lemma sumChunk_int64 (ms : list Mapping) : ∀ st,
  is_int64 (sumChunk st) -> is_int64 (sumChunk (fold_left printLogicalMapping ms st)).
Proof.
  induction ms as [|m ms IH]; intros st Hst; cbn [fold_left]; [done|].
  apply IH. unfold printLogicalMapping; simpl. apply wrap64_range.
Qed.

(** Chunks in ascending order that are pairwise disjoint and not empty
    lie one after the other. *)
Lemma sorted_separated (t : list chunkMapping.t) :
  StronglySorted (key_lt chunkMapping.LAddr) t ->
  (∀ a b, a ∈ t -> b ∈ t -> a ≠ b -> disjoint chunkMapping.LAddr chunkStop a b) ->
  Forall chunk_nonempty t ->
  StronglySorted (fun a b => chunkStop a <= chunkMapping.LAddr b) t.
Proof.
  induction 1 as [|a t Hs IH Ha]; intros Hdis Hne; constructor.
  - apply IH.
    + intros x y Hx Hy. apply Hdis; by right.
    + by apply Forall_cons in Hne as [_ ?].
  - rewrite Forall_forall in Ha |- *. intros b Hb.
    specialize (Ha b Hb). unfold key_lt in Ha.
    assert (Hbne : chunk_nonempty b).
    { rewrite Forall_forall in Hne. apply Hne. by right. }
    unfold chunk_nonempty in Hbne.
    assert (Hab : a ≠ b) by (intros ->; lia).
    specialize (Hdis a b ltac:(by left) ltac:(by right) Hab (chunkMapping.LAddr b)).
    unfold inside in Hdis. lia.
Qed.

(** X25: for a reachable state whose chunks lie at addresses that are
    not negative, with positive sizes and ends within [int64], the
    totals of [PrintLogicalSpace] add up: the total address space is
    [Size()], the total of the holes plus the sizes of the chunks is
    the total address space, and the total of the chunks counts the
    size of each chunk once for each of its stripes (wrapping at 64
    bits). *)
Theorem PrintLogicalSpace_totals mask paranoid (ops : list Op) (lv : LogicalVolume) :
  run mask paranoid newLogicalVolume ops = Some lv ->
  Forall chunk_positive (chunks lv) ->
  prevEnd (PrintLogicalSpace lv) = snd (Size lv)
  ∧ sumHole (PrintLogicalSpace lv) + sumSizes (chunks lv) = prevEnd (PrintLogicalSpace lv)
  ∧ sumChunk (PrintLogicalSpace lv) = wrap64 (sumStripes (chunks lv)).
Proof.
  intros Hrun Hpos.
  destruct (engine_ok_run _ _ _ _ _ engine_ok_new Hrun) as [[_ Hdis] _].
  destruct (chunks_sorted_run _ _ _ _ Hrun) as [Hs Hst].
  assert (Hne : Forall chunk_nonempty (chunks lv)).
  { eapply Forall_impl; [exact Hpos|]. intros c Hc. unfold chunk_nonempty.
    rewrite (chunk_positive_stop c Hc). destruct Hc as (? & ? & ?). lia. }
  pose proof (sorted_separated _ Hs Hdis Hne) as Hsep.
  assert (Hstripes : Forall (fun c => chunkMapping.PAddrs c ≠ []) (chunks lv)).
  { eapply Forall_impl; [exact Hst|]. by intros c [_ ?]. }
  destruct (print_chunks (chunks lv) Hpos Hstripes Hsep
              {| prevBeg := 0; prevEnd := 0; sumHole := 0; sumChunk := 0; out := [] |})
    as (Hp & Hh & Hch).
  { intros c Hc. simpl. rewrite Forall_forall in Hpos. by destruct (Hpos c Hc). }
  { simpl. lia. }
  cbv zeta in Hp, Hh, Hch. simpl in Hp, Hh, Hch.
  change (fold_left printLogicalMapping (flat_map mappingsOf (chunks lv))
            {| prevBeg := 0; prevEnd := 0; sumHole := 0; sumChunk := 0; out := [] |})
    with (PrintLogicalSpace lv) in Hp, Hh, Hch.
  split_and!.
  - rewrite Hp. unfold Size, RBTree.Max; simpl. rewrite chunks_init.
    by destruct (last (chunks lv)).
  - lia.
  - rewrite ?Z.add_0_l in Hch. rewrite <- Hch. symmetry. apply wrap64_id.
    apply sumChunk_int64. by_evaluation.
Qed.

End addrspace.

Lemma PrintLogicalSpace_totals_witness :
  addrspace.prevEnd (addrspace.PrintLogicalSpace twoChunks) = snd (Size twoChunks)
  ∧ addrspace.sumHole (addrspace.PrintLogicalSpace twoChunks)
    + addrspace.sumSizes (chunks twoChunks)
    = addrspace.prevEnd (addrspace.PrintLogicalSpace twoChunks)
  ∧ addrspace.sumChunk (addrspace.PrintLogicalSpace twoChunks)
    = wrap64 (addrspace.sumStripes (chunks twoChunks)).
Proof.
  assert (H : run raidMask false newLogicalVolume twoChunksOps = Some twoChunks)
    by (vm_compute; reflexivity).
  assert (Hpos : Forall addrspace.chunk_positive (chunks twoChunks)) by by_evaluation.
  exact (addrspace.PrintLogicalSpace_totals _ _ _ _ H Hpos).
Defined.

(** * The unmapped regions of the devices *)

Module rebuildtrees.

Record physicalRegion := { Beg : PhysicalAddr; End : PhysicalAddr }.

Section ListUnmapped.

(** [dev.Size()] of a physical volume, an external collaborator. *)
Variable pvSize : PhysicalVolume -> PhysicalAddr.

(** The body of the loop over the sorted mappings: the regions and the
    positions, a missing entry of [pos] reading as [0] and one of
    [regions] as the empty slice. *)
Definition regionsStep
  (st : gmap DeviceID (list physicalRegion) * gmap DeviceID PhysicalAddr)
  (mapping : Mapping)
  : gmap DeviceID (list physicalRegion) * gmap DeviceID PhysicalAddr :=
  let '(regions, pos) := st in
  let dev := Dev (mPAddr mapping) in
  let regions :=
    if default 0 (pos !! dev) <? Addr (mPAddr mapping)
    then <[dev := default [] (regions !! dev)
                  ++ [{| Beg := default 0 (pos !! dev); End := Addr (mPAddr mapping) |}]]>
           regions
    else regions in
  let pos :=
    if default 0 (pos !! dev) <? Add (Addr (mPAddr mapping)) (mSize mapping)
    then <[dev := Add (Addr (mPAddr mapping)) (mSize mapping)]> pos
    else pos in
  (regions, pos).

(** The body of the loop over the physical volumes. *)
Definition tailStep (pos : gmap DeviceID PhysicalAddr)
  (regions : gmap DeviceID (list physicalRegion)) (d : DeviceID * PhysicalVolume)
  : gmap DeviceID (list physicalRegion) :=
  let '(devID, dev) := d in
  let devSize := pvSize dev in
  if default 0 (pos !! devID) <? devSize
  then <[devID := default [] (regions !! devID)
                  ++ [{| Beg := default 0 (pos !! devID); End := devSize |}]]> regions
  else regions.

(** [listUnmappedPhysicalRegions]: [sorted] is [Mappings()] as
    [sort.Slice] leaves it (the sort is not stable) and [devs] the
    physical volumes in the order the [range] over the map takes. *)
Definition listUnmappedPhysicalRegions (sorted : list Mapping)
  (devs : list (DeviceID * PhysicalVolume)) : gmap DeviceID (list physicalRegion) :=
  let '(regions, pos) := fold_left regionsStep sorted (∅, ∅) in
  fold_left (tailStep pos) devs regions.

(** The physical addresses of a mapping, [paddr, paddr + size) on its
    device, and those of a region. *)
Definition mapped (m : Mapping) (d : DeviceID) (x : PhysicalAddr) : Prop :=
  Dev (mPAddr m) = d ∧ Addr (mPAddr m) <= x < Addr (mPAddr m) + mSize m.

(** The addresses the loop steps over for a mapping: up to the end
    [mapping.PAddr.Addr.Add(mapping.Size)] as [int64] computes it. *)
Definition swept (m : Mapping) (d : DeviceID) (x : PhysicalAddr) : Prop :=
  Dev (mPAddr m) = d ∧ Addr (mPAddr m) <= x < Add (Addr (mPAddr m)) (mSize m).

Definition within (r : physicalRegion) (x : PhysicalAddr) : Prop :=
  Beg r <= x < End r.

(** [sort.Slice] leaves no entry before one that is less than it. *)
Definition paddr_sorted (ms : list Mapping) : Prop :=
  StronglySorted (fun a b => ¬ (QCmp (mPAddr b) (mPAddr a) < 0)) ms.

(** The state of the first loop after the mappings [done]. *)
Definition loop_inv (done : list Mapping)
  (st : gmap DeviceID (list physicalRegion) * gmap DeviceID PhysicalAddr) : Prop :=
  ∀ d,
    0 <= default 0 (st.2 !! d)
    ∧ (∀ m, m ∈ done -> Dev (mPAddr m) = d ->
            Add (Addr (mPAddr m)) (mSize m) <= default 0 (st.2 !! d))
    ∧ (∀ r, r ∈ default [] (st.1 !! d) ->
            (∀ m x, m ∈ done -> ¬ (swept m d x ∧ within r x))
            ∧ ∃ m0, m0 ∈ done ∧ Dev (mPAddr m0) = d ∧ End r <= Addr (mPAddr m0))
    ∧ (∀ x, 0 <= x < default 0 (st.2 !! d) ->
            (∃ m, m ∈ done ∧ swept m d x) ∨ (∃ r, r ∈ default [] (st.1 !! d) ∧ within r x)).

Lemma QCmp_same_dev a b :
  Dev a = Dev b -> ¬ (QCmp b a < 0) -> Addr a <= Addr b.
Proof.
  unfold QCmp. intros ->. rewrite Z.ltb_irrefl.
  destruct (Z.ltb_spec (Addr b) (Addr a)); [lia|]. intros _. lia.
Qed.

Lemma regionsStep_pos st m d :
  default 0 ((regionsStep st m).2 !! d)
  = if decide (d = Dev (mPAddr m))
    then Z.max (default 0 (st.2 !! d)) (Add (Addr (mPAddr m)) (mSize m))
    else default 0 (st.2 !! d).
Proof.
  destruct st as [regions pos]; simpl.
  destruct (decide (d = Dev (mPAddr m))) as [->|Hne].
  - destruct (Z.ltb_spec (default 0 (pos !! Dev (mPAddr m)))
                         (Add (Addr (mPAddr m)) (mSize m))).
    + rewrite lookup_insert_eq; simpl. lia.
    + lia.
  - destruct (_ <? Add _ _); [|done]. by rewrite lookup_insert_ne.
Qed.

Lemma regionsStep_regions st m d :
  default [] ((regionsStep st m).1 !! d)
  = if decide (d = Dev (mPAddr m))
    then if default 0 (st.2 !! d) <? Addr (mPAddr m)
         then default [] (st.1 !! d)
              ++ [{| Beg := default 0 (st.2 !! d); End := Addr (mPAddr m) |}]
         else default [] (st.1 !! d)
    else default [] (st.1 !! d).
Proof.
  destruct st as [regions pos]; simpl.
  destruct (decide (d = Dev (mPAddr m))) as [->|Hne].
  - destruct (_ <? Addr _); [|done]. by rewrite lookup_insert_eq.
  - destruct (_ <? Addr _); [|done]. by rewrite lookup_insert_ne.
Qed.

Lemma loop_inv_step done st m :
  loop_inv done st ->
  (∀ m0, m0 ∈ done -> ¬ (QCmp (mPAddr m) (mPAddr m0) < 0)) ->
  loop_inv (done ++ [m]) (regionsStep st m).
Proof.
  intros Hinv Hsorted d. destruct (Hinv d) as (Hpos & Hends & Hregs & Hcov).
  rewrite regionsStep_pos, regionsStep_regions.
  destruct (decide (d = Dev (mPAddr m))) as [->|Hne].
  - assert (Hold : ∀ r, r ∈ default [] (st.1 !! Dev (mPAddr m)) ->
              (∀ m' x, m' ∈ done ++ [m] -> ¬ (swept m' (Dev (mPAddr m)) x ∧ within r x))
              ∧ ∃ m0, m0 ∈ done ++ [m] ∧ Dev (mPAddr m0) = Dev (mPAddr m)
                      ∧ End r <= Addr (mPAddr m0)).
    { intros r Hr. destruct (Hregs r Hr) as (Hdis & m0 & Hm0 & Hdev & Hend).
      split.
      - intros m' x [Hm' | Heq%list_elem_of_singleton]%elem_of_app; [by apply Hdis|].
        subst m'. intros [[_ Hx] Hw]. unfold within in Hw.
        pose proof (QCmp_same_dev _ _ Hdev (Hsorted m0 Hm0)). lia.
      - exists m0. split_and!; [apply elem_of_app; by left | done | done]. }
    split_and!.
    + lia.
    + intros m' [Hm' | Heq%list_elem_of_singleton]%elem_of_app Hdev.
      * specialize (Hends m' Hm' Hdev). lia.
      * subst m'. lia.
    + intros r Hr. destruct (Z.ltb_spec (default 0 (st.2 !! Dev (mPAddr m))) (Addr (mPAddr m))) as [Hlt|Hge]; [|by apply Hold].
      apply elem_of_app in Hr as [Hr | Heq%list_elem_of_singleton]; [by apply Hold|].
      subst r. split.
      * intros m' x [Hm' | Heq%list_elem_of_singleton]%elem_of_app [[Hdev Hx] Hw];
          unfold within in Hw; simpl in Hw.
        -- specialize (Hends m' Hm' Hdev). lia.
        -- subst m'. lia.
      * exists m. split_and!; [apply elem_of_app; right; by left | done | simpl; lia].
    + intros x Hx. destruct (decide (x < (default 0 (st.2 !! Dev (mPAddr m))))) as [Hxp|Hxp].
      * destruct (Hcov x ltac:(lia)) as [(m' & Hm' & Hmap)|(r & Hr & Hw)].
        -- left. exists m'. split; [apply elem_of_app; by left | done].
        -- right. exists r. split; [|done].
           destruct ((default 0 (st.2 !! Dev (mPAddr m))) <? (Addr (mPAddr m))); [apply elem_of_app; by left | done].
      * assert (HxE : x < (Add (Addr (mPAddr m)) (mSize m))) by lia.
        destruct (Z.ltb_spec (default 0 (st.2 !! Dev (mPAddr m))) (Addr (mPAddr m))) as [Hlt|Hge].
        -- destruct (decide (x < (Addr (mPAddr m)))) as [HxA|HxA].
           ++ right. exists {| Beg := default 0 (st.2 !! Dev (mPAddr m)); End := Addr (mPAddr m) |}.
              split; [apply elem_of_app; right; by left|]. unfold within; simpl. lia.
           ++ left. exists m. split; [apply elem_of_app; right; by left|].
              split; [done|]. lia.
        -- left. exists m. split; [apply elem_of_app; right; by left|].
           split; [done|]. lia.
  - split_and!; [done | | |].
    + intros m' [Hm' | Heq%list_elem_of_singleton]%elem_of_app Hdev;
        [by apply Hends | by subst m'].
    + intros r Hr. destruct (Hregs r Hr) as (Hdis & m0 & Hm0 & Hdev & Hend). split.
      * intros m' x [Hm' | Heq%list_elem_of_singleton]%elem_of_app; [by apply Hdis|].
        subst m'. intros [[Hdev' _] _]. done.
      * exists m0. split_and!; [apply elem_of_app; by left | done | done].
    + intros x Hx. destruct (Hcov x Hx) as [(m' & Hm' & Hmap)|?]; [|by right].
      left. exists m'. split; [apply elem_of_app; by left | done].
Qed.

Lemma loop_inv_run (ms : list Mapping) : ∀ done st,
  paddr_sorted (done ++ ms) -> loop_inv done st ->
  loop_inv (done ++ ms) (fold_left regionsStep ms st).
Proof.
  induction ms as [|m ms IH]; intros done st Hsorted Hinv; cbn [fold_left].
  - by rewrite app_nil_r.
  - replace (done ++ m :: ms) with ((done ++ [m]) ++ ms) in * by (by rewrite <- app_assoc).
    apply IH; [done|]. apply loop_inv_step; [done|].
    intros m0 Hm0. apply StronglySorted_app_1_l in Hsorted.
    eapply (StronglySorted_app_1_elem_of _ _ _ _ _ Hsorted); [done | by left].
Qed.

#[global] Instance paddr_sorted_dec ms : Decision (paddr_sorted ms).
Proof. unfold paddr_sorted. apply _. Defined.

#[global] Instance swept_dec m d x : Decision (swept m d x).
Proof. unfold swept. apply _. Defined.

#[global] Instance mapped_dec m d x : Decision (mapped m d x).
Proof. unfold mapped. apply _. Defined.

Lemma swept_mapped m d x :
  is_int64 (Addr (mPAddr m) + mSize m) -> swept m d x <-> mapped m d x.
Proof. intros Hb. unfold swept, mapped, Add. by rewrite wrap64_id. Qed.

Lemma loop_inv_nil : loop_inv [] (∅, ∅).
Proof.
  intros d; simpl. rewrite !lookup_empty; simpl. split_and!.
  - done.
  - by intros m ?%elem_of_nil.
  - by intros r ?%elem_of_nil.
  - intros x Hx. lia.
Qed.

(** The second loop adds, for each physical volume past whose position
    there is room, the region from the position to the size. *)
Lemma tail_regions (pos : gmap DeviceID PhysicalAddr)
  (devs : list (DeviceID * PhysicalVolume)) (d : DeviceID) (r : physicalRegion) :
  ∀ regions,
    r ∈ default [] (fold_left (tailStep pos) devs regions !! d)
    <-> r ∈ default [] (regions !! d)
        ∨ ∃ dev, (d, dev) ∈ devs ∧ default 0 (pos !! d) < pvSize dev
                 ∧ r = {| Beg := default 0 (pos !! d); End := pvSize dev |}.
Proof.
  induction devs as [|[devID dev] devs IH]; intros regions; cbn [fold_left].
  - split; [by left|]. intros [?|(dev & ?%elem_of_nil & _)]; done.
  - rewrite IH. unfold tailStep.
    destruct (Z.ltb_spec (default 0 (pos !! devID)) (pvSize dev)) as [Hlt|Hge].
    + destruct (decide (devID = d)) as [->|Hne].
      * rewrite lookup_insert_eq; simpl. rewrite elem_of_app, list_elem_of_singleton.
        split.
        -- intros [[?| ->]|(dev' & Hin & Hlt' & ->)]; [by left | right | right].
           ++ exists dev. split_and!; [by left | done | done].
           ++ exists dev'. split_and!; [by right | done | done].
        -- intros [?|(dev' & [[= <-]|Hin]%elem_of_cons & Hlt' & ->)];
             [by left; left | by left; right |].
           right. by exists dev'.
      * rewrite lookup_insert_ne by done. split.
        -- intros [?|(dev' & Hin & Hlt' & ->)]; [by left | right].
           exists dev'. split_and!; [by right | done | done].
        -- intros [?|(dev' & [[= ? ?]|Hin]%elem_of_cons & Hlt' & ->)];
             [by left | congruence |].
           right. by exists dev'.
    + split.
      * intros [?|(dev' & Hin & Hlt' & ->)]; [by left | right].
        exists dev'. split_and!; [by right | done | done].
      * intros [?|(dev' & [[= <- <-]|Hin]%elem_of_cons & Hlt' & ->)];
          [by left | lia |].
        right. by exists dev'.
Qed.

(** The regions listed hold no address that the loop stepped over for
    a mapping, and every address of a physical volume that it stepped
    over for none lies in a region. *)
Lemma listUnmappedPhysicalRegions_swept (lv : LogicalVolume) (sorted : list Mapping)
  (devs : list (DeviceID * PhysicalVolume)) :
  sorted ≡ₚ Mappings lv -> paddr_sorted sorted -> devs ≡ₚ map_to_list (id2pv lv) ->
  (∀ d r m x,
     r ∈ default [] (listUnmappedPhysicalRegions sorted devs !! d) ->
     m ∈ Mappings lv -> ¬ (swept m d x ∧ within r x))
  ∧ (∀ d dev x,
       id2pv lv !! d = Some dev -> 0 <= x < pvSize dev ->
       (∀ m, m ∈ Mappings lv -> ¬ swept m d x) ->
       ∃ r, r ∈ default [] (listUnmappedPhysicalRegions sorted devs !! d) ∧ within r x).
Proof.
  intros Hperm Hsorted Hdevs. unfold listUnmappedPhysicalRegions.
  pose proof (loop_inv_run sorted [] (∅, ∅) Hsorted loop_inv_nil) as Hinv.
  rewrite app_nil_l in Hinv.
  destruct (fold_left regionsStep sorted (∅, ∅)) as [regions pos]. split.
  - intros d r m x Hr Hm. rewrite <- Hperm in Hm.
    destruct (Hinv d) as (_ & Hends & Hregs & _); simpl in *.
    apply tail_regions in Hr as [Hr|(dev & _ & _ & ->)].
    + destruct (Hregs r Hr) as [Hdis _]. by apply Hdis.
    + intros [[Hdev Hx] Hw]. unfold within in Hw; simpl in Hw.
      specialize (Hends m Hm Hdev). lia.
  - intros d dev x Hd Hx Hfree.
    destruct (Hinv d) as (_ & _ & _ & Hcov); simpl in *.
    destruct (decide (x < default 0 (pos !! d))) as [Hlt|Hge].
    + destruct (Hcov x ltac:(lia)) as [(m & Hm & Hmap)|(r & Hr & Hw)].
      * exfalso. apply (Hfree m); [by rewrite <- Hperm | done].
      * exists r. split; [|done]. apply tail_regions. by left.
    + exists {| Beg := default 0 (pos !! d); End := pvSize dev |}. split.
      * apply tail_regions. right. exists dev. split_and!; [|lia|done].
        rewrite Hdevs. by apply elem_of_map_to_list.
      * unfold within; simpl. lia.
Qed.

(** X26: when the end [paddr + size] of every mapping is within
    [int64], the regions that [listUnmappedPhysicalRegions] lists for a
    device hold no physical address of a mapping of that device, and
    every address of a physical volume, from 0 up to its size, that no
    mapping of the device holds lies in one of the regions listed for
    it. *)
Theorem listUnmappedPhysicalRegions_exact (lv : LogicalVolume) (sorted : list Mapping)
  (devs : list (DeviceID * PhysicalVolume)) :
  sorted ≡ₚ Mappings lv -> paddr_sorted sorted -> devs ≡ₚ map_to_list (id2pv lv) ->
  Forall (fun m => is_int64 (Addr (mPAddr m) + mSize m)) (Mappings lv) ->
  (∀ d r m x,
     r ∈ default [] (listUnmappedPhysicalRegions sorted devs !! d) ->
     m ∈ Mappings lv -> ¬ (mapped m d x ∧ within r x))
  ∧ (∀ d dev x,
       id2pv lv !! d = Some dev -> 0 <= x < pvSize dev ->
       (∀ m, m ∈ Mappings lv -> ¬ mapped m d x) ->
       ∃ r, r ∈ default [] (listUnmappedPhysicalRegions sorted devs !! d) ∧ within r x).
Proof.
  intros Hperm Hsorted Hdevs Hb. rewrite Forall_forall in Hb.
  destruct (listUnmappedPhysicalRegions_swept lv sorted devs Hperm Hsorted Hdevs)
    as [Hsound Hcomplete].
  split.
  - intros d r m x Hr Hm [Hmap Hw]. apply (Hsound d r m x Hr Hm).
    split; [|done]. by apply swept_mapped; [apply Hb|].
  - intros d dev x Hd Hx Hfree. apply (Hcomplete d dev x Hd Hx).
    intros m Hm Hs. apply (Hfree m Hm). by apply swept_mapped; [apply Hb|].
Qed.

End ListUnmapped.

End rebuildtrees.

Lemma listUnmappedPhysicalRegions_exact_witness :
  ∃ r, r ∈ default [] (rebuildtrees.listUnmappedPhysicalRegions (fun _ => 0x4000)
                         (Mappings twoChunks) (map_to_list (id2pv twoChunks)) !! 1)
       ∧ rebuildtrees.within r 0x1800.
Proof.
  assert (Hs : rebuildtrees.paddr_sorted (Mappings twoChunks)) by by_evaluation.
  assert (Hd : id2pv twoChunks !! 1 = Some nullVolume) by (vm_compute; reflexivity).
  assert (Hb : Forall (fun m => is_int64 (Addr (mPAddr m) + mSize m)) (Mappings twoChunks))
    by by_evaluation.
  refine (proj2 (rebuildtrees.listUnmappedPhysicalRegions_exact (fun _ => 0x4000) twoChunks
                   (Mappings twoChunks) (map_to_list (id2pv twoChunks))
                   (reflexivity _) Hs (reflexivity _) Hb) 1 nullVolume 0x1800 Hd _ _).
  - simpl; lia.
  - assert (Hf : Forall (fun m => ¬ rebuildtrees.mapped m 1 0x1800) (Mappings twoChunks))
      by by_evaluation.
    intros m Hm. rewrite Forall_forall in Hf. by apply Hf.
Defined.

(** * [ReadAt] reads the whole buffer or fails *)

(** A physical volume fills the buffer it is given when it reports no
    error. *)
Definition devices_fill (lv : LogicalVolume) : Prop :=
  map_Forall (fun _ dev => ∀ n off buf, pvReadAt dev n off = Some buf -> length buf = n)
             (id2pv lv).

Lemma cmpRange_probe_in_bounds (c : chunkMapping.t) (laddr : LogicalAddr) :
  chunk_in_bounds c -> is_int64 laddr ->
  chunkMapping.cmpRange (probe laddr) c = 0
  <-> chunkMapping.LAddr c <= laddr < chunkMapping.LAddr c + chunkMapping.Size c.
Proof.
  intros (Hc1 & Hc2 & Hc3) Hl. rewrite cmpRange_probe.
  assert (chunkStop c = chunkMapping.LAddr c + chunkMapping.Size c) as ->.
  { unfold chunkStop, Add. by apply wrap64_id. }
  destruct (decide (laddr = MaxInt64)) as [->|Hmax].
  - assert (Add MaxInt64 1 = MinInt64) as -> by (vm_compute; reflexivity).
    unfold is_int64, MinInt64, MaxInt64 in *. lia.
  - assert (Add laddr 1 = laddr + 1) as ->.
    { unfold Add. apply wrap64_id. unfold is_int64, MinInt64, MaxInt64 in *. lia. }
    lia.
Qed.

(** Where [Resolve] finds a chunk, at least one byte can be read. *)
Lemma Resolve_maxlen_positive lv laddr :
  in_bounds lv -> is_int64 laddr ->
  fst (Resolve lv laddr) ≠ ∅ -> 1 <= snd (Resolve lv laddr).
Proof.
  intros [Hb _] Hl Hne. rewrite Forall_forall in Hb.
  destruct (Resolve_cases lv laddr) as [[_ Hr]|(c & _ & Hc & Hz & Hr)].
  - rewrite Hr in Hne. done.
  - rewrite Hr; simpl. pose proof (Hb c Hc) as Hcb.
    apply (cmpRange_probe_in_bounds c laddr Hcb Hl) in Hz.
    destruct Hcb as (Hc1 & Hc2 & Hc3). unfold Sub.
    rewrite (wrap64_id (laddr - chunkMapping.LAddr c))
      by (unfold is_int64, MinInt64, MaxInt64 in *; lia).
    rewrite wrap64_id by (unfold is_int64, MinInt64, MaxInt64 in *; lia). lia.
Qed.

Lemma readStripes_length lv n order : ∀ first dat got,
  devices_fill lv -> length dat = n ->
  readStripes lv n first dat order = Ok got -> length got = n.
Proof.
  induction order as [|p order IH]; intros first dat got Hfill Hlen; simpl.
  - by intros [= <-].
  - destruct (id2pv lv !! Dev p) as [dev|] eqn:Hdev; [|done].
    destruct (pvReadAt dev n (Addr p)) as [buf|] eqn:Hbuf; [|done].
    pose proof (Hfill _ _ Hdev n _ _ Hbuf) as Hbl.
    destruct first; [by apply IH|].
    destruct (negb _); [done | by apply IH].
Qed.

Lemma readStripes_no_panic lv n order : ∀ first dat,
  readStripes lv n first dat order ≠ Panic.
Proof.
  induction order as [|p order IH]; intros first dat; simpl; [done|].
  destruct (id2pv lv !! Dev p) as [dev|]; [|done].
  destruct (pvReadAt dev n (Addr p)) as [buf|]; [|done].
  destruct first; [apply IH|]. destruct (negb _); [done | apply IH].
Qed.

(** One short read: an error, or at least one byte and no more than
    asked. *)
Lemma maybeShortReadAt_progress lv order (b : byte) (dat : list byte) laddr :
  in_bounds lv -> is_int64 laddr -> devices_fill lv ->
  match maybeShortReadAt lv order (b :: dat) laddr with
  | Ok got => (1 <= length got <= length (b :: dat))%nat
  | Err _ => True
  | Panic => False
  end.
Proof.
  intros Hb Hl Hfill. unfold maybeShortReadAt.
  pose proof (Resolve_maxlen_positive lv laddr Hb Hl) as Hmax.
  destruct (Resolve lv laddr) as [paddrs maxlen]; simpl in Hmax.
  destruct (Nat.eqb_spec (size paddrs) 0) as [|Hsize]; [done|].
  assert (Hpos : 1 <= maxlen).
  { apply Hmax. intros ->. by rewrite size_empty in Hsize. }
  destruct (Z.ltb_spec maxlen 0) as [|_]; [lia|]. rewrite andb_false_r.
  assert (Hcov : (1 <= length (covered (b :: dat) maxlen) <= length (b :: dat))%nat).
  { unfold covered. destruct (Z.gtb_spec (Z.of_nat (length (b :: dat))) maxlen).
    - rewrite length_take. cbn [length] in *. lia.
    - cbn [length]. lia. }
  destruct (readStripes lv _ true _ order) as [got| |] eqn:Hr; [|done|].
  - apply readStripes_length in Hr; [|done|done]. by rewrite Hr.
  - by apply readStripes_no_panic in Hr.
Qed.

(** X27: on an engine whose ranges stay within [int64] and whose
    devices fill the buffers they are given, [ReadAt] ends after at
    most one short read for each byte of the buffer, with an error or
    with as many bytes as the buffer has; it does not panic. *)
Theorem ReadAt_all_or_error (lv : LogicalVolume)
  (iter : LogicalAddr -> list QualifiedPhysicalAddr) (dat : list byte)
  (laddr : LogicalAddr) :
  in_bounds lv -> devices_fill lv -> is_int64 laddr ->
  match ReadAt (length dat) lv iter dat laddr with
  | Ok got => length got = length dat
  | Err _ => True
  | Panic => False
  end.
Proof.
  intros Hb Hfill.
  assert (H : ∀ fuel dat laddr, (length dat <= fuel)%nat -> is_int64 laddr ->
            match ReadAt fuel lv iter dat laddr with
            | Ok got => length got = length dat
            | Err _ => True
            | Panic => False
            end).
  { induction fuel as [|fuel IH]; intros dat0 laddr0 Hlen Hl.
    - destruct dat0; [done | simpl in Hlen; lia].
    - destruct dat0 as [|b dat0]; [done|]. cbn [ReadAt].
      pose proof (maybeShortReadAt_progress lv (iter laddr0) b dat0 laddr0 Hb Hl Hfill)
        as Hstep.
      destruct (maybeShortReadAt lv (iter laddr0) (b :: dat0) laddr0) as [got| |];
        [|done|done].
      specialize (IH (drop (length got) (b :: dat0))
                     (wrap64 (laddr0 + Z.of_nat (length got)))).
      rewrite length_drop in IH. cbn [length] in *.
      specialize (IH ltac:(lia) (wrap64_range _)).
      destruct (ReadAt fuel lv iter _ _) as [rest| |]; [|done|done].
      rewrite length_app, IH. lia. }
  intros Hl. by apply H.
Qed.


Lemma mirror_devices_fill : devices_fill mirror.
Proof.
  assert (Hpv : id2pv mirror = <[1 := zeroVolume]> (<[2 := zeroVolume]> ∅))
    by (vm_compute; reflexivity).
  unfold devices_fill. rewrite Hpv. intros d dev Hd n off buf Hbuf.
  apply lookup_insert_Some in Hd as [[_ <-]|[_ Hd]].
  - simpl in Hbuf. injection Hbuf as <-. apply length_replicate.
  - apply lookup_insert_Some in Hd as [[_ <-]|[_ Hd]]; [|by rewrite lookup_empty in Hd].
    simpl in Hbuf. injection Hbuf as <-. apply length_replicate.
Qed.

Lemma ReadAt_all_or_error_witness :
  match ReadAt (length [x01; x02]) mirror (fun _ => elements mirrorStripes)
               [x01; x02] 0xfff with
  | Ok got => length got = length [x01; x02]
  | Err _ => True
  | Panic => False
  end.
Proof.
  assert (Hb : in_bounds mirror) by by_evaluation.
  assert (Hl : is_int64 0xfff) by by_evaluation.
  pose proof (ReadAt_all_or_error mirror (fun _ => elements mirrorStripes) [x01; x02] 0xfff
                Hb mirror_devices_fill Hl) as H.
  exact H.
Defined.

(** * What [leafToRoots] lists *)

Module LeafRoots.
Import btrees.

Section WithGraph.
Variable g : pkggraph.Graph.
Variable tree : RebuiltTree.

(** The keypointers to a node that [indexNode] follows: those from
    nodes that pass [isOwnerOK]. *)
Definition kps (node : LogicalAddr) : list pkggraph.Edge :=
  filter (fun kp => nodeOwnerOK g tree (pkggraph.FromNode kp) = true)
         (default [] (pkggraph.EdgesTo g !! node)).

(** [reaches r n]: going up from [n] along such keypointers, through
    nodes that pass [isOwnerOK], one can arrive at [r], and no such
    keypointer leads further up from [r]. *)
Inductive reaches (r : LogicalAddr) : LogicalAddr -> Prop :=
| reaches_top : nodeOwnerOK g tree r = true -> kps r = [] -> reaches r r
| reaches_up n kp :
    nodeOwnerOK g tree n = true -> kp ∈ kps n -> reaches r (pkggraph.FromNode kp) ->
    reaches r n.

Lemma reaches_ownerOK r n : reaches r n -> nodeOwnerOK g tree n = true.
Proof. by destruct 1. Qed.

(** What the index of [indexNode] holds. *)
Definition index_inv (index : gmap LogicalAddr (gset LogicalAddr)) : Prop :=
  ∀ n rs, index !! n = Some rs ->
          (nodeOwnerOK g tree n = true -> rs ≠ ∅) ∧ ∀ r, r ∈ rs <-> reaches r n.

Lemma index_inv_insert index node rs :
  index_inv index ->
  (nodeOwnerOK g tree node = true -> rs ≠ ∅) -> (∀ r, r ∈ rs <-> reaches r node) ->
  index_inv (<[node := rs]> index).
Proof.
  intros Hinv H1 H2 n rs'. destruct (decide (node = n)) as [->|Hne].
  - rewrite lookup_insert_eq. by intros [= <-].
  - rewrite lookup_insert_ne by done. apply Hinv.
Qed.

(** The loop of [indexNode] over the keypointers, [seen] being those
    already followed. *)
Definition loop_inv (seen : list pkggraph.Edge)
  (index : gmap LogicalAddr (gset LogicalAddr)) (roots : option (gset LogicalAddr)) : Prop :=
  index_inv index
  ∧ (roots = None -> seen = [])
  ∧ (∀ rs, roots = Some rs -> rs ≠ ∅)
  ∧ (∀ r, r ∈ default ∅ roots <-> ∃ kp, kp ∈ seen ∧ reaches r (pkggraph.FromNode kp)).

Lemma indexNode_inv (fuel : nat) : ∀ node index stack index',
  index_inv index ->
  indexNode g fuel tree node index stack = Some index' ->
  index_inv index' ∧ is_Some (index' !! node)
  ∧ ∀ n, is_Some (index !! n) -> is_Some (index' !! n).
Proof.
  induction fuel as [|fuel IH]; intros node index stack index' Hinv; [done|].
  cbn [indexNode].
  destruct (bool_decide (is_Some (index !! node))) eqn:Hdone.
  { apply bool_decide_eq_true in Hdone. intros [= <-]. by split_and!. }
  destruct (bool_decide (node ∈ stack)); [done|].
  destruct (nodeOwnerOK g tree node) eqn:Hok; cbn [negb].
  2:{ intros [= <-]. split_and!.
      - apply index_inv_insert; [done | congruence |].
        intros r. split; [by intros ?%not_elem_of_empty|].
        intros Hr%reaches_ownerOK. congruence.
      - by rewrite lookup_insert_eq.
      - intros n Hn. destruct (decide (node = n)) as [->|Hne];
          [by rewrite lookup_insert_eq | by rewrite lookup_insert_ne]. }
  fold (kps node).
  match goal with
  | |- context [fold_left ?f (kps node) _] => set (step := f)
  end.
  assert (Hloop : ∀ l seen index0 roots0 res,
            (∀ kp, kp ∈ l -> nodeOwnerOK g tree (pkggraph.FromNode kp) = true) ->
            loop_inv seen index0 roots0 ->
            (∀ n, is_Some (index !! n) -> is_Some (index0 !! n)) ->
            fold_left step l (Some (index0, roots0)) = Some res ->
            loop_inv (seen ++ l) res.1 res.2
            ∧ ∀ n, is_Some (index !! n) -> is_Some (res.1 !! n)).
  { induction l as [|kp l IHl]; intros seen index0 roots0 res Hl Hli Hmono; cbn [fold_left].
    - intros [= <-]. by rewrite app_nil_r.
    - unfold step at 2.
      destruct (indexNode g fuel tree (pkggraph.FromNode kp) index0 (stack ++ [node]))
        as [index1|] eqn:Hrec.
      2:{ intros Hnone. exfalso. clear -Hnone.
          assert (Hn : ∀ l', fold_left step l' None = None).
          { induction l' as [|x l' IH']; [done | apply IH']. }
          by rewrite Hn in Hnone. }
      destruct Hli as (Hi0 & Hnone & Hsome & Hroots).
      destruct (IH _ _ _ _ Hi0 Hrec) as (Hi1 & [rs Hrs] & Hmono1).
      rewrite Hrs. cbn [default from_option].
      destruct (Hi1 _ _ Hrs) as [Hne Hreach].
      assert (Hkp : nodeOwnerOK g tree (pkggraph.FromNode kp) = true)
        by (apply Hl; by left).
      assert (Hsize : (0 <? size rs)%nat = true).
      { apply Nat.ltb_lt. destruct (size rs) eqn:Hs; [|lia].
        apply size_empty_inv, leibniz_equiv in Hs. by apply Hne in Hs. }
      unfold id. rewrite Hsize. intros Hfold.
      replace (seen ++ kp :: l) with ((seen ++ [kp]) ++ l) by (by rewrite <- app_assoc).
      apply (IHl (seen ++ [kp]) index1 (Some (default ∅ roots0 ∪ rs)) res); [| | |done].
      + intros kp' Hkp'. apply Hl. by right.
      + split_and!; [done | done | |].
        { intros rs' [= <-] Hempty. apply Hne; [done|].
          apply set_eq. intros x. split; [|by intros ?%not_elem_of_empty].
          intros Hx. rewrite <- Hempty. apply elem_of_union. by right. }
        intros r. change (default ∅ (Some (default ∅ roots0 ∪ rs))) with (default ∅ roots0 ∪ rs).
        rewrite elem_of_union, Hroots, Hreach. split.
        * intros [(kp' & Hin & Hr)|Hr].
          -- exists kp'. split; [apply elem_of_app; by left | done].
          -- exists kp. split; [apply elem_of_app; right; by left | done].
        * intros (kp' & [Hin|Hin%list_elem_of_singleton]%elem_of_app & Hr).
          -- left. by exists kp'.
          -- right. by subst kp'.
      + intros n Hn. by apply Hmono1, Hmono. }
  destruct (fold_left step (kps node) (Some (index, None))) as [[index1 roots1]|] eqn:Hfold;
    [|done].
  intros [= <-].
  destruct (Hloop (kps node) [] index None (index1, roots1))
    as [(Hi1 & Hnone & Hsome & Hroots) Hmono]; [| |done|done|].
  { intros kp [Hkp _]%list_elem_of_filter. done. }
  { split_and!; [done | done | done |]. intros r. simpl.
    split; [by intros ?%not_elem_of_empty|]. by intros (kp & ?%elem_of_nil & _). }
  simpl in Hi1, Hnone, Hsome, Hroots, Hmono. split_and!.
  - apply index_inv_insert; [done | |].
    + intros _. destruct roots1 as [rs|]; [by apply Hsome|].
      intros Hs. apply (f_equal (fun X => bool_decide (node ∈ X))) in Hs.
      rewrite bool_decide_eq_true_2 in Hs by (by apply elem_of_singleton).
      by rewrite bool_decide_eq_false_2 in Hs by apply not_elem_of_empty.
    + intros r. destruct roots1 as [rs|].
      * simpl in Hroots. rewrite Hroots. split.
        -- intros (kp & Hkp & Hr). by eapply reaches_up.
        -- intros Hr. inversion Hr as [Hok' Hkps|n kp Hok' Hkp Hr']; subst.
           ++ exfalso. specialize (Hsome rs eq_refl).
              apply Hsome. apply set_eq. intros x.
              split; [|by intros ?%not_elem_of_empty].
              intros (kp & Hkp & _)%Hroots. rewrite Hkps in Hkp. by apply elem_of_nil in Hkp.
           ++ by exists kp.
      * specialize (Hnone eq_refl). rewrite elem_of_singleton. split.
        -- intros ->. by apply reaches_top.
        -- intros Hr. inversion Hr as [Hok' Hkps|n kp Hok' Hkp Hr']; subst; [done|].
           rewrite Hnone in Hkp. by apply elem_of_nil in Hkp.
  - by rewrite lookup_insert_eq.
  - intros n Hn. destruct (decide (node = n)) as [->|Hne];
      [by rewrite lookup_insert_eq | rewrite lookup_insert_ne by done; by apply Hmono].
Qed.


Lemma indexNodes_inv (nodes : list LogicalAddr) : ∀ index res,
  index_inv index ->
  fold_left (fun acc node =>
               match acc with
               | None => None
               | Some index => indexNode g (indexFuel g) tree node index []
               end) nodes (Some index) = Some res ->
  index_inv res
  ∧ (∀ n, n ∈ nodes -> is_Some (res !! n))
  ∧ (∀ n, is_Some (index !! n) -> is_Some (res !! n)).
Proof.
  induction nodes as [|node nodes IH]; intros index res Hinv; cbn [fold_left].
  - intros [= <-]. split_and!; [done | by intros n ?%elem_of_nil | done].
  - destruct (indexNode g (indexFuel g) tree node index []) as [index1|] eqn:Hrec.
    + intros Hfold. destruct (indexNode_inv _ _ _ _ _ Hinv Hrec) as (Hi1 & Hnode & Hmono1).
      destruct (IH _ _ Hi1 Hfold) as (Hres & Hin & Hmono). split_and!; [done | |].
      * intros n [->|Hn]%elem_of_cons; [by apply Hmono | by apply Hin].
      * intros n Hn. by apply Hmono, Hmono1.
    + intros Hnone. exfalso.
      assert (Hn : ∀ l, fold_left (fun acc node =>
                          match acc with
                          | None => None
                          | Some index => indexNode g (indexFuel g) tree node index []
                          end) l None = None).
      { induction l as [|x l IHl]; [done | apply IHl]. }
      by rewrite Hn in Hnone.
Qed.

(** X28: [leafToRoots] lists level-0 nodes that pass [isOwnerOK], each
    with the set of the nodes that one arrives at by going up from it
    along keypointers between nodes that pass [isOwnerOK] as far as
    they lead, a set that is not empty; and it lists every such node of
    the graph. *)
Theorem leafToRoots_lists (l2r : gmap LogicalAddr (gset LogicalAddr)) :
  leafToRoots g tree = Some l2r ->
  (∀ leaf rs, l2r !! leaf = Some rs ->
     pkggraph.Level (pkggraph.node g leaf) = 0
     ∧ nodeOwnerOK g tree leaf = true
     ∧ rs ≠ ∅
     ∧ ∀ r, r ∈ rs <-> reaches r leaf)
  ∧ (∀ leaf, leaf ∈ dom (pkggraph.Nodes g) ->
       pkggraph.Level (pkggraph.node g leaf) = 0 ->
       nodeOwnerOK g tree leaf = true ->
       leaf ∈ dom l2r).
Proof.
  unfold leafToRoots, leafToRootsFuel.
  destruct (fold_left _ _ _) as [nodeToRoots|] eqn:Hfold; [|done].
  intros [= <-].
  assert (Hinv0 : index_inv ∅) by (intros n rs Hn; by rewrite lookup_empty in Hn).
  destruct (indexNodes_inv _ _ _ Hinv0 Hfold) as (Hinv & Hin & _).
  split.
  - intros leaf rs [Hrs [Hlevel Hsize]]%map_lookup_filter_Some. simpl in Hlevel, Hsize.
    destruct (Hinv leaf rs Hrs) as [Hne Hreach].
    assert (Hrs' : rs ≠ ∅) by (intros ->; rewrite size_empty in Hsize; lia).
    split_and!; [done | | done | done].
    destruct (set_choose_L rs Hrs') as [r Hr].
    apply Hreach in Hr. by eapply reaches_ownerOK.
  - intros leaf Hleaf Hlevel Hok.
    destruct (Hin leaf) as [rs Hrs]; [by apply AddRoots.elem_of_SortedKeys|].
    apply elem_of_dom. exists rs. apply map_lookup_filter_Some. split; [done|].
    simpl. split; [done|].
    destruct (Hinv leaf rs Hrs) as [Hne _]. specialize (Hne Hok).
    destruct (size rs) eqn:Hs; [|lia].
    apply size_empty_inv, leibniz_equiv in Hs. done.
Qed.

End WithGraph.

Lemma leafToRoots_lists_witness :
  400 ∈ dom TreeRoots.familyRoots.
Proof.
  assert (H : leafToRoots familyGraph TreeRoots.partTree = Some TreeRoots.familyRoots)
    by (vm_compute; reflexivity).
  refine (proj2 (leafToRoots_lists familyGraph TreeRoots.partTree TreeRoots.familyRoots H)
            400 _ _ _).
  - by_evaluation.
  - vm_compute; reflexivity.
  - vm_compute; reflexivity.
Defined.

End LeafRoots.

(** * [UnResolve] on mapped and unmapped addresses *)




